(** * Change-tracking core: diff statistics, diff parsing and the working-tree watcher

    A shallow embedding of
      - [src/main/src/services/gitDiffManager.ts]  (class [GitDiffManager]),
      - [src/main/src/services/gitFileWatcher.ts]  (class [GitFileWatcher]),
      - the two unified-diff parsers [parseUnifiedDiff] and [parseFilesFromDiff],
    followed by the properties established about them.

    Conventions of the embedding.
      - A JavaScript string is a [list ascii]: a sequence of code units, of
        which the model covers the range 0..255.  [lit "..."] writes a literal.
      - A JavaScript [number] that holds a count is a [Z]; the counts of the
        program stay far below 2^53, where double arithmetic is exact.  [NaN]
        is the [None] of [option Z].
      - A call that can throw returns a [result]; [try]/[catch] is a [match]
        on it.
      - Regular expressions are terms of [Regex.re], run by a backtracking
        matcher that follows the ECMAScript semantics (leftmost match, greedy
        and lazy quantifiers tried in order, atomic lookahead). *)

From Stdlib Require Import ZArith Ascii List Bool Lia.
From Stdlib Require String DecimalString DecimalPos.
From stdpp Require Import gmap strings list.

#[local] Set Warnings "-clear-no-such-hyp".

Abbreviation jstring := (list ascii).

(** A string literal of the source. *)
Definition lit (s : string) : jstring := String.list_ascii_of_string s.

(** ** JavaScript string primitives *)
Module Js.

Definition LF : ascii := ascii_of_nat 10.
Definition CR : ascii := ascii_of_nat 13.
Definition NUL : ascii := ascii_of_nat 0.
Definition DQUOTE : ascii := ascii_of_nat 34.
Definition SQUOTE : ascii := ascii_of_nat 39.
Definition BACKSLASH : ascii := ascii_of_nat 92.

Definition code (c : ascii) : N := N_of_ascii c.

(** WhiteSpace and LineTerminator code units below 256: TAB, LF, VT, FF, CR,
    SP and NBSP. *)
Definition isWhitespace (c : ascii) : bool :=
  let n := code c in
  ((9 <=? n) && (n <=? 13) || (n =? 32) || (n =? 160))%N.

Definition isDigit (c : ascii) : bool :=
  let n := code c in ((48 <=? n) && (n <=? 57))%N.

(** LineTerminator, as [.], [^] and [$] see it. *)
Definition isLineTerminator (c : ascii) : bool :=
  let n := code c in ((n =? 10) || (n =? 13))%N.

Definition ascii_eqb (a b : ascii) : bool := (code a =? code b)%N.

Fixpoint dropWhile (p : ascii -> bool) (s : jstring) : jstring :=
  match s with
  | c :: s' => if p c then dropWhile p s' else s
  | [] => []
  end.

Definition trimStart (s : jstring) : jstring := dropWhile isWhitespace s.
Definition trimEnd (s : jstring) : jstring := rev (dropWhile isWhitespace (rev s)).
(** [String.prototype.trim] *)
Definition trim (s : jstring) : jstring := trimEnd (trimStart s).

(** [s.startsWith(p)] *)
Fixpoint startsWith (p s : jstring) : bool :=
  match p, s with
  | [], _ => true
  | a :: p', b :: s' => ascii_eqb a b && startsWith p' s'
  | _ :: _, [] => false
  end.

(** [s.endsWith(p)] *)
Definition endsWith (p s : jstring) : bool := startsWith (rev p) (rev s).

(** [s.includes(p)] *)
Fixpoint includes (p s : jstring) : bool :=
  startsWith p s || match s with [] => false | _ :: s' => includes p s' end.

(** [s.split(sep)] for a one-character separator: never the empty array. *)
Fixpoint splitChar (sep : ascii) (s : jstring) : list jstring :=
  match s with
  | [] => [[]]
  | c :: s' =>
      if ascii_eqb c sep then [] :: splitChar sep s'
      else match splitChar sep s' with
           | l :: ls => (c :: l) :: ls
           | [] => [[c]]
           end
  end.

(** [a.join(sep)] *)
Fixpoint join (sep : jstring) (l : list jstring) : jstring :=
  match l with
  | [] => []
  | [x] => x
  | x :: rest => x ++ sep ++ join sep rest
  end.

(** [s.substring(0, n)] *)
Definition substring0 (n : nat) (s : jstring) : jstring := take n s.

(** Truthiness of a string: [Boolean(s)] and [if (s)]. *)
Definition truthy (s : jstring) : bool :=
  match s with [] => false | _ => true end.

Definition digitValue (c : ascii) : Z := Z.of_N (code c) - 48.

Fixpoint digitsValue (acc : Z) (s : jstring) : Z :=
  match s with
  | c :: s' => if isDigit c then digitsValue (10 * acc + digitValue c) s' else acc
  | [] => acc
  end.

(** [parseInt(s, 10)], and [parseInt(s)] on a string that does not start with
    [0x]: leading white space is skipped, a sign is read, then the longest
    run of decimal digits; [None] is [NaN]. *)
Definition parseInt (s : jstring) : option Z :=
  let s1 := trimStart s in
  let '(neg, s2) :=
    match s1 with
    | c :: r => if ascii_eqb c "-" then (true, r)
                else if ascii_eqb c "+" then (false, r) else (false, s1)
    | [] => (false, s1)
    end in
  match s2 with
  | c :: _ =>
      if isDigit c then
        let v := digitsValue 0 s2 in Some (if neg then (- v)%Z else v)
      else None
  | [] => None
  end.

End Js.

(** ** Regular expressions with the ECMAScript backtracking semantics *)
Module Regex.

Inductive re : Type :=
| Eps                                  (* the empty pattern *)
| Chr (p : ascii -> bool)              (* one character of a class *)
| Cat (r1 r2 : re)                     (* r1 r2 *)
| Alt (r1 r2 : re)                     (* r1|r2 *)
| Star (greedy : bool) (r : re)        (* r* and r*? *)
| Group (i : nat) (r : re)             (* the i-th capturing group *)
| Look (r : re)                        (* (?=r) *)
| Bol (multiline : bool)               (* ^ *)
| Eol (multiline : bool).              (* $ *)

(** A position in the subject: the consumed prefix (last character first),
    the rest, and the captures made so far. *)
Record pos : Type := mkPos {
  before : jstring;
  after : jstring;
  caps : list (nat * jstring)
}.

(** The second alternative is tried only when the first one fails. *)
Notation "x 'orElse' y" :=
  (match x with Some v => Some v | None => y end)
  (at level 70, no associativity, only parsing).

(** The text consumed between position [s] and the later position [s']. *)
Definition consumed (s s' : pos) : jstring :=
  rev (take (length (before s') - length (before s)) (before s')).

Definition setCap (i : nat) (v : jstring) (c : list (nat * jstring)) :=
  (i, v) :: c.

(** The value of capture [i]; [None] is [undefined]. *)
Fixpoint getCap (i : nat) (c : list (nat * jstring)) : option jstring :=
  match c with
  | (j, v) :: c' => if Nat.eqb i j then Some v else getCap i c'
  | [] => None
  end.

Definition atBol (ml : bool) (s : pos) : bool :=
  match before s with
  | [] => true
  | c :: _ => ml && Js.isLineTerminator c
  end.

Definition atEol (ml : bool) (s : pos) : bool :=
  match after s with
  | [] => true
  | c :: _ => ml && Js.isLineTerminator c
  end.

(** The turns of a star: [turn] matches the body once; [n] bounds the turns
    that are left (each turn consumes a character).  A greedy star tries
    one more turn before it leaves, a lazy one leaves first.  A turn that
    consumes nothing is rejected. *)
Fixpoint starLoop (turn : (pos -> option pos) -> pos -> option pos) (greedy : bool)
    (k : pos -> option pos) (n : nat) (s : pos) {struct n} : option pos :=
  match n with
  | O => k s
  | S n' =>
      let again (_ : unit) :=
        turn (fun s' =>
                if (length (after s') <? length (after s))%nat
                then starLoop turn greedy k n' s' else None) s in
      if greedy then again () orElse k s else k s orElse again ()
  end.

(** [m r k s]: match [r] at [s], then continue with [k]; alternatives are
    tried in the order of the ECMAScript matcher, the first success wins. *)
Fixpoint m (r : re) (k : pos -> option pos) (s : pos) {struct r} : option pos :=
  match r with
  | Eps => k s
  | Chr p =>
      match after s with
      | c :: rest => if p c then k (mkPos (c :: before s) rest (caps s)) else None
      | [] => None
      end
  | Cat r1 r2 => m r1 (m r2 k) s
  | Alt r1 r2 => m r1 k s orElse m r2 k s
  | Star greedy r' => starLoop (m r') greedy k (length (after s)) s
  | Group i r' =>
      m r' (fun s' => k (mkPos (before s') (after s')
                           (setCap i (consumed s s') (caps s')))) s
  | Look r' =>
      match m r' Some s with
      | Some s' => k (mkPos (before s) (after s) (caps s'))
      | None => None
      end
  | Bol ml => if atBol ml s then k s else None
  | Eol ml => if atEol ml s then k s else None
  end.

(** Derived forms. *)
Definition Plus (greedy : bool) (r : re) : re := Cat r (Star greedy r).
Definition Opt (r : re) : re := Alt r Eps.
Definition Ch (c : ascii) : re := Chr (Js.ascii_eqb c).
Fixpoint Str (s : jstring) : re :=
  match s with
  | [] => Eps
  | c :: s' => Cat (Ch c) (Str s')
  end.
Definition Seq (rs : list re) : re := fold_right Cat Eps rs.
Definition Digit : re := Chr Js.isDigit.                          (* \d *)
Definition Space : re := Chr Js.isWhitespace.                     (* \s *)
Definition AnyChar : re := Chr (fun _ => true).                   (* [\s\S] *)
Definition Dot : re := Chr (fun c => negb (Js.isLineTerminator c)). (* . *)
Definition NotCh (c : ascii) : re := Chr (fun x => negb (Js.ascii_eqb c x)).

(** One successful match: where it starts and where it ends. *)
Record found : Type := mkFound { m_start : pos; m_end : pos }.

Definition matched (f : found) : jstring := consumed (m_start f) (m_end f).
Definition group (i : nat) (f : found) : option jstring := getCap i (caps (m_end f)).

(** The match attempt at one position (a sticky match). *)
Definition matchAt (r : re) (bef aft : jstring) : option found :=
  let s := mkPos bef aft [] in
  match m r Some s with
  | Some e => Some (mkFound s e)
  | None => None
  end.

(** The leftmost match at or after a position. *)
Fixpoint searchFrom (r : re) (bef aft : jstring) {struct aft} : option found :=
  match matchAt r bef aft with
  | Some f => Some f
  | None =>
      match aft with
      | [] => None
      | c :: aft' => searchFrom r (c :: bef) aft'
      end
  end.

(** [s.match(r)] for a pattern without the g flag; [None] is [null]. *)
Definition exec (r : re) (s : jstring) : option found := searchFrom r [] s.

(** All successive matches of a pattern with the g flag; after an empty
    match the scan advances by one character. *)
Fixpoint allFrom (fuel : nat) (r : re) (bef aft : jstring) : list found :=
  match fuel with
  | O => []
  | S fuel' =>
      match searchFrom r bef aft with
      | None => []
      | Some f =>
          let e := m_end f in
          match matched f, after e with
          | [], [] => [f]
          | [], c :: a => f :: allFrom fuel' r (c :: before e) a
          | _ :: _, _ => f :: allFrom fuel' r (before e) (after e)
          end
      end
  end.

Definition execAll (r : re) (s : jstring) : list found :=
  allFrom (S (length s)) r [] s.

(** [s.match(r)] for a pattern with the g flag: the matched texts, [None]
    ([null]) when there is none. *)
Definition matchGlobal (r : re) (s : jstring) : option (list jstring) :=
  match execAll r s with
  | [] => None
  | fs => Some (map matched fs)
  end.

(** [s.replace(r, ...)] for a pattern with the g flag; [by f] is the text
    that replaces the match [f]. *)
Fixpoint replaceGo (by_ : found -> jstring) (fs : list found) (from : nat)
    (s : jstring) : jstring :=
  match fs with
  | [] => drop from s
  | f :: fs' =>
      let a := length (before (m_start f)) in
      let b := length (before (m_end f)) in
      take (a - from) (drop from s) ++ by_ f ++ replaceGo by_ fs' b s
  end.

Definition replaceAll (r : re) (by_ : found -> jstring) (s : jstring) : jstring :=
  replaceGo by_ (execAll r s) 0 s.

(** [s.split(r)] (without captures in [r]): [cur] is the text since the last
    cut [p], the separator is tried at each position [q] from there; a match
    that ends at [p] itself does not split. *)
Fixpoint splitGo (r : re) (cur : jstring) (bef aft : jstring) (fuel : nat)
    : list jstring :=
  match fuel with
  | O => [rev cur ++ aft]
  | S fuel' =>
      match aft with
      | [] => [rev cur]
      | c :: aft' =>
          match matchAt r bef aft with
          | Some f =>
              let e := m_end f in
              match matched f, cur with
              | [], [] => splitGo r [c] (c :: bef) aft' fuel'
              | _, _ => rev cur :: splitGo r [] (before e) (after e) fuel'
              end
          | None => splitGo r (c :: cur) (c :: bef) aft' fuel'
          end
      end
  end.

Definition split (r : re) (s : jstring) : list jstring :=
  match s with
  | [] => match matchAt r [] [] with Some _ => [] | None => [[]] end
  | _ => splitGo r [] [] s (S (2 * length s))
  end.

End Regex.

(** ** Exceptions and the external collaborators *)

(** What a [throw] carries: an [Error] with its message, or another value. *)
Inductive thrown : Type :=
| ErrorObj (message : jstring)
| OtherValue.

(** The outcome of code that may throw. *)
Inductive result (A : Type) : Type :=
| Ok (a : A)
| Throw (e : thrown).
Arguments Ok {A} a.
Arguments Throw {A} e.

Definition bind {A B} (x : result A) (k : A -> result B) : result B :=
  match x with
  | Ok a => k a
  | Throw e => Throw e
  end.

(** [try { body } catch (e) { handler e }] *)
Definition tryCatch {A} (body : result A) (handler : thrown -> result A) : result A :=
  match body with
  | Ok a => Ok a
  | Throw e => handler e
  end.

Notation "x <- e ;; k" := (bind e (fun x => k))
  (at level 100, e at next level, right associativity).

(** The world outside the core.  [execSync command cwd] is the VCS command
    gateway: the command's output, or the exception of a failed command (a
    non-zero exit, a spawn failure, a time-out).  The world is a function: it
    does not change while one operation of the core runs.  [path_join] and
    [path_isAbsolute] are Node's [path] module, [dateParse] is [new Date(s)]
    as a time stamp ([None] for an invalid date) and [dateNow] is
    [new Date()] and [Date.now()].  [fsWatchOk path] tells whether
    [fs.watch(path, ...)] returns a watcher (it throws otherwise), and
    [listeners id] is what the subscribers of the [needs-refresh] event do
    when it is emitted for [id]: return, or throw. *)
Record Env : Type := mkEnv {
  execSync : jstring -> jstring -> result jstring;
  readFileSync : jstring -> result jstring;
  existsSync : jstring -> bool;
  path_join : jstring -> jstring -> jstring;
  path_isAbsolute : jstring -> bool;
  dateParse : jstring -> option Z;
  dateNow : Z;
  fsWatchOk : jstring -> bool;
  listeners : jstring -> result unit
}.

(** [String(n)] for an integer. *)
Definition numberToString (n : Z) : jstring :=
  lit (DecimalString.NilZero.string_of_int (Z.to_int n)).

(** ** The diff capture and aggregation engine ([gitDiffManager.ts]) *)
Module GitDiffManager.
Import Js Regex.
Local Open Scope Z_scope.

Record GitDiffStats : Type := mkStats {
  additions : Z;
  deletions : Z;
  filesChanged : Z
}.

Record GitDiffResult : Type := mkResult {
  diff : jstring;
  stats : GitDiffStats;
  changedFiles : list jstring;
  beforeHash : option jstring;
  afterHash : option jstring
}.

(** [message] and [author] are [undefined] when the header line has fewer
    than four fields. *)
Record GitCommit : Type := mkCommit {
  hash : jstring;
  message : option jstring;
  date : Z;
  author : option jstring;
  commitStats : GitDiffStats
}.

Definition zeroStats : GitDiffStats := mkStats 0 0 0.

(** [lines[lines.length - 1]] of an array of strings that [split] returned. *)
Definition lastLine (lines : list jstring) : jstring := List.last lines [].

(** [/(\d+) files? changed/] *)
Definition reFilesChanged : re :=
  Cat (Group 1 (Plus true Digit))
    (Cat (Str (lit " file")) (Cat (Opt (Ch "s")) (Str (lit " changed")))).
(** [/(\d+) insertions?\(\+\)/] *)
Definition reInsertions : re :=
  Cat (Group 1 (Plus true Digit))
    (Cat (Str (lit " insertion")) (Cat (Opt (Ch "s")) (Str (lit "(+)")))).
(** [/(\d+) deletions?\(-\)/] *)
Definition reDeletions : re :=
  Cat (Group 1 (Plus true Digit))
    (Cat (Str (lit " deletion")) (Cat (Opt (Ch "s")) (Str (lit "(-)")))).

(** [match ? parseInt(match[1]) : 0]; the group is a run of digits, so
    [parseInt] does not return [NaN] here. *)
Definition countOf (mt : option found) : Z :=
  match mt with
  | Some f => default 0 (parseInt (default [] (group 1 f)))
  | None => 0
  end.

Definition summaryLine (statsOutput : jstring) : jstring :=
  lastLine (splitChar LF (trim statsOutput)).

Definition parseDiffStats (statsOutput : jstring) : GitDiffStats :=
  let summaryLine := summaryLine statsOutput in
  let fileMatch := exec reFilesChanged summaryLine in
  let addMatch := exec reInsertions summaryLine in
  let delMatch := exec reDeletions summaryLine in
  {| filesChanged := countOf fileMatch;
     additions := countOf addMatch;
     deletions := countOf delMatch |}.

(** [/\s+/] *)
Definition reSpaces : re := Plus true Space.

Definition numstatField (s : jstring) : option Z :=
  if bool_decide (s = lit "-") then Some 0 else parseInt s.

Definition parseNumstatOutput (lines : list jstring) : GitDiffStats :=
  fold_left
    (fun acc line =>
       let parts := split reSpaces (trim line) in
       match parts with
       | p0 :: p1 :: _ :: _ =>
           match numstatField p0, numstatField p1 with
           | Some added, Some deleted =>
               mkStats (additions acc + added) (deletions acc + deleted)
                 (filesChanged acc + 1)
           | _, _ => acc
           end
       | _ => acc
       end)
    lines zeroStats.

(** [new Set] filled by [add], read back by [Array.from]: the distinct
    elements in the order of their first insertion. *)
Definition setAdd (f : jstring) (seen : list jstring) : list jstring :=
  if bool_decide (f ∈ seen) then seen else seen ++ [f].

Definition combineDiffs (diffs : list GitDiffResult) : GitDiffResult :=
  let combinedDiff := join [LF; LF] (map diff diffs) in
  let additions := fold_left (fun sum d => sum + additions (stats d)) diffs 0 in
  let deletions := fold_left (fun sum d => sum + deletions (stats d)) diffs 0 in
  let allFiles :=
    fold_left (fun seen d => fold_left (fun seen f => setAdd f seen) (changedFiles d) seen)
      diffs [] in
  let changedFiles := allFiles in
  {| diff := combinedDiff;
     stats := mkStats additions deletions (Z.of_nat (length changedFiles));
     changedFiles := changedFiles;
     beforeHash := match diffs with d :: _ => beforeHash d | [] => None end;
     afterHash := match last diffs with Some d => afterHash d | None => None end |}.

Definition getCurrentCommitHash (env : Env) (worktreePath : jstring) : jstring :=
  match execSync env (lit "git rev-parse HEAD") worktreePath with
  | Ok out => trim out
  | Throw _ => []
  end.

Definition nonEmpty (f : jstring) : bool := (0 <? length f)%nat.

Definition getUntrackedFiles (env : Env) (worktreePath : jstring) : list jstring :=
  match execSync env (lit "git ls-files --others --exclude-standard") worktreePath with
  | Ok output =>
      if negb (truthy output) || (length (trim output) =? 0)%nat then []
      else filter (fun f => truthy f && nonEmpty (trim f)) (splitChar LF (trim output))
  | Throw _ => []
  end.

(** [/\r?\n/] *)
Definition reNewline : re := Cat (Opt (Ch CR)) (Ch LF).

(** [content.length === 0 ? 0 : content.split(/\r?\n/).length] *)
Definition lineCount (content : jstring) : Z :=
  if (length content =? 0)%nat then 0
  else Z.of_nat (length (split reNewline content)).

Definition getDiffStats (env : Env) (worktreePath : jstring) : GitDiffStats :=
  match execSync env (lit "git diff --stat HEAD") worktreePath with
  | Ok output =>
      let trackedStats := parseDiffStats output in
      let untrackedFiles := getUntrackedFiles env worktreePath in
      if (0 <? length untrackedFiles)%nat then
        let untrackedAdditions :=
          fold_left
            (fun acc file =>
               if negb (truthy file) || (length (trim file) =? 0)%nat then acc
               else
                 let cleanFile := trim file in
                 let filePath := path_join env worktreePath cleanFile in
                 match readFileSync env filePath with
                 | Ok content => acc + lineCount content
                 | Throw _ => acc
                 end)
            untrackedFiles 0 in
        {| additions := additions trackedStats + untrackedAdditions;
           deletions := deletions trackedStats;
           filesChanged := filesChanged trackedStats + Z.of_nat (length untrackedFiles) |}
      else trackedStats
  | Throw _ => zeroStats
  end.

(** The section that stands for one untracked file: a header, then every
    line of the content as an addition. *)
Definition untrackedSection (cleanFile fileContent : jstring) : jstring :=
  let header :=
    lit "diff --git a/" ++ cleanFile ++ lit " b/" ++ cleanFile ++ [LF] ++
    lit "new file mode 100644" ++ [LF] ++
    lit "index 0000000..0000000" ++ [LF] ++
    lit "--- /dev/null" ++ [LF] ++
    lit "+++ b/" ++ cleanFile ++ [LF] in
  let lines := split reNewline fileContent in
  if (0 <? length lines)%nat then
    header ++ lit "@@ -0,0 +1," ++ numberToString (Z.of_nat (length lines)) ++ lit " @@" ++ [LF]
      ++ concat (map (fun line => lit "+" ++ line ++ [LF]) lines)
  else header.

Definition createDiffForUntrackedFiles (env : Env) (worktreePath : jstring)
    (untrackedFiles : list jstring) : jstring :=
  fold_left
    (fun diffOutput file =>
       if negb (truthy file) || (length (trim file) =? 0)%nat then diffOutput
       else
         let cleanFile := trim file in
         let filePath := path_join env worktreePath cleanFile in
         match readFileSync env filePath with
         | Ok fileContent => diffOutput ++ untrackedSection cleanFile fileContent
         | Throw _ => diffOutput
         end)
    untrackedFiles [].

Definition getGitDiffString (env : Env) (worktreePath : jstring) : jstring :=
  match execSync env (lit "git rev-parse --git-dir") worktreePath with
  | Throw _ => []
  | Ok _ =>
      match execSync env (lit "git status --porcelain") worktreePath with
      | Throw _ => []
      | Ok _status =>
          match execSync env (lit "git diff HEAD") worktreePath with
          | Throw _ => []
          | Ok diff =>
              let untrackedFiles := getUntrackedFiles env worktreePath in
              if (0 <? length untrackedFiles)%nat then
                let untrackedDiff :=
                  createDiffForUntrackedFiles env worktreePath untrackedFiles in
                if truthy untrackedDiff then
                  if truthy diff then diff ++ [LF] ++ untrackedDiff else untrackedDiff
                else diff
              else diff
          end
      end
  end.

Definition getChangedFiles (env : Env) (worktreePath : jstring) : list jstring :=
  match execSync env (lit "git diff --name-only HEAD") worktreePath with
  | Ok trackedOutput =>
      let trackedFiles := filter nonEmpty (splitChar LF (trim trackedOutput)) in
      let untrackedFiles := getUntrackedFiles env worktreePath in
      trackedFiles ++ untrackedFiles
  | Throw _ => []
  end.

(** The promise of [captureWorkingDirectoryDiff], as the result it settles
    to; the [catch] logs and rethrows. *)
Definition captureWorkingDirectoryDiff (env : Env) (worktreePath : jstring)
    : result GitDiffResult :=
  tryCatch
    (let beforeHash := getCurrentCommitHash env worktreePath in
     let diff := getGitDiffString env worktreePath in
     let changedFiles := getChangedFiles env worktreePath in
     let stats := getDiffStats env worktreePath in
     Ok {| diff := diff;
           stats := stats;
           changedFiles := changedFiles;
           beforeHash := Some beforeHash;
           afterHash := None |})
    (fun error => Throw error).


Definition getCommitChangedFiles (env : Env) (worktreePath commitHash : jstring)
    : list jstring :=
  match execSync env (lit "git show --name-only --format= " ++ commitHash) worktreePath with
  | Ok output => filter truthy (splitChar LF (trim output))
  | Throw _ => []
  end.



(** [git log --format="%H|%s|%ai|%an" --numstat -n <limit> HEAD --not <mainBranch> --] *)
Definition logCommand (limit : Z) (mainBranch : jstring) : jstring :=
  lit "git log --format=" ++ [DQUOTE] ++ lit "%H|%s|%ai|%an" ++ [DQUOTE] ++
  lit " --numstat -n " ++ numberToString limit ++ lit " HEAD --not " ++ mainBranch ++ lit " --".

(** [git log --format="%H%x00%B%x00" -n <limit> HEAD --not <mainBranch> --] *)
Definition fullCommand (limit : Z) (mainBranch : jstring) : jstring :=
  lit "git log --format=" ++ [DQUOTE] ++ lit "%H%x00%B%x00" ++ [DQUOTE] ++
  lit " -n " ++ numberToString limit ++ lit " HEAD --not " ++ mainBranch ++ lit " --".

Definition setStats (st : GitDiffStats) (c : GitCommit) : GitCommit :=
  mkCommit (hash c) (message c) (date c) (author c) st.

Definition setMessage (msg : jstring) (c : GitCommit) : GitCommit :=
  mkCommit (hash c) (Some msg) (date c) (author c) (commitStats c).

(** [currentCommit.stats = parseNumstatOutput(statsLines)] when there are
    stat lines; [currentCommit] is the commit pushed last, the head of the
    reversed array. *)
Definition flushStats (commitsRev : list GitCommit) (statsLines : list jstring)
    : list GitCommit :=
  match commitsRev with
  | currentCommit :: rest =>
      if (0 <? length statsLines)%nat
      then setStats (parseNumstatOutput statsLines) currentCommit :: rest
      else commitsRev
  | [] => commitsRev
  end.

(** One turn of the loop over the lines of the log: the state is the array
    of commits (reversed) and the stat lines collected for the last one. *)
Definition logLine (env : Env) (st : list GitCommit * list jstring) (line : jstring)
    : list GitCommit * list jstring :=
  let '(commitsRev, statsLines) := st in
  if includes (lit "|") line then
    let commitsRev := flushStats commitsRev statsLines in
    let fields := splitChar "|" line in
    let hash := default [] (fields !! 0%nat) in
    let message := fields !! 1%nat in
    let date := fields !! 2%nat in
    let author := fields !! 3%nat in
    let parsedDate :=
      match date ≫= dateParse env with
      | Some t => t
      | None => dateNow env
      end in
    (mkCommit hash message parsedDate author zeroStats :: commitsRev, [])
  else if truthy (trim line) && bool_decide (commitsRev ≠ []) then
    (commitsRev, statsLines ++ [line])
  else st.

(** The map from hash to full message read off the NUL-delimited stream. *)
Fixpoint fullMessages (parts : list jstring) (fullMap : gmap jstring jstring)
    : gmap jstring jstring :=
  match parts with
  | h :: msg :: rest => fullMessages rest (<[h := trim msg]> fullMap)
  | _ => fullMap
  end.

Definition spliceMessages (env : Env) (worktreePath : jstring) (limit : Z)
    (mainBranch : jstring) (commits : list GitCommit) : list GitCommit :=
  match execSync env (fullCommand limit mainBranch) worktreePath with
  | Ok fullOutput =>
      let parts := filter truthy (splitChar NUL fullOutput) in
      let fullMap := fullMessages parts ∅ in
      map (fun c =>
             match fullMap !! hash c with
             | Some full => if truthy full && nonEmpty full then setMessage full c else c
             | None => c
             end) commits
  | Throw _ => commits
  end.

Definition errorMessageOf (error : thrown) : jstring :=
  match error with
  | ErrorObj msg => msg
  | OtherValue => lit "Unknown error"
  end.

Definition getCommitHistory (env : Env) (worktreePath : jstring) (limit : Z)
    (mainBranch : jstring) : result (list GitCommit) :=
  tryCatch
    (logOutput <- execSync env (logCommand limit mainBranch) worktreePath ;;
     let lines := splitChar LF (trim logOutput) in
     let '(commitsRev, statsLines) := fold_left (logLine env) lines ([], []) in
     let commitsRev := spliceMessages env worktreePath limit mainBranch commitsRev in
     let commitsRev := flushStats commitsRev statsLines in
     Ok (rev commitsRev))
    (fun error =>
       let errorMessage := errorMessageOf error in
       if includes (lit "fatal:") errorMessage || includes (lit "error:") errorMessage
       then Throw (ErrorObj (lit "Git error: " ++ errorMessage))
       else Ok []).

Definition getGitCommitDiff (env : Env) (worktreePath fromCommit toCommit : jstring)
    : jstring :=
  match execSync env (lit "git diff " ++ fromCommit ++ lit ".." ++ toCommit) worktreePath with
  | Ok out => out
  | Throw _ => []
  end.

Definition getChangedFilesBetweenCommits (env : Env)
    (worktreePath fromCommit toCommit : jstring) : list jstring :=
  match execSync env (lit "git diff --name-only " ++ fromCommit ++ lit ".." ++ toCommit)
          worktreePath with
  | Ok output => filter nonEmpty (splitChar LF (trim output))
  | Throw _ => []
  end.

Definition getCommitDiffStats (env : Env) (worktreePath fromCommit toCommit : jstring)
    : GitDiffStats :=
  match execSync env (lit "git diff --stat " ++ fromCommit ++ lit ".." ++ toCommit)
          worktreePath with
  | Ok output => parseDiffStats output
  | Throw _ => zeroStats
  end.

(** [toCommit || 'HEAD']; [None] is the argument left out. *)
Definition toOrHead (toCommit : option jstring) : jstring :=
  match toCommit with
  | Some t => if truthy t then t else lit "HEAD"
  | None => lit "HEAD"
  end.

(** The promise of [captureCommitDiff], as the result it settles to. *)
Definition captureCommitDiff (env : Env) (worktreePath fromCommit : jstring)
    (toCommit : option jstring) : result GitDiffResult :=
  tryCatch
    (let to := toOrHead toCommit in
     let diff := getGitCommitDiff env worktreePath fromCommit to in
     let changedFiles := getChangedFilesBetweenCommits env worktreePath fromCommit to in
     let stats := getCommitDiffStats env worktreePath fromCommit to in
     Ok {| diff := diff;
           stats := stats;
           changedFiles := changedFiles;
           beforeHash := Some fromCommit;
           afterHash := Some (if bool_decide (to = lit "HEAD")
                              then getCurrentCommitHash env worktreePath else to) |})
    (fun error => Throw error).

Definition getGitDiff (env : Env) (worktreePath : jstring) : result GitDiffResult :=
  captureWorkingDirectoryDiff env worktreePath.

(** The three commands of [getCombinedDiff]. *)
Definition cmdBranchDiff (mainBranch : jstring) : jstring :=
  lit "git diff origin/" ++ mainBranch ++ lit "...HEAD".
Definition cmdBranchNames (mainBranch : jstring) : jstring :=
  lit "git diff --name-only origin/" ++ mainBranch ++ lit "...HEAD".
Definition cmdBranchStat (mainBranch : jstring) : jstring :=
  lit "git diff --stat origin/" ++ mainBranch ++ lit "...HEAD".

Definition getCombinedDiff (env : Env) (worktreePath mainBranch : jstring)
    : result GitDiffResult :=
  tryCatch
    (diff <- execSync env (cmdBranchDiff mainBranch) worktreePath ;;
     namesOutput <- execSync env (cmdBranchNames mainBranch) worktreePath ;;
     let changedFiles := filter nonEmpty (splitChar LF (trim namesOutput)) in
     statsOutput <- execSync env (cmdBranchStat mainBranch) worktreePath ;;
     let stats := parseDiffStats statsOutput in
     Ok {| diff := diff;
           stats := stats;
           changedFiles := changedFiles;
           beforeHash := Some (lit "origin/" ++ mainBranch);
           afterHash := Some (lit "HEAD") |})
    (fun error => captureWorkingDirectoryDiff env worktreePath).

Definition hasChanges (env : Env) (worktreePath : jstring) : bool :=
  match execSync env (lit "git status --porcelain") worktreePath with
  | Ok output => (0 <? length (trim output))%nat
  | Throw _ => false
  end.

End GitDiffManager.

(** ** Diagnostics written to the console by the parsers

    Only [console.warn] and [console.error] are kept: the message and the
    text that follows it. *)
Inductive level : Type := Warn | Error.

Record diagnostic : Type := mkDiag {
  d_level : level;
  d_message : jstring;
  d_text : jstring
}.

Inductive changeType : Type := added | deleted | modified | renamed.

(** The kind of change, read off the markers of a file section (shared, word
    for word, by both parsers). *)
Definition classify (fileContent : jstring) : changeType :=
  if Js.includes (lit "new file mode") fileContent then added
  else if Js.includes (lit "deleted file mode") fileContent then deleted
  else if Js.includes (lit "rename from") fileContent
          && Js.includes (lit "rename to") fileContent then renamed
  else modified.

(** [/diff --git[\s\S]*?(?=diff --git|$)/g]: the file sections. *)
Definition reFileSection : Regex.re :=
  Regex.Seq [Regex.Str (lit "diff --git"); Regex.Star false Regex.AnyChar;
             Regex.Look (Regex.Alt (Regex.Str (lit "diff --git")) (Regex.Eol false))].

(** The loop [for (const fileContent of fileMatches)] of both parsers: each
    turn either pushes one record onto [files] or skips the section with
    [continue], and may write to the console. *)
Definition collect {A} (body : jstring -> option A * list diagnostic)
    (fileMatches : list jstring) : list A * list diagnostic :=
  fold_left
    (fun st fileContent =>
       let '(pushed, diags) := body fileContent in
       (st.1 ++ option_list pushed, st.2 ++ diags))
    fileMatches ([], []).

(** ** The unified-diff parser of the diff viewer ([parseUnifiedDiff]) *)
Module DiffViewer.
Import Js Regex.
Local Open Scope Z_scope.

Record FileDiff : Type := mkFileDiff {
  path : jstring;
  oldPath : jstring;
  oldValue : jstring;
  newValue : jstring;
  type : changeType;
  isBinary : bool;
  additions : Z;
  deletions : Z;
  tooLarge : bool;
  approxSize : Z
}.

(** [/diff --git a\/(.*?) b\/(.*?)(?:\n|$)/] *)
Definition reFileNames1 : re :=
  Seq [Str (lit "diff --git a/"); Group 1 (Star false Dot); Str (lit " b/");
       Group 2 (Star false Dot); Alt (Ch LF) (Eol false)].

(** [/diff --git a\/(.*?) b\/(.* )/], written here with a blank before the
    last parenthesis: the second group is the greedy [.*]. *)
Definition reFileNames2 : re :=
  Seq [Str (lit "diff --git a/"); Group 1 (Star false Dot); Str (lit " b/");
       Group 2 (Star true Dot)].

Definition fileNameMatch (fileContent : jstring) : option found :=
  match exec reFileNames1 fileContent with
  | Some f => Some f
  | None => exec reFileNames2 fileContent
  end.

(** [lines.findIndex(line => line.startsWith('@@'))]; [None] is [-1]. *)
Fixpoint findHunk (lines : list jstring) : option nat :=
  match lines with
  | [] => None
  | line :: rest =>
      if startsWith (lit "@@") line then Some 0%nat
      else option_map S (findHunk rest)
  end.

(** The counting loop of an oversized section: the state is
    [(additions, deletions)]. *)
Definition countLine (st : Z * Z) (line : jstring) : Z * Z :=
  let '(additions, deletions) := st in
  if startsWith (lit "@@") line then st
  else if startsWith (lit "-") line then (additions, deletions + 1)
  else if startsWith (lit "+") line then (additions + 1, deletions)
  else st.

Record scan : Type := mkScan {
  oldLines : list jstring;
  newLines : list jstring;
  s_additions : Z;
  s_deletions : Z
}.

(** The content loop: [line.substring(1)] is [drop 1 line]. *)
Definition scanLine (st : scan) (line : jstring) : scan :=
  if startsWith (lit "@@") line then st
  else if startsWith (lit "-") line then
    mkScan (oldLines st ++ [drop 1 line]) (newLines st) (s_additions st) (s_deletions st + 1)
  else if startsWith (lit "+") line then
    mkScan (oldLines st) (newLines st ++ [drop 1 line]) (s_additions st + 1) (s_deletions st)
  else if startsWith (lit " ") line then
    mkScan (oldLines st ++ [drop 1 line]) (newLines st ++ [drop 1 line])
      (s_additions st) (s_deletions st)
  else if startsWith [BACKSLASH] line then st
  else if bool_decide (line = []) then
    mkScan (oldLines st ++ [[]]) (newLines st ++ [[]]) (s_additions st) (s_deletions st)
  else st.

Definition emptyPathDiag (fileContent : jstring) : diagnostic :=
  mkDiag Error (lit "parseUnifiedDiff: File path is empty for diff:")
    (substring0 100 fileContent).

(** The body of the loop over the file sections: the record pushed for the
    section ([None] when the section is skipped by [continue]) and what is
    written to the console. *)
Definition parseSection (maxBytes : Z) (fileContent : jstring)
    : option FileDiff * list diagnostic :=
  match fileNameMatch fileContent with
  | None =>
      (None, [mkDiag Warn (lit "Could not parse file names from diff:")
                (substring0 100 fileContent)])
  | Some fnm =>
      let oldFileName := default [] (group 1 fnm) in
      let newFileName := default [] (group 2 fnm) in
      let isBinary := includes (lit "Binary files") fileContent
                      || includes (lit "GIT binary patch") fileContent in
      let approxSize := Z.of_nat (length fileContent) in
      let tooLarge := maxBytes <? approxSize in
      let type := classify fileContent in
      if isBinary then
        (Some (mkFileDiff newFileName oldFileName [] [] type true 0 0 false approxSize), [])
      else
        let lines := splitChar LF fileContent in
        match findHunk lines with
        | None =>
            (Some (mkFileDiff newFileName oldFileName [] [] type false 0 0 false approxSize), [])
        | Some diffStartIndex =>
            let diags := if truthy newFileName then [] else [emptyPathDiag fileContent] in
            if tooLarge then
              let '(additions, deletions) :=
                fold_left countLine (drop diffStartIndex lines) (0, 0) in
              (Some (mkFileDiff newFileName oldFileName [] [] type false
                       additions deletions true approxSize), diags)
            else
              let st := fold_left scanLine (drop diffStartIndex lines) (mkScan [] [] 0 0) in
              (Some (mkFileDiff newFileName oldFileName
                       (match type with added => [] | _ => join [LF] (oldLines st) end)
                       (match type with deleted => [] | _ => join [LF] (newLines st) end)
                       type false (s_additions st) (s_deletions st) false approxSize), diags)
        end
  end.

(** The file sections of a diff; [None] is the [null] of [match]. *)
Definition fileSections (diff : jstring) : option (list jstring) :=
  matchGlobal reFileSection diff.

Definition parseUnifiedDiffLog (diff : jstring) (maxBytes : Z)
    : list FileDiff * list diagnostic :=
  if negb (truthy diff) || (length (trim diff) =? 0)%nat then ([], [])
  else
    match fileSections diff with
    | None => ([], [mkDiag Warn (lit "parseUnifiedDiff: No file matches found in diff") []])
    | Some fileMatches => collect (parseSection maxBytes) fileMatches
    end.

(** [parseUnifiedDiff(diff, maxBytes)]: the array it returns. *)
Definition parseUnifiedDiff (diff : jstring) (maxBytes : Z) : list FileDiff :=
  fst (parseUnifiedDiffLog diff maxBytes).

End DiffViewer.

(** ** The shared diff parsing utility ([parseFilesFromDiff]) *)
Module DiffParser.
Import Js Regex.
Local Open Scope Z_scope.

Record ParsedFile : Type := mkParsedFile {
  path : jstring;
  oldPath : jstring;
  type : changeType;
  additions : Z;
  deletions : Z;
  isBinary : bool
}.

Definition isQuote (c : ascii) : bool := ascii_eqb c DQUOTE || ascii_eqb c SQUOTE.

(** [/^["']|["']$/g] *)
Definition reOuterQuote : re :=
  Alt (Cat (Bol false) (Chr isQuote)) (Cat (Chr isQuote) (Eol false)).
(** [/\\(.)/g] *)
Definition reEscaped : re := Cat (Ch BACKSLASH) (Group 1 Dot).
(** [/\\/g] *)
Definition reBackslash : re := Ch BACKSLASH.

Definition normalizeFilePath (filePath : jstring) : jstring :=
  if negb (truthy filePath) then []
  else
    let normalized := replaceAll reOuterQuote (fun _ => []) filePath in
    let normalized := replaceAll reEscaped (fun f => default [] (group 1 f)) normalized in
    let normalized := replaceAll reBackslash (fun _ => lit "/") normalized in
    normalized.

Definition Q : re := Ch DQUOTE.

Definition patterns : list re :=
  [ (* /^diff --git a\/(.+?) b\/(.+?)$/m *)
    Seq [Bol true; Str (lit "diff --git a/"); Group 1 (Plus false Dot); Str (lit " b/");
         Group 2 (Plus false Dot); Eol true];
    (* /^diff --git "a\/(.+?)" "b\/(.+?)"$/m *)
    Seq [Bol true; Str (lit "diff --git "); Q; Str (lit "a/"); Group 1 (Plus false Dot); Q;
         Str (lit " "); Q; Str (lit "b/"); Group 2 (Plus false Dot); Q; Eol true];
    (* /^diff --git "?a\/(.+?)"? "?b\/(.+?)"?$/m *)
    Seq [Bol true; Str (lit "diff --git "); Opt Q; Str (lit "a/"); Group 1 (Plus false Dot);
         Opt Q; Str (lit " "); Opt Q; Str (lit "b/"); Group 2 (Plus false Dot); Opt Q;
         Eol true];
    (* /^diff --git (.+?) (.+?)$/m *)
    Seq [Bol true; Str (lit "diff --git "); Group 1 (Plus false Dot); Str (lit " ");
         Group 2 (Plus false Dot); Eol true] ].

(** [/^diff --git\s+(?:"?a\/)?(.+?)(?:"?)\s+(?:"?b\/)?(.+?)(?:"?)$/m] *)
Definition reFallback : re :=
  Seq [Bol true; Str (lit "diff --git"); Plus true Space;
       Opt (Seq [Opt Q; Str (lit "a/")]); Group 1 (Plus false Dot); Opt Q;
       Plus true Space;
       Opt (Seq [Opt Q; Str (lit "b/")]); Group 2 (Plus false Dot); Opt Q; Eol true].

Definition pathsOf (f : found) : jstring * jstring :=
  (normalizeFilePath (default [] (group 1 f)), normalizeFilePath (default [] (group 2 f))).

(** The first pattern that matches decides. *)
Fixpoint firstMatch (ps : list re) (diffContent : jstring) : option found :=
  match ps with
  | [] => None
  | p :: ps' =>
      match exec p diffContent with
      | Some f => Some f
      | None => firstMatch ps' diffContent
      end
  end.

(** [parseFileNameFromDiff]: [(oldPath, newPath)], [None] for [null]. *)
Definition parseFileNameFromDiff (diffContent : jstring) : option (jstring * jstring) :=
  match firstMatch patterns diffContent with
  | Some f => Some (pathsOf f)
  | None =>
      match exec reFallback diffContent with
      | Some f => Some (pathsOf f)
      | None => None
      end
  end.

(** [/^\+[^+]/gm] and [/^-[^-]/gm] *)
Definition reAddition : re := Seq [Bol true; Ch "+"; NotCh "+"].
Definition reDeletion : re := Seq [Bol true; Ch "-"; NotCh "-"].

(** [m ? m.length : 0] for [m = s.match(r)] *)
Definition countMatches (r : re) (s : jstring) : Z :=
  match matchGlobal r s with
  | Some ms => Z.of_nat (length ms)
  | None => 0
  end.

Definition parseBlock (fileContent : jstring) : option ParsedFile * list diagnostic :=
  match parseFileNameFromDiff fileContent with
  | None =>
      (None, [mkDiag Warn (lit "Could not parse file names from diff block:")
                (substring0 100 fileContent)])
  | Some (oldPath, newPath) =>
      let isBinary := includes (lit "Binary files") fileContent
                      || includes (lit "GIT binary patch") fileContent
                      || includes (lit "differ" ++ [LF]) fileContent in
      let type := classify fileContent in
      let additions := if negb isBinary then countMatches reAddition fileContent else 0 in
      let deletions := if negb isBinary then countMatches reDeletion fileContent else 0 in
      let finalPath := if truthy newPath then newPath else oldPath in
      if negb (truthy finalPath) then
        (None, [mkDiag Error
                  (lit "parseFilesFromDiff: Both old and new paths are empty for diff:")
                  (substring0 100 fileContent)])
      else
        (Some (mkParsedFile finalPath oldPath type additions deletions isBinary), [])
  end.

Definition fileSections (diffContent : jstring) : option (list jstring) :=
  matchGlobal reFileSection diffContent.

Definition parseFilesFromDiffLog (diffContent : jstring)
    : list ParsedFile * list diagnostic :=
  if negb (truthy diffContent) || (length (trim diffContent) =? 0)%nat then ([], [])
  else
    match fileSections diffContent with
    | None => ([], [mkDiag Warn (lit "parseFilesFromDiff: No file matches found in diff") []])
    | Some fileMatches => collect parseBlock fileMatches
    end.

Definition parseFilesFromDiff (diffContent : jstring) : list ParsedFile :=
  fst (parseFilesFromDiffLog diffContent).

(** [validateParsedFiles]: the records whose path is neither empty nor
    blank. *)
Definition validateParsedFiles (files : list ParsedFile) : list ParsedFile :=
  filter (fun file => negb (negb (truthy (path file))
                            || (length (trim (path file)) =? 0)%nat)) files.

End DiffParser.

(** ** The file list of the combined diff view ([CombinedDiffView.tsx]) *)
Module CombinedDiffView.
Import Js Regex.
Local Open Scope Z_scope.

Record FileRow : Type := mkFileRow {
  path : jstring;
  type : changeType;
  additions : Z;
  deletions : Z;
  isBinary : bool
}.

Definition rowOf (f : DiffParser.ParsedFile) : FileRow :=
  mkFileRow (DiffParser.path f) (DiffParser.type f) (DiffParser.additions f)
    (DiffParser.deletions f) (DiffParser.isBinary f).

(** The simple parser kept in the [catch] of the memo. *)
Definition simpleRow (fileContent : jstring) : option FileRow :=
  match exec DiffViewer.reFileNames1 fileContent with
  | None => None
  | Some fileNameMatch =>
      let oldFileName := default [] (group 1 fileNameMatch) in
      let newFileName := default [] (group 2 fileNameMatch) in
      let isBinary := includes (lit "Binary files") fileContent
                      || includes (lit "GIT binary patch") fileContent in
      let type := classify fileContent in
      let additions := DiffParser.countMatches DiffParser.reAddition fileContent in
      let deletions := DiffParser.countMatches DiffParser.reDeletion fileContent in
      Some (mkFileRow (if truthy newFileName then newFileName else oldFileName)
              type additions deletions isBinary)
  end.

Definition simpleRows (diff : jstring) : list FileRow :=
  match matchGlobal reFileSection diff with
  | Some fileMatches => omap simpleRow fileMatches
  | None => []
  end.

(** The row shown for a changed file when the diff gives no row. *)
Definition changedFileRow (p : jstring) : FileRow := mkFileRow p modified 0 0 false.

(** The memo [filesFromDiff]; [parse] is the call
    [validateParsedFiles(parseFilesFromDiff(diff))] with its outcome, and
    [None] is the [null] of the state [combinedDiff]. *)
Definition filesFromDiffWith (parse : jstring -> result (list DiffParser.ParsedFile))
    (combinedDiff : option GitDiffManager.GitDiffResult) : list FileRow :=
  match combinedDiff with
  | None => []
  | Some combinedDiff =>
      let diff := GitDiffManager.diff combinedDiff in
      let files :=
        if truthy diff && (0 <? length (trim diff))%nat then
          match parse diff with
          | Ok parsed => map rowOf parsed
          | Throw _ => simpleRows diff
          end
        else [] in
      if (length files =? 0)%nat
         && (0 <? length (GitDiffManager.changedFiles combinedDiff))%nat
      then map changedFileRow (GitDiffManager.changedFiles combinedDiff)
      else files
  end.

Definition filesFromDiff (combinedDiff : option GitDiffManager.GitDiffResult)
    : list FileRow :=
  filesFromDiffWith
    (fun diff => Ok (DiffParser.validateParsedFiles (DiffParser.parseFilesFromDiff diff)))
    combinedDiff.

End CombinedDiffView.

(** ** The working-tree change watcher ([gitFileWatcher.ts]) *)
Module GitFileWatcher.
Import Js.
Local Open Scope Z_scope.

Record WatchedSession : Type := mkSession {
  sessionId : jstring;
  worktreePath : jstring;
  watcher : option nat;            (* the FSWatcher handle *)
  lastModified : Z;
  pendingRefresh : bool
}.

(** The three maps of the class, and the runtime objects it acts on: the
    watchers that [fs.watch] returned and that are not closed (each with the
    session id its callback was built with), the timers armed by
    [setTimeout] and neither fired nor cleared (each with the session id of
    its callback and its delay), and the [needs-refresh] events emitted so
    far. *)
Record State : Type := mkState {
  watchedSessions : gmap jstring WatchedSession;
  refreshDebounceTimers : gmap jstring nat;
  errorCounts : gmap jstring Z;
  openWatchers : gmap nat jstring;
  nextWatcher : nat;
  timeouts : gmap nat (jstring * Z);
  nextTimeout : nat;
  emitted : list jstring
}.

(** [new GitFileWatcher()] *)
Definition init : State := mkState ∅ ∅ ∅ ∅ 0 ∅ 0 [].

Definition DEBOUNCE_MS : Z := 1500.
Definition BASE_BACKOFF_MS : Z := 1000.
Definition MAX_BACKOFF_MS : Z := 30000.
Definition IGNORE_PATTERNS : list jstring :=
  [lit ".git/"; lit "node_modules/"; lit ".DS_Store"; lit "thumbs.db";
   lit "*.swp"; lit "*.swo"; lit "*~"; lit ".#*"; lit "#*#"].

Definition setSessions (m : gmap jstring WatchedSession) (st : State) : State :=
  mkState m (refreshDebounceTimers st) (errorCounts st) (openWatchers st)
    (nextWatcher st) (timeouts st) (nextTimeout st) (emitted st).
Definition setTimers (m : gmap jstring nat) (st : State) : State :=
  mkState (watchedSessions st) m (errorCounts st) (openWatchers st)
    (nextWatcher st) (timeouts st) (nextTimeout st) (emitted st).
Definition setErrorCounts (m : gmap jstring Z) (st : State) : State :=
  mkState (watchedSessions st) (refreshDebounceTimers st) m (openWatchers st)
    (nextWatcher st) (timeouts st) (nextTimeout st) (emitted st).

(** [watcher.close()] *)
Definition closeWatcher (h : nat) (st : State) : State :=
  mkState (watchedSessions st) (refreshDebounceTimers st) (errorCounts st)
    (delete h (openWatchers st)) (nextWatcher st) (timeouts st) (nextTimeout st)
    (emitted st).

(** [fs.watch(path, ..., callback)] that succeeds: a fresh handle. *)
Definition openWatcher (sessionId : jstring) (st : State) : nat * State :=
  let h := nextWatcher st in
  (h, mkState (watchedSessions st) (refreshDebounceTimers st) (errorCounts st)
        (<[h := sessionId]> (openWatchers st)) (S h) (timeouts st) (nextTimeout st)
        (emitted st)).

(** [clearTimeout(timer)] *)
Definition clearTimeout (t : nat) (st : State) : State :=
  mkState (watchedSessions st) (refreshDebounceTimers st) (errorCounts st)
    (openWatchers st) (nextWatcher st) (delete t (timeouts st)) (nextTimeout st)
    (emitted st).

(** [setTimeout(callback, delayMs)]: a fresh timer. *)
Definition setTimeout (sessionId : jstring) (delayMs : Z) (st : State) : nat * State :=
  let t := nextTimeout st in
  (t, mkState (watchedSessions st) (refreshDebounceTimers st) (errorCounts st)
        (openWatchers st) (nextWatcher st) (<[t := (sessionId, delayMs)]> (timeouts st))
        (S t) (emitted st)).

(** [this.emit('needs-refresh', sessionId)]: the event goes out, then the
    listeners run. *)
Definition emit (env : Env) (sessionId : jstring) (st : State) : result unit * State :=
  (listeners env sessionId,
   mkState (watchedSessions st) (refreshDebounceTimers st) (errorCounts st)
     (openWatchers st) (nextWatcher st) (timeouts st) (nextTimeout st)
     (emitted st ++ [sessionId])).

Definition stopWatching (sessionId : jstring) (st : State) : State :=
  match watchedSessions st !! sessionId with
  | Some session =>
      let st := match watcher session with
                | Some h => closeWatcher h st
                | None => st
                end in
      let st := setSessions (delete sessionId (watchedSessions st)) st in
      match refreshDebounceTimers st !! sessionId with
      | Some timer =>
          let st := clearTimeout timer st in
          setTimers (delete sessionId (refreshDebounceTimers st)) st
      | None => st
      end
  | None => st
  end.

Definition startWatching (env : Env) (sessionId worktreePath : jstring) (st : State)
    : State :=
  let st := stopWatching sessionId st in
  if fsWatchOk env worktreePath then
    let '(watcher, st) := openWatcher sessionId st in
    setSessions
      (<[sessionId := mkSession sessionId worktreePath (Some watcher) (dateNow env) false]>
         (watchedSessions st)) st
  else st.

(** The loop visits every key of the map; the order does not matter, each
    turn touches the entries of its own session id only. *)
Definition stopAll (st : State) : State :=
  map_fold (fun sessionId _ st => stopWatching sessionId st) st (watchedSessions st).

(** [filename.split('/').pop() || ''] *)
Definition basename (filename : jstring) : jstring :=
  List.last (splitChar "/" filename) [].

Definition ignoredBy (filename pattern : jstring) : bool :=
  if endsWith (lit "/") pattern then
    startsWith pattern filename || includes (lit "/" ++ pattern) filename
  else if startsWith (lit "*.") pattern then
    let ext := drop 1 pattern in
    endsWith ext filename
  else if startsWith (lit ".#") pattern || startsWith (lit "#") pattern then
    let basename := basename filename in
    startsWith (lit ".#") basename
    || (startsWith (lit "#") basename && endsWith (lit "#") basename)
  else if endsWith (lit "~") pattern then
    endsWith (lit "~") filename
  else
    bool_decide (filename = pattern) || endsWith (lit "/" ++ pattern) filename.

Definition shouldIgnoreFile (filename : jstring) : bool :=
  existsb (ignoredBy filename) IGNORE_PATTERNS.

Definition scheduleRefreshCheckWithDelay (sessionId : jstring) (delayMs : Z)
    (st : State) : State :=
  let st := match refreshDebounceTimers st !! sessionId with
            | Some existingTimer => clearTimeout existingTimer st
            | None => st
            end in
  let '(timer, st) := setTimeout sessionId delayMs st in
  setTimers (<[sessionId := timer]> (refreshDebounceTimers st)) st.

Definition scheduleRefreshCheck (sessionId : jstring) (st : State) : State :=
  scheduleRefreshCheckWithDelay sessionId DEBOUNCE_MS st.

Definition setPending (b : bool) (session : WatchedSession) : WatchedSession :=
  mkSession (sessionId session) (worktreePath session) (watcher session)
    (lastModified session) b.

Definition handleFileChange (env : Env) (sessionId filename : jstring) (st : State)
    : State :=
  if shouldIgnoreFile filename then st
  else
    match watchedSessions st !! sessionId with
    | None => st
    | Some session =>
        let session := mkSession (GitFileWatcher.sessionId session) (worktreePath session)
                         (watcher session) (dateNow env) true in
        let st := setSessions (<[sessionId := session]> (watchedSessions st)) st in
        scheduleRefreshCheck sessionId st
    end.

(** [Math.min(BASE_BACKOFF_MS * Math.pow(2, count - 1), MAX_BACKOFF_MS)];
    [count] is at least 1. *)
Definition backoffDelay (count : Z) : Z :=
  Z.min (BASE_BACKOFF_MS * 2 ^ (count - 1)) MAX_BACKOFF_MS.

Definition getBackoffDelay (sessionId : jstring) (st : State) : Z * State :=
  let count := default 0 (errorCounts st !! sessionId) + 1 in
  let st := setErrorCounts (<[sessionId := count]> (errorCounts st)) st in
  (backoffDelay count, st).

Definition resetBackoff (sessionId : jstring) (st : State) : State :=
  setErrorCounts (delete sessionId (errorCounts st)) st.

(** The path of the lock file for the output of [git rev-parse --git-dir]. *)
Definition lockPath (env : Env) (worktreePath gitDirOutput : jstring) : jstring :=
  let gitDirRaw := trim gitDirOutput in
  let gitDir := if path_isAbsolute env gitDirRaw then gitDirRaw
                else path_join env worktreePath gitDirRaw in
  path_join env gitDir (lit "index.lock").

(** The commands of the check, in the order of their calls. *)
Definition cmdInsideWorkTree : jstring := lit "git rev-parse --is-inside-work-tree".
Definition cmdGitDir : jstring := lit "git rev-parse --git-dir".
Definition cmdUpdateIndex : jstring := lit "git update-index --refresh --ignore-submodules".
Definition cmdDiffFiles : jstring := lit "git diff-files --quiet --ignore-submodules".
Definition cmdDiffIndex : jstring :=
  lit "git diff-index --cached --quiet HEAD --ignore-submodules".
Definition cmdUntracked : jstring := lit "git ls-files --others --exclude-standard".

(** [Some true]: there are changes; [Some false]: the working tree is clean;
    [None] is [undefined]: no answer now. *)
Definition checkIfRefreshNeeded (env : Env) (worktreePath : jstring) : option bool :=
  match execSync env cmdInsideWorkTree worktreePath with
  | Throw _ => None
  | Ok inside =>
      if negb (bool_decide (trim inside = lit "true")) then None
      else
        match execSync env cmdGitDir worktreePath with
        | Throw _ => None
        | Ok gitDirOutput =>
            if existsSync env (lockPath env worktreePath gitDirOutput) then None
            else
              match execSync env cmdUpdateIndex worktreePath with
              | Throw _ => None
              | Ok _ =>
                  match execSync env cmdDiffFiles worktreePath with
                  | Throw _ => Some true
                  | Ok _ =>
                      match execSync env cmdDiffIndex worktreePath with
                      | Throw _ => Some true
                      | Ok _ =>
                          match execSync env cmdUntracked worktreePath with
                          | Throw _ => None
                          | Ok out =>
                              let untrackedOutput := trim out in
                              if truthy untrackedOutput then Some true else Some false
                          end
                      end
                  end
              end
        end
  end.

(** [session.pendingRefresh = b] on the session object held by the map. *)
Definition markPending (sessionId : jstring) (b : bool) (st : State) : State :=
  setSessions (alter (setPending b) sessionId (watchedSessions st)) st.

(** The two places where a check is given up: count the failure, mark the
    session, schedule the retry. *)
Definition retryLater (sessionId : jstring) (st : State) : State :=
  let '(delay, st) := getBackoffDelay sessionId st in
  let st := markPending sessionId true st in
  scheduleRefreshCheckWithDelay sessionId delay st.

Definition performRefreshCheck (env : Env) (sessionId : jstring) (st : State) : State :=
  match watchedSessions st !! sessionId with
  | None => st
  | Some session =>
      if negb (pendingRefresh session) then st
      else
        let st := markPending sessionId false st in
        match checkIfRefreshNeeded env (worktreePath session) with
        | None => retryLater sessionId st
        | Some needsRefresh =>
            let st := resetBackoff sessionId st in
            if needsRefresh then
              match emit env sessionId st with
              | (Ok _, st) => st
              | (Throw _, st) => retryLater sessionId st
              end
            else st
        end
  end.

(** The callback handed to [setTimeout]. *)
Definition timerCallback (env : Env) (sessionId : jstring) (st : State) : State :=
  let st := setTimers (delete sessionId (refreshDebounceTimers st)) st in
  performRefreshCheck env sessionId st.

(** The callback handed to [fs.watch]. *)
Definition watchCallback (env : Env) (sessionId : jstring) (filename : option jstring)
    (st : State) : State :=
  match filename with
  | Some filename =>
      if truthy filename then handleFileChange env sessionId filename st else st
  | None => st
  end.

Definition getStats (st : State) : Z * Z :=
  (Z.of_nat (size (watchedSessions st)),
   Z.of_nat (size (filter (fun kv => pendingRefresh kv.2 = true) (watchedSessions st)))).

(** What can happen to a watcher manager: the calls of its interface, a
    file-system event delivered to an open watcher, an armed timer that
    fires. *)
Inductive event : Type :=
| StartWatching (sessionId worktreePath : jstring)
| StopWatching (sessionId : jstring)
| StopAll
| FsEvent (h : nat) (filename : option jstring)
| TimerFires (t : nat).

Definition step (env : Env) (ev : event) (st : State) : State :=
  match ev with
  | StartWatching sessionId worktreePath => startWatching env sessionId worktreePath st
  | StopWatching sessionId => stopWatching sessionId st
  | StopAll => stopAll st
  | FsEvent h filename =>
      match openWatchers st !! h with
      | Some sessionId => watchCallback env sessionId filename st
      | None => st
      end
  | TimerFires t =>
      (* a timer that fires is armed no more *)
      match timeouts st !! t with
      | Some (sessionId, _) => timerCallback env sessionId (clearTimeout t st)
      | None => st
      end
  end.

(** A run: each event happens in the world of its moment. *)
Definition run (trace : list (Env * event)) (st : State) : State :=
  fold_left (fun st '(env, ev) => step env ev st) trace st.

(** The delay of the timer armed for a session, if there is one. *)
Definition scheduledDelay (st : State) (sessionId : jstring) : option Z :=
  t ← refreshDebounceTimers st !! sessionId;
  snd <$> timeouts st !! t.

(** The open watchers whose callback serves a session id. *)
Definition openHandlesOf (st : State) (sessionId : jstring) : gmap nat jstring :=
  filter (fun kv => kv.2 = sessionId) (openWatchers st).

(** The watcher held by the session of an id, if there is one. *)
Definition watcherOf (st : State) (sessionId : jstring) : option nat :=
  watchedSessions st !! sessionId ≫= watcher.

(** The failures counted for a session id since its last definitive check. *)
Definition streak (st : State) (sessionId : jstring) : Z :=
  default 0 (errorCounts st !! sessionId).

(** The timer armed for a session id fires. *)
Definition retryFires (env : Env) (sessionId : jstring) (st : State) : State :=
  match refreshDebounceTimers st !! sessionId with
  | Some t => step env (TimerFires t) st
  | None => st
  end.

(** Consecutive checks of one session, each in the world of its moment. *)
Definition afterChecks (envs : list Env) (sessionId : jstring) (st : State) : State :=
  fold_left (fun st env => retryFires env sessionId st) envs st.

(** A session with a refresh pending and its timer armed. *)
Definition armedPending (st : State) (sessionId worktreePath : jstring) : Prop :=
  exists session t d,
    watchedSessions st !! sessionId = Some session
    /\ GitFileWatcher.worktreePath session = worktreePath
    /\ pendingRefresh session = true
    /\ refreshDebounceTimers st !! sessionId = Some t
    /\ timeouts st !! t = Some (sessionId, d).

(** The transient states of the repository and the failures of the gateway
    after which the check gives no answer: a failing call among the first
    three, a lock file in the metadata directory, a failing list of the
    untracked files after the two quiet checks have passed. *)
Definition transient (env : Env) (worktreePath : jstring) : Prop :=
  (exists e, execSync env cmdInsideWorkTree worktreePath = Throw e)
  \/ (exists e, execSync env cmdGitDir worktreePath = Throw e)
  \/ (exists out, execSync env cmdGitDir worktreePath = Ok out
                  /\ existsSync env (lockPath env worktreePath out) = true)
  \/ (exists e, execSync env cmdUpdateIndex worktreePath = Throw e)
  \/ (exists o1 o2 e, execSync env cmdDiffFiles worktreePath = Ok o1
                      /\ execSync env cmdDiffIndex worktreePath = Ok o2
                      /\ execSync env cmdUntracked worktreePath = Throw e).

(** The check reaches the two quiet checks (the work tree is recognised,
    the metadata directory is resolved and holds no lock file, the index is
    refreshed) and one of them fails: [git diff-files --quiet], or
    [git diff-index --cached --quiet] after the former has passed. *)
Definition quietCheckFails (env : Env) (worktreePath : jstring) : Prop :=
  (exists inside gitDirOutput refreshed,
      execSync env cmdInsideWorkTree worktreePath = Ok inside
      /\ Js.trim inside = lit "true"
      /\ execSync env cmdGitDir worktreePath = Ok gitDirOutput
      /\ existsSync env (lockPath env worktreePath gitDirOutput) = false
      /\ execSync env cmdUpdateIndex worktreePath = Ok refreshed)
  /\ ((exists e, execSync env cmdDiffFiles worktreePath = Throw e)
      \/ (exists out e, execSync env cmdDiffFiles worktreePath = Ok out
                        /\ execSync env cmdDiffIndex worktreePath = Throw e)).

(** Every open watcher is the watcher of the session of its id, every
    session has a watcher and it is open, and the handles still to come are
    fresh. *)
Definition watchersOwned (st : State) : Prop :=
  (forall h sessionId,
      openWatchers st !! h = Some sessionId <-> watcherOf st sessionId = Some h)
  /\ (forall h, is_Some (openWatchers st !! h) -> (h < nextWatcher st)%nat)
  /\ (forall sessionId,
        is_Some (watchedSessions st !! sessionId) -> is_Some (watcherOf st sessionId)).

(** Every armed timer is the timer registered for the session id of its
    callback, every registered timer is armed, timers belong to existing
    sessions, and the timers still to come are fresh: one timer slot per
    session, shared by the debounce and the backoff. *)
Definition timersOwned (st : State) : Prop :=
  (forall t sessionId d,
      timeouts st !! t = Some (sessionId, d) ->
      refreshDebounceTimers st !! sessionId = Some t)
  /\ (forall sessionId t,
        refreshDebounceTimers st !! sessionId = Some t ->
        exists d, timeouts st !! t = Some (sessionId, d))
  /\ (forall t, is_Some (timeouts st !! t) -> (t < nextTimeout st)%nat)
  /\ (forall sessionId,
        is_Some (refreshDebounceTimers st !! sessionId) ->
        is_Some (watchedSessions st !! sessionId)).

(** Two states with the same timers and the same session ids. *)
Definition sameTimers (st st' : State) : Prop :=
  timeouts st' = timeouts st
  /\ refreshDebounceTimers st' = refreshDebounceTimers st
  /\ nextTimeout st' = nextTimeout st
  /\ (forall sessionId,
        is_Some (watchedSessions st' !! sessionId)
        <-> is_Some (watchedSessions st !! sessionId)).

(** Two states with the same watchers: the same open handles, the same next
    handle, the same sessions as far as their watchers go. *)
Definition sameWatchers (st st' : State) : Prop :=
  openWatchers st' = openWatchers st
  /\ nextWatcher st' = nextWatcher st
  /\ (forall sessionId,
        watcher <$> watchedSessions st' !! sessionId
        = watcher <$> watchedSessions st !! sessionId).

End GitFileWatcher.

(** ** Vocabulary of the statements *)

(** The sum of a list of counts. *)
Definition sumZ (l : list Z) : Z := foldr Z.add 0%Z l.

(** The lines of a text, each closed by a line feed. *)
Definition unlines (ls : list jstring) : jstring :=
  concat (map (fun l => l ++ [Js.LF]) ls).

(** The set union of the [changedFiles] of a list of diff results. *)
Definition unionOfChangedFiles (diffs : list GitDiffManager.GitDiffResult)
    : gset jstring :=
  ⋃ (map (fun d => list_to_set (GitDiffManager.changedFiles d)) diffs).

(** A text made of white space only, and a text without line feed. *)
Definition blank (s : jstring) : Prop := Forall (fun c => Js.isWhitespace c = true) s.
Definition oneLine (s : jstring) : Prop := Forall (fun c => c <> Js.LF) s.

(** What one untracked file adds to the additions: the line count of its
    content as the code counts it, nothing when the file cannot be read. *)
Definition untrackedLines (env : Env) (worktreePath file : jstring) : Z :=
  match readFileSync env (path_join env worktreePath (Js.trim file)) with
  | Ok content => GitDiffManager.lineCount content
  | Throw _ => 0%Z
  end.

(** The number of line feeds of a text. *)
Definition newlines (s : jstring) : nat :=
  length (filter (fun c => c = Js.LF) s).

(** A world for examples: a table of commands with their outputs (every
    other command fails with [failure]), a table of readable files (every
    other file cannot be read), a set of paths that exist, the paths
    [fs.watch] accepts, and listeners that return. *)
Definition gitFatal : thrown :=
  ErrorObj (lit "Command failed: git" ++ [Js.LF] ++ lit "fatal: not a git repository").

Definition lookupBy {A} (key : jstring) (table : list (jstring * A)) : option A :=
  snd <$> find (fun kv => bool_decide (kv.1 = key)) table.

Definition worldOf (commands : list (jstring * jstring)) (failure : thrown)
    (files : list (jstring * jstring)) (existing watchable : list jstring) : Env :=
  {| execSync := fun command _ =>
       match lookupBy command commands with
       | Some out => Ok out
       | None => Throw failure
       end;
     readFileSync := fun p =>
       match lookupBy p files with
       | Some content => Ok content
       | None => Throw (ErrorObj (lit "ENOENT"))
       end;
     existsSync := fun p => bool_decide (p ∈ existing);
     path_join := fun a b => a ++ lit "/" ++ b;
     path_isAbsolute := fun p => Js.startsWith (lit "/") p;
     dateParse := fun _ => None;
     dateNow := 0;
     fsWatchOk := fun p => bool_decide (p ∈ watchable);
     listeners := fun _ => Ok tt |}.

(** The inputs, worlds and auxiliary notions of the statements below. *)
Section Inputs.
Import Js Regex GitDiffManager GitFileWatcher.
Local Open Scope Z_scope.

(** The set of changed files built by [combineDiffs], from a set [seen]. *)
Definition allFilesFrom (diffs : list GitDiffResult) (seen : list jstring) : list jstring :=
  fold_left (fun seen d => fold_left (fun seen f => setAdd f seen) (changedFiles d) seen)
    diffs seen.

(** The two diff results of the example of the specification. *)
Definition exA : GitDiffResult :=
  mkResult (lit "A") (mkStats 3 1 2) [lit "a"; lit "b"] (Some (lit "h0")) (Some (lit "h1")).

Definition exB : GitDiffResult :=
  mkResult (lit "B") (mkStats 2 0 2) [lit "b"; lit "c"] (Some (lit "h1")) (Some (lit "h2")).



(** [post r Q]: whenever [r] matches from [s] and the continuation succeeds,
    the continuation was entered at a position [s'] with [Q s s']. *)
Definition post (r : re) (Q : pos -> pos -> Prop) : Prop :=
  forall k s res, m r k s = Some res -> exists s', Q s s' /\ k s' = Some res.

(** Patterns without group leave the captures alone. *)
Definition keepsCaps (r : re) : Prop := post r (fun s s' => caps s' = caps s).

(** A run of digits read from [s]: the digits stand, last first, on top of
    the text before [s], and the captures are those of [s]. *)
Definition readDigits (s s' : pos) : Prop :=
  exists ds, Forall (fun c => isDigit c = true) ds
             /\ before s' = rev ds ++ before s /\ caps s' = caps s.

(** A diff of three sections: a text file, a binary file, and a section
    whose header names no [a/] and [b/] paths. *)
Definition threeSections : jstring :=
  unlines [lit "diff --git a/foo.txt b/foo.txt";
           lit "index 1..2 100644";
           lit "--- a/foo.txt";
           lit "+++ b/foo.txt";
           lit "@@ -1,2 +1,3 @@";
           lit " ctx";
           lit "-old";
           lit "+new";
           lit "+new2";
           lit "diff --git a/bin.png b/bin.png";
           lit "Binary files a/bin.png and b/bin.png differ";
           lit "diff --git broken"].

(** A section whose first line names no pair of paths, followed by the
    lines of a change. *)
Definition brokenHeader : jstring :=
  unlines [lit "diff --git broken";
           lit "index 1..2 100644";
           lit "--- a/foo.txt";
           lit "+++ b/foo.txt";
           lit "@@ -1 +1 @@";
           lit "-old";
           lit "+new"].

(** One tracked file with 3 insertions and 1 deletion, and one untracked
    file with the given content. *)
Definition oneUntracked (content : jstring) : Env :=
  worldOf
    [(lit "git diff --stat HEAD",
      unlines [lit " tracked.txt | 4 +++-";
               lit " 1 file changed, 3 insertions(+), 1 deletion(-)"]);
     (lit "git ls-files --others --exclude-standard", unlines [lit "new.txt"])]
    gitFatal
    [(lit "/repo/new.txt", content)] [] [].

(** What [git diff-files] throws when it cannot read the repository. *)
Definition diffFilesCrash : thrown :=
  ErrorObj (lit "Command failed: git diff-files --quiet --ignore-submodules" ++ [LF]
            ++ lit "fatal: unable to read tree").

(** A world in which the repository is unlocked, the index can be
    refreshed, and [git diff-files] crashes. *)
Definition diffFilesCrashes : Env :=
  worldOf [(cmdInsideWorkTree, unlines [lit "true"]);
           (cmdGitDir, unlines [lit ".git"]);
           (cmdUpdateIndex, [])]
    diffFilesCrash [] [] [lit "/repo"].

(** A manager that watches the session [s1] at [/repo] and has seen one
    change of a source file: the session is pending, its debounce timer is
    armed. *)
Definition watchedAndChanged (env : Env) : State :=
  run [(env, StartWatching (lit "s1") (lit "/repo"));
       (env, FsEvent 0 (Some (lit "src/a.ts")))] init.

(** A world in which the index is locked by another operation. *)
Definition lockedWorld : Env :=
  worldOf [(cmdInsideWorkTree, unlines [lit "true"]);
           (cmdGitDir, unlines [lit ".git"])]
    gitFatal [] [lit "/repo/.git/index.lock"] [lit "/repo"].

(** A world in which [fs.watch] accepts the path [/repo] only. *)
Definition repoOnly : Env := worldOf [] gitFatal [] [] [lit "/repo"].

End Inputs.

(** The notions of the statements about the watcher as a whole. *)
Section WatcherNotions.
Import Js GitFileWatcher.

(** A watched session has a refresh pending exactly when a timer is
    registered for it. *)
Definition pendingIffTimer (st : State) : Prop :=
  forall sessionId session,
    watchedSessions st !! sessionId = Some session ->
    (pendingRefresh session = true <-> is_Some (refreshDebounceTimers st !! sessionId)).

(** The same, for the sessions other than one. *)
Definition pendingIffTimerBut (sessionId0 : jstring) (st : State) : Prop :=
  forall sessionId session,
    sessionId <> sessionId0 ->
    watchedSessions st !! sessionId = Some session ->
    (pendingRefresh session = true <-> is_Some (refreshDebounceTimers st !! sessionId)).

(** The armed timers whose callback serves a session id. *)
Definition armedTimersOf (st : State) (sessionId : jstring) : gmap nat (jstring * Z) :=
  filter (fun kv => kv.2.1 = sessionId) (timeouts st).

(** The [needs-refresh] events emitted so far for a session id. *)
Definition emittedFor (st : State) (sessionId : jstring) : list jstring :=
  filter (fun i => i = sessionId) (emitted st).

(** A run in which [startWatching] is not called for a session id. *)
Definition notStarted (sessionId : jstring) (trace : list (Env * event)) : Prop :=
  Forall (fun x => forall path, x.2 <> StartWatching sessionId path) trace.

(** The changes of one burst, each delivered to the watcher [h] in the
    world of its moment. *)
Definition burst (h : nat) (changes : list (Env * jstring)) : list (Env * event) :=
  map (fun x => (x.1, FsEvent h (Some x.2))) changes.

(** The file names that [shouldIgnoreFile] rejects, spelled out. *)
Definition ignoredName (filename : jstring) : Prop :=
  startsWith (lit ".git/") filename = true
  \/ includes (lit "/.git/") filename = true
  \/ startsWith (lit "node_modules/") filename = true
  \/ includes (lit "/node_modules/") filename = true
  \/ filename = lit ".DS_Store" \/ endsWith (lit "/.DS_Store") filename = true
  \/ filename = lit "thumbs.db" \/ endsWith (lit "/thumbs.db") filename = true
  \/ endsWith (lit ".swp") filename = true
  \/ endsWith (lit ".swo") filename = true
  \/ endsWith (lit "~") filename = true
  \/ startsWith (lit ".#") (basename filename) = true
  \/ (startsWith (lit "#") (basename filename) = true
      /\ endsWith (lit "#") (basename filename) = true).

End WatcherNotions.

(** The notions of the statements about the parsers and the file list. *)
#[global] Instance changeType_eq_dec : EqDecision changeType.
Proof. solve_decision. Defined.

Section ParserNotions.
Import Js.

(** What the viewer reports of a file apart from the two texts and the
    oversize mark. *)
Definition summaryOf (r : DiffViewer.FileDiff)
    : jstring * jstring * changeType * bool * Z * Z * Z :=
  (DiffViewer.path r, DiffViewer.oldPath r, DiffViewer.type r, DiffViewer.isBinary r,
   DiffViewer.additions r, DiffViewer.deletions r, DiffViewer.approxSize r).

(** The text shown for a side that has the given lines; a side that does
    not exist (the old side of an added file, the new side of a deleted one)
    is the empty text. *)
Definition sideText (exists_ : bool) (lines : list jstring) : jstring :=
  if exists_ then join [LF] lines else [].

End ParserNotions.

(** The notions of the statements about the commit history. *)
Section HistoryNotions.
Import Js GitDiffManager.

(** A line of the log that starts a commit. *)
Definition isHeader (line : jstring) : bool := includes (lit "|") line.

(** The lines of a log grouped by commit: each header line with the
    non-blank lines that follow it up to the next header.  The first
    component holds the non-blank lines that stand before the first
    header. *)
Fixpoint commitGroups (lines : list jstring)
    : list jstring * list (jstring * list jstring) :=
  match lines with
  | [] => ([], [])
  | line :: rest =>
      let '(loose, groups) := commitGroups rest in
      if isHeader line then ([], (line, loose) :: groups)
      else if truthy (trim line) then (line :: loose, groups)
      else (loose, groups)
  end.

(** The commit read off a header line and its stat lines: the fields of
    the header split at the bars, the date parsed (the present moment when
    it cannot be parsed), the stats of the stat lines. *)
Definition commitOf (env : Env) (group : jstring * list jstring) : GitCommit :=
  let fields := splitChar "|" group.1 in
  mkCommit (default [] (fields !! 0%nat)) (fields !! 1%nat)
    (default (dateNow env) ((fields !! 2%nat) ≫= dateParse env))
    (fields !! 3%nat) (parseNumstatOutput group.2).

(** The full message of a commit put in place of its subject, when the
    second query gave a non-empty one for its hash. *)
Definition withFullMessage (fullMap : gmap jstring jstring) (c : GitCommit) : GitCommit :=
  match fullMap !! hash c with
  | Some full => if truthy full && nonEmpty full then setMessage full c else c
  | None => c
  end.

(** The map from hash to full message that the second query gives; the
    empty map when the query fails. *)
Definition fullMessagesOf (env : Env) (worktreePath : jstring) (limit : Z)
    (mainBranch : jstring) : gmap jstring jstring :=
  match execSync env (fullCommand limit mainBranch) worktreePath with
  | Ok fullOutput => fullMessages (filter truthy (splitChar NUL fullOutput)) ∅
  | Throw _ => ∅
  end.

(** The sum of two stats, field by field. *)
Definition addStats (a b : GitDiffStats) : GitDiffStats :=
  mkStats (additions a + additions b) (deletions a + deletions b)
    (filesChanged a + filesChanged b).

(** The result made of nothing: what is left when every command fails. *)
Definition nothing (beforeHash afterHash : option jstring) : GitDiffResult :=
  mkResult [] zeroStats [] beforeHash afterHash.

End HistoryNotions.

(** The notions of the statements about the regular expressions of the
    parsers. *)
Section RegexNotions.
Import Js Regex.

(** The position [x] further in the text than [s], with given captures. *)
Definition advanced (x : jstring) (s : pos) (cs : list (nat * jstring)) : pos :=
  mkPos (rev x ++ before s) (drop (length x) (after s)) cs.

(** [s'] lies further in the text than [s], or at [s]. *)
Definition advances (s s' : pos) : Prop :=
  exists x, before s' = rev x ++ before s /\ after s = x ++ after s'.

(** The successive matches of a pattern found by walking through the text
    position by position; [n] bounds the steps. *)
Fixpoint findAll (r : re) (n : nat) (bef aft : jstring) : list found :=
  match n with
  | O => []
  | S n' =>
      match matchAt r bef aft with
      | Some f =>
          let e := m_end f in
          match matched f, after e with
          | [], [] => [f]
          | [], c :: a => f :: findAll r n' (c :: before e) a
          | _ :: _, _ => f :: findAll r n' (before e) (after e)
          end
      | None =>
          match aft with
          | [] => []
          | c :: aft' => findAll r n' (c :: bef) aft'
          end
      end
  end.

(** The text that a global replacement leaves of [aft], found by the same
    walk. *)
Fixpoint replaceWalk (r : re) (by_ : found -> jstring) (n : nat) (bef aft : jstring)
    : jstring :=
  match n with
  | O => []
  | S n' =>
      match matchAt r bef aft with
      | Some f =>
          let e := m_end f in
          by_ f ++ match matched f, after e with
                   | [], [] => []
                   | [], c :: a => c :: replaceWalk r by_ n' (c :: before e) a
                   | _ :: _, _ => replaceWalk r by_ n' (before e) (after e)
                   end
      | None =>
          match aft with
          | [] => []
          | c :: aft' => c :: replaceWalk r by_ n' (c :: bef) aft'
          end
      end
  end.

(** The walks with the steps that the text needs. *)
Definition matchesFrom (r : re) (bef aft : jstring) : list found :=
  findAll r (S (length aft)) bef aft.

Definition replacedFrom (r : re) (by_ : found -> jstring) (bef aft : jstring) : jstring :=
  replaceWalk r by_ (S (length aft)) bef aft.

End RegexNotions.

(** The notions of the statement about [normalizeFilePath]. *)
Section PathNotions.
Import Js.

Definition isBackslash (c : ascii) : bool := ascii_eqb BACKSLASH c.

(** A text without its last character when that is a quote. *)
Fixpoint dropLastQuote (s : jstring) : jstring :=
  match s with
  | [] => []
  | c :: rest =>
      match rest with
      | [] => if DiffParser.isQuote c then [] else [c]
      | _ :: _ => c :: dropLastQuote rest
      end
  end.

(** A text without the quote it starts with and without the quote it ends
    with. *)
Definition stripQuotes (s : jstring) : jstring :=
  match s with
  | [] => []
  | c :: rest => if DiffParser.isQuote c then dropLastQuote rest else dropLastQuote s
  end.

(** A text in which every backslash that stands before a character other
    than a line terminator is left out, read from the left: the character
    after it is kept as it is. *)
Fixpoint unescape (s : jstring) : jstring :=
  match s with
  | [] => []
  | b :: s' =>
      match s' with
      | [] => [b]
      | c :: rest =>
          if isBackslash b && negb (isLineTerminator c) then c :: unescape rest
          else b :: unescape s'
      end
  end.

(** A text in which every backslash is replaced by a slash. *)
Definition slashes (s : jstring) : jstring :=
  map (fun c => if isBackslash c then "/"%char else c) s.

(** A path without backslash that neither starts nor ends with a quote. *)
Definition plainPath (p : jstring) : Prop :=
  Forall (fun c => isBackslash c = false) p
  /\ (forall c rest, p = c :: rest -> DiffParser.isQuote c = false)
  /\ (forall c front, p = front ++ [c] -> DiffParser.isQuote c = false).

End PathNotions.

(** The notions of the statements about the sections of a diff. *)
Section SectionNotions.
Import Js.

(** The marker that starts the section of a file. *)
Definition sectionMark : jstring := lit "diff --git".

(** A text that starts with the marker and holds it nowhere else: the
    section of one file. *)
Definition sectionText (sec : jstring) : Prop :=
  startsWith sectionMark sec = true /\ includes sectionMark (drop 1 sec) = false.

End SectionNotions.

(** The notions of the statements about well-formed sections. *)
Section WellFormedNotions.
Import Js.

(** A line: a text without line terminator. *)
Definition properLine (l : jstring) : Prop :=
  Forall (fun c => isLineTerminator c = false) l.

(** A line that starts with the sign and does not go on with the sign. *)
Definition signedLine (sign : ascii) (l : jstring) : bool :=
  match l with
  | [] => false
  | a :: rest =>
      ascii_eqb sign a
      && match rest with
         | [] => true
         | c :: _ => negb (ascii_eqb sign c)
         end
  end.

(** The number of lines that satisfy a test. *)
Definition countLines (test : jstring -> bool) (ls : list jstring) : Z :=
  Z.of_nat (length (filter (fun l => test l = true) ls)).

(** The first line of the section of a file. *)
Definition headerLine (oldName newName : jstring) : jstring :=
  lit "diff --git a/" ++ oldName ++ lit " b/" ++ newName.

(** A name that the patterns read back: not empty, on one line. *)
Definition fileName (name : jstring) : Prop := name <> [] /\ properLine name.

(** What may follow the first line: the end of the text, or a line
    terminator. *)
Definition lineEnds (tail : jstring) : Prop :=
  tail = [] \/ exists c t, tail = c :: t /\ isLineTerminator c = true.

(** The binary mark of [parseFilesFromDiff]. *)
Definition binaryMark (fileContent : jstring) : bool :=
  includes (lit "Binary files") fileContent
  || includes (lit "GIT binary patch") fileContent
  || includes (lit "differ" ++ [LF]) fileContent.

(** The lines from the first hunk header on. *)
Fixpoint fromHunk (lines : list jstring) : list jstring :=
  match lines with
  | [] => []
  | line :: rest => if startsWith (lit "@@") line then lines else fromHunk rest
  end.

End WellFormedNotions.

(** The notions of the statements about the sections written for untracked
    files. *)
Section UntrackedNotions.
Import Js Regex GitDiffManager.

(** The lines that [untrackedSection] writes under the first line: four
    header lines, the hunk header, and one [+] line per line of the
    content. *)
Definition untrackedBody (cleanFile : jstring) (lines : list jstring) : list jstring :=
  [lit "new file mode 100644"; lit "index 0000000..0000000"; lit "--- /dev/null";
   lit "+++ b/" ++ cleanFile;
   lit "@@ -0,0 +1," ++ numberToString (Z.of_nat (length lines)) ++ lit " @@"]
  ++ map (fun line => lit "+" ++ line) lines.

(** A line of a file that does not itself start with a plus sign. *)
Definition plainLine (line : jstring) : bool := negb (startsWith (lit "+") line).

(** The untracked files that [createDiffForUntrackedFiles] writes: the
    name and the content of those that have a name and can be read. *)
Definition untrackedEntries (env : Env) (worktreePath : jstring)
    (untrackedFiles : list jstring) : list (jstring * jstring) :=
  omap
    (fun file =>
       if negb (truthy file) || (length (trim file) =? 0)%nat then None
       else
         match readFileSync env (path_join env worktreePath (trim file)) with
         | Ok fileContent => Some (trim file, fileContent)
         | Throw _ => None
         end)
    untrackedFiles.

(** The conditions on the section of one untracked file: the name is on
    one line and does not hold [ b/], no line of the content holds a
    carriage return, and the section holds the marker at its start only and
    no binary mark of the viewer. *)
Definition plainUntracked (entry : jstring * jstring) : Prop :=
  let sec := untrackedSection entry.1 entry.2 in
  properLine entry.1
  /\ includes (lit " b/") entry.1 = false
  /\ Forall properLine (split reNewline entry.2)
  /\ includes sectionMark (drop 1 sec) = false
  /\ includes (lit "Binary files") sec || includes (lit "GIT binary patch") sec = false.

(** What the viewer shows for an untracked file. *)
Definition shownUntracked (maxBytes : Z) (entry : jstring * jstring)
    : DiffViewer.FileDiff :=
  let lines := split reNewline entry.2 in
  let sec := untrackedSection entry.1 entry.2 in
  let tooLarge := (maxBytes <? Z.of_nat (length sec))%Z in
  DiffViewer.mkFileDiff entry.1 entry.1 []
    (if tooLarge then [] else unlines lines) added false
    (Z.of_nat (length lines)) 0 tooLarge (Z.of_nat (length sec)).

End UntrackedNotions.

(** The notions of the statements about the lines of [git log --numstat]. *)
Section NumstatNotions.
Import Js GitDiffManager.
Local Open Scope Z_scope.

Definition TAB : ascii := ascii_of_nat 9.

(** A count as git writes it: the number, or a dash for a binary file. *)
Definition numstatCount (n : option Z) : jstring :=
  match n with
  | Some z => numberToString z
  | None => lit "-"
  end.

(** A line of numstat output: the two counts and the path, separated by
    tabs. *)
Definition numstatLine (e : option Z * option Z * jstring) : jstring :=
  numstatCount e.1.1 ++ [TAB] ++ numstatCount e.1.2 ++ [TAB] ++ e.2.

(** A text that starts and ends with a character that is not white
    space. *)
Definition tidy (s : jstring) : Prop :=
  match s with [] => False | c :: _ => isWhitespace c = false end
  /\ match rev s with [] => False | c :: _ => isWhitespace c = false end.

(** An entry of numstat output: counts that are not negative, and a path
    without white space at its ends. *)
Definition numstatEntry (e : option Z * option Z * jstring) : Prop :=
  (forall z, e.1.1 = Some z -> 0 <= z)
  /\ (forall z, e.1.2 = Some z -> 0 <= z)
  /\ tidy e.2.

End NumstatNotions.

(** The notions of the statements about the lists of file names. *)
Section NameNotions.
Import Js.

(** A file name as git prints it on a line of its own: on one line,
    without white space at its ends. *)
Definition printedName (name : jstring) : Prop := tidy name /\ oneLine name.

End NameNotions.

(** More inputs and worlds for the examples. *)
Section MoreInputs.
Import Js GitDiffManager GitFileWatcher.

(** A log of two commits: a text change, then a binary file; the second
    header has a date that cannot be parsed. *)
Definition twoCommitsLog : jstring :=
  unlines [lit "abc|subject one|2024-01-01|me";
           lit "3" ++ [ascii_of_nat 9] ++ lit "1" ++ [ascii_of_nat 9] ++ lit "a.txt";
           [];
           lit "def|second|bad|you";
           lit "-" ++ [ascii_of_nat 9] ++ lit "-" ++ [ascii_of_nat 9] ++ lit "b.bin"].

(** A world that answers the log query with [twoCommitsLog] and in which
    the query for the full messages fails. *)
Definition twoCommits : Env :=
  worldOf [(logCommand 50 (lit "main"), twoCommitsLog)] gitFatal [] [] [].

(** The body of the section of a text file: the lines under its first
    line. *)
Definition fooBody : list jstring :=
  [lit "index 1..2 100644"; lit "--- a/foo.txt"; lit "+++ b/foo.txt";
   lit "@@ -1,2 +1,3 @@"; lit " ctx"; lit "-old"; lit "+new"; lit "+new2"].

(** The three sections of [threeSections]. *)
Definition fooSection : jstring :=
  unlines (headerLine (lit "foo.txt") (lit "foo.txt") :: fooBody).

Definition binSection : jstring :=
  unlines [lit "diff --git a/bin.png b/bin.png";
           lit "Binary files a/bin.png and b/bin.png differ"].

Definition brokenSection : jstring := unlines [lit "diff --git broken"].

(** The content of an untracked file of two lines, the second of which
    starts with a plus sign. *)
Definition twoLines : jstring := lit "one" ++ [Js.LF] ++ lit "+two".

End MoreInputs.

(** * Properties *)

(** ** Aggregation: [combineDiffs] *)
Section CombineDiffs.
Import GitDiffManager.
Local Open Scope Z_scope.

Lemma fold_left_sum {A} (f : A -> Z) (l : list A) (a : Z) :
  fold_left (fun sum d => sum + f d) l a = a + sumZ (map f l).
Proof.
  revert a. induction l as [|x l IH]; intros a; simpl.
  - lia.
  - rewrite IH. lia.
Qed.

Lemma setAdd_NoDup f seen : NoDup seen -> NoDup (setAdd f seen).
Proof.
  intros Hnd. unfold setAdd. case_bool_decide as Hin; [done|].
  apply NoDup_app. split_and!; [done| |apply NoDup_singleton].
  intros x Hx Hx'. apply list_elem_of_singleton in Hx'. by subst.
Qed.

Lemma setAdd_set f seen :
  list_to_set (C := gset jstring) (setAdd f seen) = list_to_set seen ∪ {[f]}.
Proof.
  unfold setAdd. case_bool_decide as Hin.
  - apply (elem_of_list_to_set (C := gset jstring)) in Hin. set_solver.
  - rewrite list_to_set_app_L. set_solver.
Qed.

Lemma addFiles_NoDup files seen :
  NoDup seen -> NoDup (fold_left (fun seen f => setAdd f seen) files seen).
Proof.
  revert seen. induction files as [|f files IH]; intros seen Hnd; simpl; [done|].
  apply IH, setAdd_NoDup, Hnd.
Qed.

Lemma addFiles_set files seen :
  list_to_set (C := gset jstring) (fold_left (fun seen f => setAdd f seen) files seen)
  = list_to_set seen ∪ list_to_set files.
Proof.
  revert seen. induction files as [|f files IH]; intros seen; simpl.
  - set_solver.
  - rewrite IH, setAdd_set. set_solver.
Qed.

Lemma allFiles_NoDup diffs seen : NoDup seen -> NoDup (allFilesFrom diffs seen).
Proof.
  revert seen. induction diffs as [|d diffs IH]; intros seen Hnd; simpl; [done|].
  apply IH, addFiles_NoDup, Hnd.
Qed.

Lemma allFiles_set diffs seen :
  list_to_set (C := gset jstring) (allFilesFrom diffs seen)
  = list_to_set seen ∪ unionOfChangedFiles diffs.
Proof.
  revert seen. induction diffs as [|d diffs IH]; intros seen; simpl.
  - unfold unionOfChangedFiles. simpl. set_solver.
  - unfold allFilesFrom in IH. rewrite IH, addFiles_set.
    unfold unionOfChangedFiles. simpl. set_solver.
Qed.

(** The array of changed files of a combined diff has no duplicate, and its
    elements are those of the set union of the inputs' arrays. *)
Lemma combineDiffs_files_distinct diffs :
  NoDup (changedFiles (combineDiffs diffs))
  /\ list_to_set (changedFiles (combineDiffs diffs)) = unionOfChangedFiles diffs.
Proof.
  split.
  - apply (allFiles_NoDup diffs []), NoDup_nil_2.
  - change (changedFiles (combineDiffs diffs)) with (allFilesFrom diffs []).
    rewrite allFiles_set. set_solver.
Qed.

(** The array of changed files of a combined diff lists each path of the
    set union of the inputs' arrays, once. *)
Theorem combineDiffs_changedFiles_union (diffs : list GitDiffResult) :
  NoDup (changedFiles (combineDiffs diffs))
  /\ list_to_set (changedFiles (combineDiffs diffs)) = unionOfChangedFiles diffs.
Proof. apply combineDiffs_files_distinct. Qed.

(** C2. For a non-empty list of diff results [d :: ds], [combineDiffs]
    returns the sums of the additions and of the deletions, the number of
    distinct paths of the set union of the [changedFiles] arrays as
    [filesChanged], the texts joined by two line feeds (a blank line) as
    [diff], the first input's [beforeHash] and the last input's
    [afterHash]. *)
Theorem combineDiffs_nonempty (d : GitDiffResult) (ds : list GitDiffResult) :
  let r := combineDiffs (d :: ds) in
  additions (stats r) = sumZ (map (fun x => additions (stats x)) (d :: ds))
  /\ deletions (stats r) = sumZ (map (fun x => deletions (stats x)) (d :: ds))
  /\ filesChanged (stats r) = Z.of_nat (size (unionOfChangedFiles (d :: ds)))
  /\ diff r = Js.join [Js.LF; Js.LF] (map diff (d :: ds))
  /\ beforeHash r = beforeHash d
  /\ afterHash r = afterHash (default d (last ds)).
Proof.
  intros r. split_and!.
  - apply (fold_left_sum (fun x => additions (stats x)) (d :: ds) 0).
  - apply (fold_left_sum (fun x => deletions (stats x)) (d :: ds) 0).
  - destruct (combineDiffs_files_distinct (d :: ds)) as [Hnd Hset].
    rewrite <- Hset. rewrite size_list_to_set by exact Hnd. reflexivity.
  - reflexivity.
  - reflexivity.
  - unfold r, combineDiffs. cbn [afterHash].
    rewrite last_cons. by destruct (last ds).
Qed.

(** The example of the specification: files [a, b] and [b, c] combine to the
    three files [a, b, c], 5 additions and 1 deletion. *)
Example combineDiffs_example :
  combineDiffs [exA; exB]
  = mkResult (lit "A" ++ [Js.LF; Js.LF] ++ lit "B") (mkStats 5 1 3)
      [lit "a"; lit "b"; lit "c"] (Some (lit "h0")) (Some (lit "h2")).
Proof. vm_compute. reflexivity. Qed.

(** C10. On the empty list [combineDiffs] returns the empty text, zero
    statistics, no changed file and no revision: [diffs[0]] and
    [diffs[diffs.length - 1]] are read through [?.]. *)
Theorem combineDiffs_empty :
  combineDiffs []
  = {| diff := []; stats := mkStats 0 0 0; changedFiles := [];
       beforeHash := None; afterHash := None |}.
Proof. reflexivity. Qed.

End CombineDiffs.

(** ** Failure policy of the artifact fetches: [getCommitDiff], [getCommitHistory] *)
Section FailurePolicy.
Import GitDiffManager.





End FailurePolicy.

(** ** White space, lines and the summary line of a diffstat *)
Section Lines.
Import Js.

Lemma dropWhile_blank_app a b :
  blank a -> dropWhile isWhitespace (a ++ b) = dropWhile isWhitespace b.
Proof.
  induction 1 as [|c a Hc _ IH]; simpl; [done|]. by rewrite Hc.
Qed.

Lemma dropWhile_nonblank_app a b :
  ~ blank a -> dropWhile isWhitespace (a ++ b) = dropWhile isWhitespace a ++ b.
Proof.
  induction a as [|c a IH]; intros Hnb; simpl.
  - destruct Hnb. constructor.
  - destruct (isWhitespace c) eqn:Hc; [|done].
    apply IH. intros Ha. apply Hnb. by constructor.
Qed.

Lemma blank_rev a : blank a <-> blank (rev a).
Proof.
  unfold blank. split; intros H.
  - by apply List.Forall_rev.
  - rewrite <- (rev_involutive a). by apply List.Forall_rev.
Qed.

Lemma trimEnd_blank_app a b : blank b -> trimEnd (a ++ b) = trimEnd a.
Proof.
  intros Hb. unfold trimEnd. rewrite rev_app_distr.
  rewrite dropWhile_blank_app; [done|]. by apply (proj1 (blank_rev b)).
Qed.

Lemma trimEnd_nonblank_app a b : ~ blank b -> trimEnd (a ++ b) = a ++ trimEnd b.
Proof.
  intros Hb. unfold trimEnd. rewrite rev_app_distr.
  rewrite dropWhile_nonblank_app.
  - by rewrite rev_app_distr, rev_involutive.
  - intros H. apply Hb. by apply (proj2 (blank_rev b)).
Qed.

Lemma dropWhile_Forall (P : ascii -> Prop) p s : Forall P s -> Forall P (dropWhile p s).
Proof.
  induction 1 as [|c s Hc Hs IH]; simpl; [constructor|].
  destruct (p c); [done|]. by constructor.
Qed.

Lemma oneLine_trimStart s : oneLine s -> oneLine (trimStart s).
Proof. apply dropWhile_Forall. Qed.

Lemma oneLine_trimEnd s : oneLine s -> oneLine (trimEnd s).
Proof.
  unfold oneLine, trimEnd. intros H.
  apply List.Forall_rev, dropWhile_Forall, List.Forall_rev, H.
Qed.

Lemma ascii_eqb_eq a b : ascii_eqb a b = true <-> a = b.
Proof.
  unfold ascii_eqb, code. rewrite N.eqb_eq. split; [|by intros ->].
  intros H. rewrite <- (ascii_N_embedding a), <- (ascii_N_embedding b). by rewrite H.
Qed.

Lemma splitChar_nonempty sep s : splitChar sep s <> [].
Proof.
  destruct s as [|c s]; simpl; [done|].
  destruct (ascii_eqb c sep); [done|]. by destruct (splitChar sep s).
Qed.

Lemma splitChar_oneLine s : oneLine s -> splitChar LF s = [s].
Proof.
  induction 1 as [|c s Hc _ IH]; simpl; [done|].
  destruct (ascii_eqb c LF) eqn:E; [by apply ascii_eqb_eq in E|].
  by rewrite IH.
Qed.

(** Splitting distributes over a separator in the middle. *)
Lemma splitChar_app sep a b :
  splitChar sep (a ++ sep :: b) = splitChar sep a ++ splitChar sep b.
Proof.
  induction a as [|c a IH]; simpl.
  - assert (ascii_eqb sep sep = true) as -> by by apply ascii_eqb_eq. done.
  - destruct (ascii_eqb c sep); rewrite IH; [done|].
    pose proof (splitChar_nonempty sep a). by destruct (splitChar sep a).
Qed.

(** The last line of a text that ends with a line, whatever stands above it. *)
Lemma lastLine_after_LF a l :
  oneLine l -> GitDiffManager.lastLine (splitChar LF (a ++ LF :: l)) = l.
Proof.
  intros Hl. unfold GitDiffManager.lastLine.
  rewrite splitChar_app, (splitChar_oneLine l Hl). apply last_last.
Qed.

Lemma lastLine_oneLine l :
  oneLine l -> GitDiffManager.lastLine (splitChar LF l) = l.
Proof. intros Hl. by rewrite (splitChar_oneLine l Hl). Qed.

Lemma blank_LF : isWhitespace LF = true.
Proof. reflexivity. Qed.

Lemma trim_blank s : blank s -> trim s = [].
Proof.
  intros Hs. unfold trim, trimStart.
  rewrite <- (app_nil_r s), dropWhile_blank_app by done. reflexivity.
Qed.

(** The summary line is the last line of the text that is not blank,
    without the white space at its end, and also without the white space at its
    start when only blank text stands above it. *)
Lemma summaryLine_last_nonblank (above L below : jstring) :
  (above = [] \/ exists a, above = a ++ [LF]) ->
  oneLine L -> ~ blank L -> blank below ->
  GitDiffManager.summaryLine (above ++ L ++ below)
  = trimEnd (if bool_decide (blank above) then trimStart L else L).
Proof.
  intros Habove HL HnbL Hbelow. unfold GitDiffManager.summaryLine, trim.
  case_bool_decide as Hab.
  - unfold trimStart at 1.
    rewrite dropWhile_blank_app by done.
    rewrite dropWhile_nonblank_app by done.
    rewrite trimEnd_blank_app by done.
    apply lastLine_oneLine, oneLine_trimEnd, oneLine_trimStart, HL.
  - destruct Habove as [->|[a ->]]; [destruct Hab; constructor|].
    assert (Ha : ~ blank a).
    { intros Ha. apply Hab. apply Forall_app. split; [done|].
      constructor; [apply blank_LF|constructor]. }
    unfold trimStart.
    replace ((a ++ [LF]) ++ L ++ below) with (a ++ ([LF] ++ L ++ below))
      by (by rewrite <- app_assoc).
    rewrite dropWhile_nonblank_app by done.
    set (a' := dropWhile isWhitespace a).
    replace (a' ++ [LF] ++ L ++ below) with (((a' ++ [LF]) ++ L) ++ below)
      by (by rewrite <- !app_assoc).
    rewrite trimEnd_blank_app by done.
    rewrite trimEnd_nonblank_app by done.
    rewrite <- app_assoc. simpl.
    apply lastLine_after_LF, oneLine_trimEnd, HL.
Qed.

End Lines.

(** ** Reasoning about the matcher: what a pattern leaves behind *)
Section RegexFacts.
Import Js Regex.

Lemma post_weaken r (Q Q' : pos -> pos -> Prop) :
  post r Q -> (forall s s', Q s s' -> Q' s s') -> post r Q'.
Proof.
  intros Hr HQ k s res Hm. destruct (Hr k s res Hm) as (s' & Hs' & Hk). eauto.
Qed.

Lemma post_Eps : post Eps (fun s s' => s' = s).
Proof. intros k s res Hm. simpl in Hm. eauto. Qed.

Lemma post_Chr p :
  post (Chr p)
    (fun s s' => exists c, p c = true /\ before s' = c :: before s /\ caps s' = caps s).
Proof.
  intros k s res Hm. simpl in Hm.
  destruct (after s) as [|c rest]; [done|]. destruct (p c) eqn:Hp; [|done].
  eexists. split; [|exact Hm]. by exists c.
Qed.

Lemma post_Cat r1 r2 (Q1 Q2 : pos -> pos -> Prop) :
  post r1 Q1 -> post r2 Q2 ->
  post (Cat r1 r2) (fun s s' => exists s1, Q1 s s1 /\ Q2 s1 s').
Proof.
  intros H1 H2 k s res Hm. simpl in Hm.
  destruct (H1 _ _ _ Hm) as (s1 & Hs1 & Hm2).
  destruct (H2 _ _ _ Hm2) as (s' & Hs' & Hk). eauto.
Qed.

Lemma post_Alt r1 r2 (Q : pos -> pos -> Prop) :
  post r1 Q -> post r2 Q -> post (Alt r1 r2) Q.
Proof.
  intros H1 H2 k s res Hm. simpl in Hm.
  destruct (m r1 k s) as [res1|] eqn:E1.
  - injection Hm as <-. by apply (H1 k s).
  - by apply (H2 k s).
Qed.

Lemma post_Group i r (Q : pos -> pos -> Prop) :
  post r Q ->
  post (Group i r)
    (fun s s' => exists s1, Q s s1
                            /\ caps s' = setCap i (consumed s s1) (caps s1)).
Proof.
  intros Hr k s res Hm. simpl in Hm.
  destruct (Hr _ _ _ Hm) as (s1 & Hs1 & Hk).
  eexists. split; [|exact Hk]. by exists s1.
Qed.

(** A star repeats what one turn leaves behind, for any relation that is
    reflexive and transitive. *)
Lemma post_Star greedy r (Q : pos -> pos -> Prop) :
  (forall s, Q s s) -> (forall s1 s2 s3, Q s1 s2 -> Q s2 s3 -> Q s1 s3) ->
  post r Q -> post (Star greedy r) Q.
Proof.
  intros Hrefl Htrans Hr k s res. cbn [m].
  generalize (length (after s)) as n. intros n. revert s res.
  induction n as [|n IH]; intros s res Hm; simpl in Hm.
  - eauto.
  - assert (Hagain :
      forall res',
        m r (fun s' => if (length (after s') <? length (after s))%nat
                       then starLoop (m r) greedy k n s' else None) s = Some res' ->
        exists s', Q s s' /\ k s' = Some res').
    { intros res' Hm'. destruct (Hr _ _ _ Hm') as (s1 & Hs1 & Hk1).
      destruct (_ <? _)%nat; [|done].
      destruct (IH s1 res' Hk1) as (s' & Hs' & Hk). eauto. }
    destruct greedy.
    + destruct (m r _ s) as [v|] eqn:E.
      * injection Hm as <-. by apply Hagain.
      * eauto.
    + destruct (k s) as [v|] eqn:E.
      * injection Hm as <-. eauto.
      * by apply Hagain.
Qed.

Lemma keepsCaps_Chr p : keepsCaps (Chr p).
Proof. eapply post_weaken; [apply post_Chr|]. by intros s s' (c & _ & _ & Hc). Qed.

Lemma keepsCaps_Eps : keepsCaps Eps.
Proof. eapply post_weaken; [apply post_Eps|]. by intros s s' ->. Qed.

Lemma keepsCaps_Cat r1 r2 : keepsCaps r1 -> keepsCaps r2 -> keepsCaps (Cat r1 r2).
Proof.
  intros H1 H2. eapply post_weaken; [apply (post_Cat _ _ _ _ H1 H2)|].
  intros s s' (s1 & E1 & E2). simpl in *. congruence.
Qed.

Lemma keepsCaps_Alt r1 r2 : keepsCaps r1 -> keepsCaps r2 -> keepsCaps (Alt r1 r2).
Proof. apply post_Alt. Qed.

Lemma keepsCaps_Str l : keepsCaps (Str l).
Proof.
  induction l as [|c l IH]; simpl; [apply keepsCaps_Eps|].
  apply keepsCaps_Cat; [apply keepsCaps_Chr|exact IH].
Qed.

Lemma post_digits : post (Star true Digit) readDigits.
Proof.
  apply post_Star.
  - intros s. by exists [].
  - intros s1 s2 s3 (d1 & Hd1 & Hb1 & Hc1) (d2 & Hd2 & Hb2 & Hc2).
    exists (d1 ++ d2). split_and!.
    + by apply Forall_app.
    + rewrite Hb2, Hb1, rev_app_distr. by rewrite app_assoc.
    + congruence.
  - eapply post_weaken; [apply post_Chr|].
    intros s s' (c & Hc & Hb & Hcaps). exists [c]. split_and!; [|done..].
    by constructor.
Qed.

(** The first group of [(\d+)rest], when [rest] has no group, holds a
    non-empty run of digits. *)
Lemma post_number rest :
  keepsCaps rest ->
  post (Cat (Group 1 (Plus true Digit)) rest)
    (fun s s' => exists ds, ds <> [] /\ Forall (fun c => isDigit c = true) ds
                            /\ caps s' = (1%nat, ds) :: caps s).
Proof.
  intros Hrest. eapply post_weaken.
  - apply post_Cat; [apply post_Group, post_Cat; [apply post_Chr|apply post_digits]|exact Hrest].
  - intros s s' (s2 & (s1 & (s0 & (c & Hc & Hb0 & Hc0) & (ds & Hds & Hb1 & Hc1)) & Hcap) & Hk).
    simpl in Hk. exists (c :: ds). split_and!; [done|by constructor|].
    rewrite Hk, Hcap. unfold setCap. f_equal; [|congruence]. f_equal.
    unfold consumed. rewrite Hb1, Hb0.
    replace (rev ds ++ c :: before s) with (rev (c :: ds) ++ before s)
      by (simpl; by rewrite <- app_assoc).
    rewrite length_app, Nat.add_sub.
    rewrite take_app_length. apply rev_involutive.
Qed.

Lemma searchFrom_matchAt r bef aft f :
  searchFrom r bef aft = Some f -> exists bef' aft', matchAt r bef' aft' = Some f.
Proof.
  revert bef. induction aft as [|c aft IH]; intros bef; simpl.
  - destruct (matchAt r bef []) eqn:E; [|done]. intros [= <-]. eauto.
  - destruct (matchAt r bef (c :: aft)) eqn:E; [intros [= <-]; eauto|]. apply IH.
Qed.

(** [parseInt] reads a non-empty run of digits as a number that is not
    negative: it is never [NaN] on such a text. *)
Lemma digitsValue_nonneg ds acc : (0 <= acc)%Z ->
  Forall (fun c => isDigit c = true) ds -> (0 <= digitsValue acc ds)%Z.
Proof.
  intros Hacc Hds. revert acc Hacc.
  induction Hds as [|c ds Hc _ IH]; intros acc Hacc; simpl; [done|].
  rewrite Hc. apply IH. unfold digitValue.
  unfold isDigit in Hc. apply andb_true_iff in Hc as [Hlo _].
  apply N.leb_le in Hlo. lia.
Qed.

Lemma parseInt_digits ds :
  ds <> [] -> Forall (fun c => isDigit c = true) ds ->
  exists n, parseInt ds = Some n /\ (0 <= n)%Z.
Proof.
  intros Hne Hds. destruct ds as [|c ds]; [done|].
  apply Forall_cons in Hds as [Hc Hds]. unfold parseInt, trimStart. simpl.
  assert (Hws : isWhitespace c = false).
  { unfold isDigit, isWhitespace in *. apply andb_true_iff in Hc as [Hlo Hhi].
    apply N.leb_le in Hlo. apply N.leb_le in Hhi.
    repeat match goal with
    | |- context [(?a <=? ?b)%N] => destruct (N.leb_spec a b)
    | |- context [(?a =? ?b)%N] => destruct (N.eqb_spec a b)
    end; simpl; try done; lia. }
  rewrite Hws.
  assert (Hm : ascii_eqb c "-" = false /\ ascii_eqb c "+" = false).
  { unfold isDigit, ascii_eqb in *. apply andb_true_iff in Hc as [Hlo Hhi].
    apply N.leb_le in Hlo. apply N.leb_le in Hhi.
    split; apply N.eqb_neq; intros E; rewrite E in *; vm_compute in Hlo; done. }
  destruct Hm as [-> ->]. rewrite Hc. eexists. split; [reflexivity|].
  simpl. rewrite Hc. apply digitsValue_nonneg; [|done].
  unfold digitValue. unfold isDigit in Hc. apply andb_true_iff in Hc as [Hlo _].
  apply N.leb_le in Hlo. lia.
Qed.

(** A match of a pattern [(\d+)rest] captures a number. *)
Lemma exec_number rest line f :
  keepsCaps rest ->
  exec (Cat (Group 1 (Plus true Digit)) rest) line = Some f ->
  exists ds n, group 1 f = Some ds /\ parseInt ds = Some n /\ (0 <= n)%Z.
Proof.
  intros Hrest Hexec. unfold exec in Hexec.
  apply searchFrom_matchAt in Hexec as (bef & aft & Hm). unfold matchAt in Hm.
  destruct (m _ Some _) as [e|] eqn:E; [|done]. injection Hm as <-.
  destruct (post_number rest Hrest _ _ _ E) as (s' & (ds & Hne & Hds & Hcaps) & [= ->]).
  destruct (parseInt_digits ds Hne Hds) as (n & Hn & Hpos).
  exists ds, n. split_and!; [|done..].
  unfold group. simpl. by rewrite Hcaps.
Qed.

End RegexFacts.

(** Closed decidable side conditions are settled by evaluation. *)
Ltac by_evaluation :=
  match goal with |- ?P => apply (bool_decide_unpack P); vm_compute; exact I end.

(** ** The diffstat summary: [parseDiffStats] *)
Section DiffStats.
Import Js Regex GitDiffManager.
Local Open Scope Z_scope.

Lemma keepsCaps_tail word closing :
  keepsCaps (Cat (Str word) (Cat (Opt (Ch "s")) (Str closing))).
Proof.
  apply keepsCaps_Cat; [apply keepsCaps_Str|].
  apply keepsCaps_Cat; [|apply keepsCaps_Str].
  apply keepsCaps_Alt; [apply keepsCaps_Chr|apply keepsCaps_Eps].
Qed.

(** A count read off a match is the number written there. *)
Lemma countOf_number r line f :
  r ∈ [reFilesChanged; reInsertions; reDeletions] ->
  Regex.exec r line = Some f ->
  exists ds n, Regex.group 1 f = Some ds /\ parseInt ds = Some n
               /\ countOf (Some f) = n /\ 0 <= n.
Proof.
  intros Hr Hexec.
  assert (exists ds n, Regex.group 1 f = Some ds /\ parseInt ds = Some n /\ 0 <= n)
    as (ds & n & Hg & Hn & Hpos).
  { rewrite !elem_of_cons in Hr. destruct Hr as [->|[->|[->|Hr]]].
    - apply (exec_number _ line f (keepsCaps_tail _ _) Hexec).
    - apply (exec_number _ line f (keepsCaps_tail _ _) Hexec).
    - apply (exec_number _ line f (keepsCaps_tail _ _) Hexec).
    - by apply elem_of_nil in Hr. }
  exists ds, n. split_and!; try done. unfold countOf. rewrite Hg. simpl. by rewrite Hn.
Qed.

Lemma countOf_nonneg r line :
  r ∈ [reFilesChanged; reInsertions; reDeletions] ->
  0 <= countOf (Regex.exec r line).
Proof.
  intros Hr. destruct (Regex.exec r line) as [f|] eqn:E; [|done].
  destruct (countOf_number r line f Hr E) as (ds & n & _ & _ & -> & Hn). done.
Qed.

(** C3.  [parseDiffStats] reads the last line of its input that is not
    blank (up to the white space around it); each of the three counts is the
    number captured by its pattern on that line ([parseInt] of a run of
    digits, never [NaN] and never negative), and 0 when the pattern does not
    match; a blank or empty input gives three zeros; the function is total.
    The three examples of the specification follow. *)
Theorem parseDiffStats_spec :
  (forall above L below : jstring,
      (above = [] \/ exists a, above = a ++ [LF]) ->
      oneLine L -> ~ blank L -> blank below ->
      summaryLine (above ++ L ++ below)
      = trimEnd (if bool_decide (blank above) then trimStart L else L))
  /\ (forall s,
        parseDiffStats s
        = {| filesChanged := countOf (Regex.exec reFilesChanged (summaryLine s));
             additions := countOf (Regex.exec reInsertions (summaryLine s));
             deletions := countOf (Regex.exec reDeletions (summaryLine s)) |})
  /\ (forall r line f,
        r ∈ [reFilesChanged; reInsertions; reDeletions] ->
        Regex.exec r line = Some f ->
        exists ds n, Regex.group 1 f = Some ds /\ parseInt ds = Some n
                     /\ countOf (Some f) = n /\ 0 <= n)
  /\ countOf None = 0
  /\ (forall s, blank s -> parseDiffStats s = mkStats 0 0 0)
  /\ parseDiffStats (lit "3 files changed, 45 insertions(+), 12 deletions(-)")
     = {| filesChanged := 3; additions := 45; deletions := 12 |}
  /\ parseDiffStats (lit "") = {| filesChanged := 0; additions := 0; deletions := 0 |}
  /\ parseDiffStats (lit "1 file changed, 2 insertions(+)")
     = {| filesChanged := 1; additions := 2; deletions := 0 |}.
Proof.
  split_and!.
  - apply summaryLine_last_nonblank.
  - reflexivity.
  - apply countOf_number.
  - reflexivity.
  - intros s Hs. unfold parseDiffStats, summaryLine. by rewrite (trim_blank s Hs).
  - vm_compute. reflexivity.
  - vm_compute. reflexivity.
  - vm_compute. reflexivity.
Qed.

(** The output of [git diff --stat] for one file: the per-file line, the
    summary line, and a blank line after it. *)
Lemma parseDiffStats_spec_witness :
  summaryLine (unlines [lit " a.txt | 4 +++-"]
               ++ lit " 1 file changed, 3 insertions(+), 1 deletion(-)  "
               ++ [LF; LF])
  = lit " 1 file changed, 3 insertions(+), 1 deletion(-)".
Proof.
  apply (proj1 parseDiffStats_spec).
  - right. by exists (lit " a.txt | 4 +++-").
  - by_evaluation.
  - by_evaluation.
  - by_evaluation.
Defined.

End DiffStats.

(** ** Counting the lines of a file: [content.split(/\r?\n/).length] *)
Section LineCount.
Import Js Regex GitDiffManager.

Lemma ascii_eqb_refl c : ascii_eqb c c = true.
Proof. by apply ascii_eqb_eq. Qed.

Lemma ascii_eqb_neq a b : a <> b -> ascii_eqb a b = false.
Proof.
  intros Hne. destruct (ascii_eqb a b) eqn:E; [|done]. by apply ascii_eqb_eq in E.
Qed.

(** The three ways the separator meets a position: a line feed, a carriage
    return followed by a line feed, anything else. *)
Lemma matchAt_LF bef rest :
  matchAt reNewline bef (LF :: rest)
  = Some (mkFound (mkPos bef (LF :: rest) []) (mkPos (LF :: bef) rest [])).
Proof. reflexivity. Qed.

Lemma matchAt_CRLF bef rest :
  matchAt reNewline bef (CR :: LF :: rest)
  = Some (mkFound (mkPos bef (CR :: LF :: rest) []) (mkPos (LF :: CR :: bef) rest [])).
Proof. reflexivity. Qed.

Lemma matchAt_other bef c rest :
  c <> LF -> (c = CR -> forall r, rest <> LF :: r) ->
  matchAt reNewline bef (c :: rest) = None.
Proof.
  intros Hc Hcr. unfold matchAt, reNewline, Opt, Ch. simpl.
  rewrite (ascii_eqb_neq LF c) by done.
  destruct (ascii_eqb CR c) eqn:E; [|done].
  apply ascii_eqb_eq in E. subst c.
  destruct rest as [|c2 rest]; [done|].
  destruct (ascii_eqb LF c2) eqn:E2; [|done].
  apply ascii_eqb_eq in E2. subst c2. by destruct (Hcr eq_refl rest).
Qed.

Lemma consumed_one bef c rest1 rest2 caps1 caps2 :
  consumed (mkPos bef rest1 caps1) (mkPos (c :: bef) rest2 caps2) = [c].
Proof.
  unfold consumed. simpl. replace (S (length bef) - length bef)%nat with 1%nat by lia.
  reflexivity.
Qed.

Lemma consumed_two bef c1 c2 rest1 rest2 caps1 caps2 :
  consumed (mkPos bef rest1 caps1) (mkPos (c2 :: c1 :: bef) rest2 caps2) = [c1; c2].
Proof.
  unfold consumed. simpl.
  replace (S (S (length bef)) - length bef)%nat with 2%nat by lia.
  reflexivity.
Qed.

Lemma newlines_cons c s :
  newlines (c :: s) = if decide (c = LF) then S (newlines s) else newlines s.
Proof. unfold newlines. rewrite filter_cons. by case_decide. Qed.

(** With fuel for every position, splitting on the separator cuts the text
    once per line feed. *)
Lemma splitGo_newlines fuel :
  forall aft cur bef,
    (2 * length aft < fuel)%nat ->
    length (splitGo reNewline cur bef aft fuel) = S (newlines aft).
Proof.
  induction fuel as [|fuel IH]; intros aft cur bef Hfuel; [lia|].
  destruct aft as [|c aft]; [done|]. simpl in Hfuel.
  cbn [splitGo]. rewrite newlines_cons.
  destruct (decide (c = LF)) as [->|Hc].
  - rewrite matchAt_LF. unfold matched. cbn [m_start m_end].
    rewrite consumed_one. cbn [before after length]. rewrite IH by lia. done.
  - destruct (decide (c = CR)) as [->|Hcr].
    + destruct aft as [|c2 aft].
      * rewrite matchAt_other by done. rewrite IH by (simpl; lia). done.
      * destruct (decide (c2 = LF)) as [->|Hc2].
        -- rewrite matchAt_CRLF. unfold matched. cbn [m_start m_end].
           rewrite consumed_two. cbn [before after length].
           rewrite IH by (simpl in *; lia). rewrite newlines_cons.
           by rewrite decide_True.
        -- rewrite matchAt_other; [|done|intros _ r [= ]; done].
           rewrite IH by (simpl in *; lia). done.
    + rewrite matchAt_other; [|done|done]. rewrite IH by lia. done.
Qed.

(** The line count of the code is 0 for the empty content and the number
    of line feeds plus one for any other. *)
Lemma lineCount_count content :
  lineCount content
  = match content with
    | [] => 0%Z
    | _ => Z.of_nat (S (newlines content))
    end.
Proof.
  destruct content as [|c content]; [done|].
  unfold lineCount, split. cbn [length Nat.eqb].
  rewrite splitGo_newlines; [done|]. simpl. lia.
Qed.

(** The line count of the code is 0 for the empty content and the number of
    line feeds plus one for any other. *)
Theorem lineCount_newlines (content : jstring) :
  lineCount content
  = match content with
    | [] => 0%Z
    | _ => Z.of_nat (S (newlines content))
    end.
Proof. apply lineCount_count. Qed.

Lemma newlines_app a b : newlines (a ++ b) = (newlines a + newlines b)%nat.
Proof. unfold newlines. by rewrite filter_app, length_app. Qed.

Lemma newlines_oneLine l : oneLine l -> newlines l = 0%nat.
Proof.
  induction 1 as [|c l Hc _ IH]; [done|].
  rewrite newlines_cons. by rewrite decide_False.
Qed.

Lemma newlines_unlines ls : Forall oneLine ls -> newlines (unlines ls) = length ls.
Proof.
  induction 1 as [|l ls Hl _ IH]; [done|].
  unfold unlines in *. simpl. rewrite !newlines_app, IH, (newlines_oneLine l Hl).
  rewrite newlines_cons, decide_True by done. simpl. lia.
Qed.

(** A file of [n >= 1] lines, each closed by a line feed, counts for
    [n + 1] lines. *)
Lemma lineCount_newline_terminated (ls : list jstring) :
  ls <> [] -> Forall oneLine ls ->
  lineCount (unlines ls) = (Z.of_nat (length ls) + 1)%Z.
Proof.
  intros Hne Hls. rewrite lineCount_count, (newlines_unlines ls Hls).
  destruct (unlines ls) eqn:Hu; [|lia].
  destruct ls as [|l ls]; [done|]. unfold unlines in Hu. simpl in Hu.
  by destruct l.
Qed.

Lemma lineCount_newline_terminated_witness :
  lineCount (unlines [lit "1"; lit "2"; lit "3"; lit "4"; lit "5"]) = (Z.of_nat 5 + 1)%Z.
Proof.
  apply (lineCount_newline_terminated [lit "1"; lit "2"; lit "3"; lit "4"; lit "5"]).
  - done.
  - by_evaluation.
Defined.

End LineCount.

(** ** Statistics of the working tree: [getDiffStats] *)
Section WorkingTreeStats.
Import Js GitDiffManager.
Local Open Scope Z_scope.

Lemma getUntrackedFiles_clean env worktreePath file :
  file ∈ getUntrackedFiles env worktreePath ->
  negb (truthy file) || (length (trim file) =? 0)%nat = false.
Proof.
  unfold getUntrackedFiles.
  destruct (execSync env _ worktreePath) as [output|]; [|by intros ?%elem_of_nil].
  destruct (negb (truthy output) || _); [by intros ?%elem_of_nil|].
  intros [Hf _]%list_elem_of_filter. unfold nonEmpty in Hf.
  apply Is_true_true, andb_true_iff in Hf as [Ht Hn].
  rewrite Ht. simpl. apply Nat.ltb_lt in Hn. apply Nat.eqb_neq. lia.
Qed.

Lemma untrackedAdditions_sum env worktreePath files acc :
  (forall file, file ∈ files ->
                negb (truthy file) || (length (trim file) =? 0)%nat = false) ->
  fold_left
    (fun acc file =>
       if negb (truthy file) || (length (trim file) =? 0)%nat then acc
       else match readFileSync env (path_join env worktreePath (trim file)) with
            | Ok content => acc + lineCount content
            | Throw _ => acc
            end) files acc
  = acc + sumZ (map (untrackedLines env worktreePath) files).
Proof.
  revert acc. induction files as [|f files IH]; intros acc Hclean; simpl; [lia|].
  rewrite (Hclean f) by (apply elem_of_cons; by left).
  rewrite IH by (intros file Hfile; apply Hclean, elem_of_cons; by right).
  unfold untrackedLines. destruct (readFileSync env _); lia.
Qed.

(** The statistics of the working tree are the parsed statistics of the
    tracked changes, plus the line count of every untracked file that can be
    read as additions, plus one changed file per untracked file, readable or
    not; the deletions are those of the tracked changes. *)
Theorem getDiffStats_untracked (env : Env) (worktreePath output : jstring) :
  execSync env (lit "git diff --stat HEAD") worktreePath = Ok output ->
  let trackedStats := parseDiffStats output in
  let untrackedFiles := getUntrackedFiles env worktreePath in
  getDiffStats env worktreePath
  = {| additions := additions trackedStats
                    + sumZ (map (untrackedLines env worktreePath) untrackedFiles);
       deletions := deletions trackedStats;
       filesChanged := filesChanged trackedStats + Z.of_nat (length untrackedFiles) |}.
Proof.
  intros Hout trackedStats untrackedFiles. unfold getDiffStats. rewrite Hout.
  fold trackedStats untrackedFiles.
  destruct (0 <? length untrackedFiles)%nat eqn:Hlen.
  - rewrite untrackedAdditions_sum; [done|].
    intros file. apply getUntrackedFiles_clean.
  - apply Nat.ltb_ge in Hlen. destruct untrackedFiles; [|simpl in Hlen; lia].
    destruct trackedStats. simpl. f_equal; lia.
Qed.

(** The statistics of [captureWorkingDirectoryDiff] are those of
    [getDiffStats]. *)
Lemma captureWorkingDirectoryDiff_stats env worktreePath :
  exists r, captureWorkingDirectoryDiff env worktreePath = Ok r
            /\ stats r = getDiffStats env worktreePath.
Proof. eexists. split; reflexivity. Qed.

(** C6 on a file of five lines, each closed by a line feed: the code counts
    six lines and reports 9 additions, not the 8 of the specification's
    example. *)
Theorem getDiffStats_five_lines_newline_terminated :
  getDiffStats
    (oneUntracked (unlines [lit "1"; lit "2"; lit "3"; lit "4"; lit "5"])) (lit "/repo")
  = {| additions := 9; deletions := 1; filesChanged := 2 |}.
Proof. vm_compute. reflexivity. Qed.

(** The same five lines without a line feed after the last one: 8 additions. *)
Lemma getDiffStats_five_lines_unterminated :
  getDiffStats
    (oneUntracked (join [LF] [lit "1"; lit "2"; lit "3"; lit "4"; lit "5"])) (lit "/repo")
  = {| additions := 8; deletions := 1; filesChanged := 2 |}.
Proof. vm_compute. reflexivity. Qed.

Lemma getDiffStats_untracked_witness :
  getDiffStats (oneUntracked (lit "x")) (lit "/repo")
  = {| additions := 3 + sumZ [1]; deletions := 1; filesChanged := 1 + 1 |}.
Proof.
  apply (getDiffStats_untracked (oneUntracked (lit "x")) (lit "/repo")
           (unlines [lit " tracked.txt | 4 +++-";
                     lit " 1 file changed, 3 insertions(+), 1 deletion(-)"])).
  reflexivity.
Defined.

End WorkingTreeStats.

(** ** The two parsers of unified diffs *)
Section Parsers.
Import Js.
Local Open Scope Z_scope.

Lemma collect_from {A} (body : jstring -> option A * list diagnostic) secs files console :
  fold_left
    (fun st fileContent =>
       let '(pushed, diags) := body fileContent in
       (st.1 ++ option_list pushed, st.2 ++ diags))
    secs (files, console)
  = (files ++ omap (fun sec => (body sec).1) secs,
     console ++ concat (map (fun sec => (body sec).2) secs)).
Proof.
  revert files console. induction secs as [|sec secs IH]; intros files console; simpl.
  - by rewrite !app_nil_r.
  - csimpl. destruct (body sec) as [pushed diags] eqn:Hb. simpl. rewrite IH.
    destruct pushed; simpl; by rewrite <- !app_assoc.
Qed.

(** The records come out in the order of their sections; a section that the
    body skips leaves no record. *)
Lemma collect_spec {A} (body : jstring -> option A * list diagnostic) secs :
  collect body secs
  = (omap (fun sec => (body sec).1) secs, concat (map (fun sec => (body sec).2) secs)).
Proof. unfold collect. by rewrite collect_from. Qed.

Lemma dropWhile_nil_Forall p s : dropWhile p s = [] -> Forall (fun c => p c = true) s.
Proof.
  induction s as [|c s IH]; simpl; [constructor|].
  destruct (p c) eqn:Hc; [|done]. intros H. constructor; auto.
Qed.

Lemma trim_nil_blank s : trim s = [] -> blank s.
Proof.
  unfold trim, trimEnd. intros H.
  assert (Hd : dropWhile isWhitespace (rev (trimStart s)) = []).
  { rewrite <- (rev_involutive (dropWhile _ _)). by rewrite H. }
  apply dropWhile_nil_Forall, (proj2 (blank_rev _)) in Hd.
  unfold trimStart in Hd. clear H.
  induction s as [|c s IH]; [constructor|]. simpl in Hd.
  destruct (isWhitespace c) eqn:Hc.
  - apply Forall_cons. split; [exact Hc | exact (IH Hd)].
  - apply Forall_cons in Hd as [Hd _]. congruence.
Qed.

(** The guard at the head of both parsers lets exactly the texts through
    that are not blank. *)
Lemma guard_blank s :
  negb (truthy s) || (length (trim s) =? 0)%nat = bool_decide (blank s).
Proof.
  case_bool_decide as Hb.
  - rewrite (trim_blank s Hb). simpl. apply orb_true_r.
  - destruct s as [|c s]; [destruct Hb; constructor|]. simpl.
    destruct (trim (c :: s)) eqn:Ht; [|done].
    destruct Hb. by apply trim_nil_blank.
Qed.

(** Whatever the diff, the viewer's parser returns the records of some list
    of sections, in their order. *)
Lemma parseUnifiedDiff_sections diff maxBytes :
  DiffViewer.parseUnifiedDiffLog diff maxBytes
  = if bool_decide (blank diff) then ([], [])
    else match DiffViewer.fileSections diff with
         | None =>
             ([], [mkDiag Warn (lit "parseUnifiedDiff: No file matches found in diff") []])
         | Some secs =>
             (omap (fun sec => (DiffViewer.parseSection maxBytes sec).1) secs,
              concat (map (fun sec => (DiffViewer.parseSection maxBytes sec).2) secs))
         end.
Proof.
  unfold DiffViewer.parseUnifiedDiffLog. rewrite guard_blank.
  case_bool_decide; [done|]. destruct (DiffViewer.fileSections diff); [|done].
  apply collect_spec.
Qed.

Lemma parseFilesFromDiff_sections diff :
  DiffParser.parseFilesFromDiffLog diff
  = if bool_decide (blank diff) then ([], [])
    else match DiffParser.fileSections diff with
         | None =>
             ([], [mkDiag Warn (lit "parseFilesFromDiff: No file matches found in diff") []])
         | Some secs =>
             (omap (fun sec => (DiffParser.parseBlock sec).1) secs,
              concat (map (fun sec => (DiffParser.parseBlock sec).2) secs))
         end.
Proof.
  unfold DiffParser.parseFilesFromDiffLog. rewrite guard_blank.
  case_bool_decide; [done|]. destruct (DiffParser.fileSections diff); [|done].
  apply collect_spec.
Qed.

(** C4.  A section whose first line names no pair of paths is not always
    skipped by [parseFilesFromDiff].  Its last pattern lets the white space
    between the two names run over a line feed, so when lines follow the
    broken first line it takes the rest of the first line for the old path
    and the second line for the new one: the section gives a record and no
    diagnostic.  The viewer's parser, on the same section, gives no record
    and one warning, and [parseFilesFromDiff] itself skips the broken first
    line with a warning when nothing follows it. *)
Theorem broken_header_section_is_not_skipped :
  DiffParser.parseFilesFromDiffLog brokenHeader
  = ([DiffParser.mkParsedFile (lit "index 1..2 100644") (lit "broken") modified 1 1 false],
     [])
  /\ DiffViewer.parseUnifiedDiffLog brokenHeader 1000
     = ([], [mkDiag Warn (lit "Could not parse file names from diff:") brokenHeader])
  /\ DiffParser.parseFilesFromDiffLog (unlines [lit "diff --git broken"])
     = ([], [mkDiag Warn (lit "Could not parse file names from diff block:")
               (unlines [lit "diff --git broken"])]).
Proof. vm_compute. by split_and!. Qed.

(** The viewer's parser returns the two sections it can read, in order, and
    warns about the third. *)
Example parseUnifiedDiff_three_sections :
  DiffViewer.parseUnifiedDiffLog threeSections 1000
  = ([DiffViewer.mkFileDiff (lit "foo.txt") (lit "foo.txt")
        (unlines [lit "ctx"; lit "old"]) (unlines [lit "ctx"; lit "new"; lit "new2"])
        modified false 2 1 false 114;
      DiffViewer.mkFileDiff (lit "bin.png") (lit "bin.png") [] [] modified true 0 0 false 75],
     [mkDiag Warn (lit "Could not parse file names from diff:")
        (unlines [lit "diff --git broken"])]).
Proof. vm_compute. reflexivity. Qed.

Example parseFilesFromDiff_three_sections :
  DiffParser.parseFilesFromDiffLog threeSections
  = ([DiffParser.mkParsedFile (lit "foo.txt") (lit "foo.txt") modified 2 1 false;
      DiffParser.mkParsedFile (lit "bin.png") (lit "bin.png") modified 0 0 true],
     [mkDiag Warn (lit "Could not parse file names from diff block:")
        (unlines [lit "diff --git broken"])]).
Proof. vm_compute. reflexivity. Qed.

Lemma parseSection_binary maxBytes sec f :
  (DiffViewer.parseSection maxBytes sec).1 = Some f ->
  DiffViewer.isBinary f = true ->
  DiffViewer.additions f = 0 /\ DiffViewer.deletions f = 0
  /\ DiffViewer.oldValue f = [] /\ DiffViewer.newValue f = [].
Proof.
  unfold DiffViewer.parseSection. intros Hf Hb.
  repeat case_match; simpl in *; simplify_eq; simpl in *; done.
Qed.

Lemma parseBlock_binary sec f :
  (DiffParser.parseBlock sec).1 = Some f ->
  DiffParser.isBinary f = true ->
  DiffParser.additions f = 0 /\ DiffParser.deletions f = 0.
Proof.
  unfold DiffParser.parseBlock.
  destruct (DiffParser.parseFileNameFromDiff sec) as [[oldPath newPath]|]; [|done].
  destruct (negb (truthy _)); [done|]. simpl.
  intros [= <-]. simpl. by intros ->.
Qed.

(** C5.  Every record returned by either parser with [isBinary = true] has
    zero additions and zero deletions (and, in the viewer's parser, empty
    old and new contents: the lines of the section are not scanned). *)
Theorem binary_records_have_zero_counts :
  (forall diff maxBytes f,
      f ∈ DiffViewer.parseUnifiedDiff diff maxBytes ->
      DiffViewer.isBinary f = true ->
      DiffViewer.additions f = 0 /\ DiffViewer.deletions f = 0
      /\ DiffViewer.oldValue f = [] /\ DiffViewer.newValue f = [])
  /\ (forall diff f,
        f ∈ DiffParser.parseFilesFromDiff diff ->
        DiffParser.isBinary f = true ->
        DiffParser.additions f = 0 /\ DiffParser.deletions f = 0).
Proof.
  split.
  - intros diff maxBytes f Hin Hb. unfold DiffViewer.parseUnifiedDiff in Hin.
    rewrite parseUnifiedDiff_sections in Hin.
    case_bool_decide; [by apply elem_of_nil in Hin|].
    destruct (DiffViewer.fileSections diff) as [secs|]; [|by apply elem_of_nil in Hin].
    simpl in Hin. apply list_elem_of_omap in Hin as (sec & _ & Hsec).
    by apply (parseSection_binary maxBytes sec).
  - intros diff f Hin Hb. unfold DiffParser.parseFilesFromDiff in Hin.
    rewrite parseFilesFromDiff_sections in Hin.
    case_bool_decide; [by apply elem_of_nil in Hin|].
    destruct (DiffParser.fileSections diff) as [secs|]; [|by apply elem_of_nil in Hin].
    simpl in Hin. apply list_elem_of_omap in Hin as (sec & _ & Hsec).
    by apply (parseBlock_binary sec).
Qed.

(** The binary section of [threeSections] in both parsers. *)
Lemma binary_records_have_zero_counts_witness :
  (DiffViewer.additions
     (DiffViewer.mkFileDiff (lit "bin.png") (lit "bin.png") [] [] modified true 0 0 false 75) = 0
   /\ DiffViewer.deletions
        (DiffViewer.mkFileDiff (lit "bin.png") (lit "bin.png") [] [] modified true 0 0 false 75) = 0
   /\ True /\ True)
  /\ (DiffParser.additions
        (DiffParser.mkParsedFile (lit "bin.png") (lit "bin.png") modified 0 0 true) = 0
      /\ DiffParser.deletions
           (DiffParser.mkParsedFile (lit "bin.png") (lit "bin.png") modified 0 0 true) = 0).
Proof.
  split.
  - destruct (proj1 binary_records_have_zero_counts threeSections 1000
                (DiffViewer.mkFileDiff (lit "bin.png") (lit "bin.png") [] [] modified true
                   0 0 false 75)) as (Ha & Hd & _ & _).
    + unfold DiffViewer.parseUnifiedDiff. rewrite parseUnifiedDiff_three_sections.
      simpl. apply elem_of_cons. right. apply elem_of_cons. by left.
    + reflexivity.
    + by split_and!.
  - apply (proj2 binary_records_have_zero_counts threeSections).
    + unfold DiffParser.parseFilesFromDiff. rewrite parseFilesFromDiff_three_sections.
      simpl. apply elem_of_cons. right. apply elem_of_cons. by left.
    + reflexivity.
Defined.

End Parsers.

(** ** The watcher: checks, retries and backoff *)
Section Backoff.
Import Js GitFileWatcher.
Local Open Scope Z_scope.

Lemma transient_inconclusive env worktreePath :
  transient env worktreePath -> checkIfRefreshNeeded env worktreePath = None.
Proof.
  intros H. unfold checkIfRefreshNeeded.
  destruct (execSync env cmdInsideWorkTree worktreePath) eqn:E1; [|done].
  destruct (negb _); [done|].
  destruct (execSync env cmdGitDir worktreePath) eqn:E2; [|done].
  destruct (existsSync env _) eqn:E3; [done|].
  destruct (execSync env cmdUpdateIndex worktreePath) eqn:E4; [|done].
  destruct (execSync env cmdDiffFiles worktreePath) eqn:E5;
    destruct (execSync env cmdDiffIndex worktreePath) eqn:E6;
    destruct (execSync env cmdUntracked worktreePath) eqn:E7; try done;
    exfalso;
    destruct H as [[? H]|[[? H]|[(? & H & Hl)|[[? H]|(? & ? & ? & H1 & H2 & H3)]]]];
    congruence.
Qed.

(** What [retryLater] leaves behind. *)
Lemma retryLater_fields sessionId st :
  let st' := retryLater sessionId st in
  watchedSessions st' = alter (setPending true) sessionId (watchedSessions st)
  /\ errorCounts st' = <[sessionId := streak st sessionId + 1]> (errorCounts st)
  /\ refreshDebounceTimers st'
     = <[sessionId := nextTimeout st]> (refreshDebounceTimers st)
  /\ timeouts st' !! nextTimeout st
     = Some (sessionId, backoffDelay (streak st sessionId + 1))
  /\ openWatchers st' = openWatchers st
  /\ nextWatcher st' = nextWatcher st
  /\ emitted st' = emitted st.
Proof.
  unfold retryLater, getBackoffDelay, markPending, scheduleRefreshCheckWithDelay,
    setTimeout, setTimers, setSessions, setErrorCounts, clearTimeout, streak.
  simpl. destruct (refreshDebounceTimers st !! sessionId); simpl;
    split_and!; try done; apply lookup_insert_eq.
Qed.

Lemma performRefreshCheck_inconclusive env sessionId st session :
  watchedSessions st !! sessionId = Some session ->
  pendingRefresh session = true ->
  checkIfRefreshNeeded env (worktreePath session) = None ->
  performRefreshCheck env sessionId st
  = retryLater sessionId (markPending sessionId false st).
Proof.
  intros Hs Hp Hc. unfold performRefreshCheck. by rewrite Hs, Hp, Hc.
Qed.

(** What a check without answer leaves behind. *)
Lemma inconclusive_check_fields env sessionId st session :
  watchedSessions st !! sessionId = Some session ->
  pendingRefresh session = true ->
  checkIfRefreshNeeded env (worktreePath session) = None ->
  let st' := performRefreshCheck env sessionId st in
  watchedSessions st' !! sessionId = Some (setPending true session)
  /\ errorCounts st' !! sessionId = Some (streak st sessionId + 1)
  /\ refreshDebounceTimers st' !! sessionId = Some (nextTimeout st)
  /\ timeouts st' !! nextTimeout st
     = Some (sessionId, backoffDelay (streak st sessionId + 1))
  /\ emitted st' = emitted st.
Proof.
  intros Hs Hp Hc st'. unfold st'.
  rewrite (performRefreshCheck_inconclusive env sessionId st session Hs Hp Hc).
  destruct (retryLater_fields sessionId (markPending sessionId false st))
    as (Hss & He & Ht & Hto & _ & _ & Hem).
  split_and!.
  - rewrite Hss. unfold markPending. simpl.
    rewrite !lookup_alter_eq, Hs. simpl. by destruct session.
  - rewrite He. apply lookup_insert_eq.
  - rewrite Ht. apply lookup_insert_eq.
  - exact Hto.
  - exact Hem.
Qed.

(** C8, as stated, fails at the two quiet checks: a gateway call that fails
    there, for whatever reason (here [git diff-files] crashes), is read
    as "there are changes".  The event is emitted, the session is no longer
    pending, and no retry is scheduled. *)
Lemma failed_quiet_check_is_read_as_changed :
  let st := watchedAndChanged diffFilesCrashes in
  let st' := performRefreshCheck diffFilesCrashes (lit "s1") st in
  execSync diffFilesCrashes cmdDiffFiles (lit "/repo")
  = Throw diffFilesCrash
  /\ (pendingRefresh <$> watchedSessions st !! lit "s1") = Some true
  /\ emitted st' = [lit "s1"]
  /\ (pendingRefresh <$> watchedSessions st' !! lit "s1") = Some false
  /\ errorCounts st' !! lit "s1" = None.
Proof. vm_compute. by split_and!. Qed.

(** A failing quiet check is the answer "there are changes". *)
Lemma quietCheckFails_changed env worktreePath :
  quietCheckFails env worktreePath -> checkIfRefreshNeeded env worktreePath = Some true.
Proof.
  intros [(inside & gitDirOutput & refreshed & H1 & Ht & H2 & H3 & H4) Hq].
  unfold checkIfRefreshNeeded. rewrite H1, Ht, H2, H3, H4.
  rewrite bool_decide_eq_true_2 by done. cbn [negb].
  destruct Hq as [[e He]|(out & e & Ho & He)].
  - by rewrite He.
  - by rewrite Ho, He.
Qed.

(** What a check with the answer "there are changes" leaves behind. *)
Lemma changed_check_fields env sessionId st session :
  watchedSessions st !! sessionId = Some session ->
  pendingRefresh session = true ->
  checkIfRefreshNeeded env (worktreePath session) = Some true ->
  let st' := performRefreshCheck env sessionId st in
  emitted st' = emitted st ++ [sessionId]
  /\ (listeners env sessionId = Ok tt ->
      (pendingRefresh <$> watchedSessions st' !! sessionId) = Some false
      /\ errorCounts st' !! sessionId = None
      /\ refreshDebounceTimers st' = refreshDebounceTimers st
      /\ timeouts st' = timeouts st)
  /\ (forall e, listeners env sessionId = Throw e ->
        (pendingRefresh <$> watchedSessions st' !! sessionId) = Some true
        /\ errorCounts st' !! sessionId = Some 1
        /\ scheduledDelay st' sessionId = Some 1000).
Proof.
  intros Hs Hp Hc st'. unfold st', performRefreshCheck. rewrite Hs, Hp, Hc.
  cbn [negb]. unfold emit.
  set (st1 := resetBackoff sessionId (markPending sessionId false st)).
  set (st2 := mkState (watchedSessions st1) (refreshDebounceTimers st1) (errorCounts st1)
                (openWatchers st1) (nextWatcher st1) (timeouts st1) (nextTimeout st1)
                (emitted st1 ++ [sessionId])).
  assert (Hs2 : watchedSessions st2 !! sessionId = Some (setPending false session)).
  { unfold st2, st1, resetBackoff, markPending. simpl. by rewrite lookup_alter_eq, Hs. }
  assert (He2 : errorCounts st2 !! sessionId = None).
  { unfold st2, st1, resetBackoff. simpl. apply lookup_delete_eq. }
  assert (Hem2 : emitted st2 = emitted st ++ [sessionId]) by done.
  assert (Htm2 : refreshDebounceTimers st2 = refreshDebounceTimers st) by done.
  assert (Hto2 : timeouts st2 = timeouts st) by done.
  clearbody st2. clear st1.
  destruct (listeners env sessionId) as [[]|e] eqn:Hl.
  - split_and!; [done| |by intros e [=]].
    intros _. split_and!; [by rewrite Hs2|done|done|done].
  - destruct (retryLater_fields sessionId st2) as (Hss & Hec & Ht & Hto & _ & _ & Hem).
    assert (Hstreak : streak st2 sessionId = 0) by (unfold streak; by rewrite He2).
    rewrite Hstreak in Hec, Hto.
    split_and!; [by rewrite Hem|by intros [=]|].
    intros e' _. split_and!.
    + rewrite Hss, lookup_alter_eq, Hs2. done.
    + rewrite Hec. apply lookup_insert_eq.
    + unfold scheduledDelay. rewrite Ht, lookup_insert_eq. cbn [mbind option_bind].
      by rewrite Hto.
Qed.

(** C8, amended.  When the check of a pending session meets a transient
    state (a failing call among the first three, the lock file, a failing
    list of untracked files after both quiet checks passed), it gives no
    answer; then no event is emitted, the session is pending again, the
    failure is counted instead of a definitive result being recorded, and
    the retry is armed with the backoff delay.  When the check reaches the
    two quiet checks and one of them fails, whatever the cause, the answer
    is "there are changes": the event is emitted; when its listeners
    return, the session is no longer pending, no failure is counted and no
    timer is armed or cleared; when a listener throws, the session is
    pending again, one failure is counted and the retry is armed with
    1000 ms.  [performRefreshCheck] is a total function of the state: no
    failure reaches its caller. *)
Theorem transient_check_retries_with_backoff (env : Env) (st : State)
    (sessionId : jstring) (session : WatchedSession) :
  watchedSessions st !! sessionId = Some session ->
  pendingRefresh session = true ->
  let st' := performRefreshCheck env sessionId st in
  (transient env (worktreePath session) ->
   checkIfRefreshNeeded env (worktreePath session) = None
   /\ emitted st' = emitted st
   /\ (pendingRefresh <$> watchedSessions st' !! sessionId) = Some true
   /\ errorCounts st' !! sessionId = Some (streak st sessionId + 1)
   /\ scheduledDelay st' sessionId = Some (backoffDelay (streak st sessionId + 1)))
  /\ (quietCheckFails env (worktreePath session) ->
      checkIfRefreshNeeded env (worktreePath session) = Some true
      /\ emitted st' = emitted st ++ [sessionId]
      /\ (listeners env sessionId = Ok tt ->
          (pendingRefresh <$> watchedSessions st' !! sessionId) = Some false
          /\ errorCounts st' !! sessionId = None
          /\ refreshDebounceTimers st' = refreshDebounceTimers st
          /\ timeouts st' = timeouts st)
      /\ (forall e, listeners env sessionId = Throw e ->
            (pendingRefresh <$> watchedSessions st' !! sessionId) = Some true
            /\ errorCounts st' !! sessionId = Some 1
            /\ scheduledDelay st' sessionId = Some 1000)).
Proof.
  intros Hs Hp st'. split.
  - intros Htr.
    pose proof (transient_inconclusive env _ Htr) as Hc.
    destruct (inconclusive_check_fields env sessionId st session Hs Hp Hc)
      as (Hss & He & Ht & Hto & Hem).
    fold st' in Hss, He, Ht, Hto, Hem.
    split_and!; try done.
    + by rewrite Hss.
    + unfold scheduledDelay. rewrite Ht. simpl. by rewrite Hto.
  - intros Hq.
    pose proof (quietCheckFails_changed env _ Hq) as Hc.
    split; [done|].
    apply (changed_check_fields env sessionId st session Hs Hp Hc).
Qed.

(** The check of a pending session against a locked index, and against a
    repository in which [git diff-files] crashes. *)
Lemma transient_check_retries_with_backoff_witness :
  (let st := watchedAndChanged lockedWorld in
   let st' := performRefreshCheck lockedWorld (lit "s1") st in
   checkIfRefreshNeeded lockedWorld (lit "/repo") = None
   /\ emitted st' = emitted st
   /\ (pendingRefresh <$> watchedSessions st' !! lit "s1") = Some true
   /\ errorCounts st' !! lit "s1" = Some (streak st (lit "s1") + 1)
   /\ scheduledDelay st' (lit "s1") = Some (backoffDelay (streak st (lit "s1") + 1)))
  /\ (let st := watchedAndChanged diffFilesCrashes in
      let st' := performRefreshCheck diffFilesCrashes (lit "s1") st in
      checkIfRefreshNeeded diffFilesCrashes (lit "/repo") = Some true
      /\ emitted st' = emitted st ++ [lit "s1"]
      /\ (pendingRefresh <$> watchedSessions st' !! lit "s1") = Some false).
Proof.
  split.
  - apply (transient_check_retries_with_backoff lockedWorld (watchedAndChanged lockedWorld)
             (lit "s1") (mkSession (lit "s1") (lit "/repo") (Some 0%nat) 0 true)).
    + vm_compute. reflexivity.
    + reflexivity.
    + right. right. left. exists (unlines [lit ".git"]). split; vm_compute; reflexivity.
  - destruct (transient_check_retries_with_backoff diffFilesCrashes
                (watchedAndChanged diffFilesCrashes) (lit "s1")
                (mkSession (lit "s1") (lit "/repo") (Some 0%nat) 0 true))
      as [_ Hq].
    + vm_compute. reflexivity.
    + reflexivity.
    + destruct Hq as (Hc & Hem & Hok & _).
      * split.
        -- exists (unlines [lit "true"]), (unlines [lit ".git"]), [].
           split_and!; vm_compute; reflexivity.
        -- left. exists diffFilesCrash. vm_compute. reflexivity.
      * split_and!; [exact Hc|exact Hem|]. by destruct (Hok eq_refl).
Defined.

(** One failed check of a pending session whose timer is armed: the session
    stays pending with a timer armed, the streak grows by one and the timer
    carries the backoff delay of the new streak. *)
Lemma failed_check_step env sessionId path st :
  armedPending st sessionId path ->
  checkIfRefreshNeeded env path = None ->
  let st' := retryFires env sessionId st in
  armedPending st' sessionId path
  /\ streak st' sessionId = streak st sessionId + 1
  /\ scheduledDelay st' sessionId = Some (backoffDelay (streak st sessionId + 1)).
Proof.
  intros (session & t & d & Hs & Hw & Hp & Ht & Hto) Hc st'. subst path.
  unfold st', retryFires. rewrite Ht. unfold step. rewrite Hto. unfold timerCallback.
  set (st2 := setTimers _ (clearTimeout t st)).
  assert (Hs2 : watchedSessions st2 !! sessionId = Some session) by exact Hs.
  destruct (inconclusive_check_fields env sessionId st2 session Hs2 Hp Hc)
    as (Hss & He & Htm & Htos & _).
  change (streak st2 sessionId) with (streak st sessionId) in *.
  change (nextTimeout st2) with (nextTimeout st) in *.
  split_and!.
  - exists (setPending true session), (nextTimeout st),
      (backoffDelay (streak st sessionId + 1)).
    split_and!; done.
  - unfold streak at 1. by rewrite He.
  - unfold scheduledDelay. rewrite Htm. simpl. by rewrite Htos.
Qed.

Lemma afterChecks_snoc envs env sessionId st :
  afterChecks (envs ++ [env]) sessionId st
  = retryFires env sessionId (afterChecks envs sessionId st).
Proof. unfold afterChecks. by rewrite fold_left_app. Qed.

Lemma failed_checks_streak envs sessionId path st :
  armedPending st sessionId path ->
  Forall (fun env => checkIfRefreshNeeded env path = None) envs ->
  armedPending (afterChecks envs sessionId st) sessionId path
  /\ streak (afterChecks envs sessionId st) sessionId
     = streak st sessionId + Z.of_nat (length envs)
  /\ (envs <> [] ->
      scheduledDelay (afterChecks envs sessionId st) sessionId
      = Some (backoffDelay (streak st sessionId + Z.of_nat (length envs)))).
Proof.
  intros Harm. induction envs as [|env envs IH] using rev_ind; intros Hall.
  - simpl. split_and!; [done|lia|done].
  - apply Forall_app in Hall as [Hall Henv]. apply Forall_cons in Henv as [Henv _].
    destruct (IH Hall) as (Ha & Hst & _).
    rewrite afterChecks_snoc, length_app. simpl.
    destruct (failed_check_step env sessionId path _ Ha Henv) as (Ha' & Hst' & Hd').
    rewrite Hst in Hst', Hd'.
    replace (streak st sessionId + Z.of_nat (length envs + 1))
      with (streak st sessionId + Z.of_nat (length envs) + 1) by lia.
    split_and!; done.
Qed.

(** A definitive answer: the streak is reset and nothing is armed. *)
Lemma definitive_check_fields env sessionId path st b :
  armedPending st sessionId path ->
  checkIfRefreshNeeded env path = Some b ->
  (b = true -> listeners env sessionId = Ok tt) ->
  let st' := retryFires env sessionId st in
  errorCounts st' !! sessionId = None
  /\ refreshDebounceTimers st' !! sessionId = None
  /\ (exists session, watchedSessions st' !! sessionId = Some session
                      /\ worktreePath session = path
                      /\ pendingRefresh session = false)
  /\ emitted st' = if b then emitted st ++ [sessionId] else emitted st.
Proof.
  intros (session & t & d & Hs & Hw & Hp & Ht & Hto) Hc Hl st'. subst path.
  unfold st', retryFires. rewrite Ht. unfold step. rewrite Hto.
  unfold timerCallback, performRefreshCheck.
  cbn [watchedSessions setTimers clearTimeout]. rewrite Hs, Hp, Hc. simpl.
  destruct b.
  - unfold emit. rewrite (Hl eq_refl). simpl.
    split_and!; try done; try apply lookup_delete_eq.
    exists (setPending false session). rewrite lookup_alter_eq, Hs. done.
  - simpl. split_and!; try done; try apply lookup_delete_eq.
    exists (setPending false session). rewrite lookup_alter_eq, Hs. done.
Qed.

(** When the armed timer of a pending session fires and the check gives a
    definitive answer, with listeners that return, the count of failures is
    reset, no timer stays armed, the session is no longer pending, and the
    event is emitted once for "changed" and not at all for "clean". *)
Theorem definitive_check_resets (env : Env) (sessionId path : jstring) (st : State)
    (b : bool) :
  armedPending st sessionId path ->
  checkIfRefreshNeeded env path = Some b ->
  (b = true -> listeners env sessionId = Ok tt) ->
  let st' := retryFires env sessionId st in
  errorCounts st' !! sessionId = None
  /\ refreshDebounceTimers st' !! sessionId = None
  /\ (exists session, watchedSessions st' !! sessionId = Some session
                      /\ worktreePath session = path
                      /\ pendingRefresh session = false)
  /\ emitted st' = if b then emitted st ++ [sessionId] else emitted st.
Proof. apply definitive_check_fields. Qed.

(** The armed timer fires while [git diff-files] reports changes: one
    event goes out. *)
Lemma definitive_check_resets_witness :
  let st := watchedAndChanged diffFilesCrashes in
  let st' := retryFires diffFilesCrashes (lit "s1") st in
  errorCounts st' !! lit "s1" = None
  /\ refreshDebounceTimers st' !! lit "s1" = None
  /\ (exists session, watchedSessions st' !! lit "s1" = Some session
                      /\ worktreePath session = lit "/repo"
                      /\ pendingRefresh session = false)
  /\ emitted st' = emitted st ++ [lit "s1"].
Proof.
  apply (definitive_check_resets diffFilesCrashes (lit "s1") (lit "/repo")
           (watchedAndChanged diffFilesCrashes) true).
  - exists (mkSession (lit "s1") (lit "/repo") (Some 0%nat) 0 true), 0%nat, 1500.
    vm_compute. by split_and!.
  - vm_compute. reflexivity.
  - reflexivity.
Defined.

(** A change of a file that is not ignored arms the debounce timer of an
    existing session and leaves the streak alone. *)
Lemma handleFileChange_arms env sessionId filename st session :
  watchedSessions st !! sessionId = Some session ->
  shouldIgnoreFile filename = false ->
  let st' := handleFileChange env sessionId filename st in
  armedPending st' sessionId (worktreePath session)
  /\ errorCounts st' = errorCounts st
  /\ scheduledDelay st' sessionId = Some DEBOUNCE_MS.
Proof.
  intros Hs Hi st'. unfold st', handleFileChange. rewrite Hi, Hs.
  unfold scheduleRefreshCheck, scheduleRefreshCheckWithDelay, scheduledDelay, armedPending.
  cbn [refreshDebounceTimers setSessions].
  destruct (refreshDebounceTimers st !! sessionId) as [t0|]; simpl.
  - split_and!; [|done|].
    + eexists _, (nextTimeout st), DEBOUNCE_MS.
      rewrite !lookup_insert_eq. split_and!; done.
    + rewrite lookup_insert_eq. simpl. by rewrite lookup_insert_eq.
  - split_and!; [|done|].
    + eexists _, (nextTimeout st), DEBOUNCE_MS.
      rewrite !lookup_insert_eq. split_and!; done.
    + rewrite lookup_insert_eq. simpl. by rewrite lookup_insert_eq.
Qed.

(** The schedule of the retries.  Take a pending session with its timer
    armed and [k] failures counted for its id, and let its check give no
    answer [n] times in a row, each time when the armed timer fires: the
    delay armed by the [n]-th of these failures is
    [min (1000 * 2^(k+n-1)) 30000] milliseconds, so 1000, 2000, 4000, ...
    when no failure was counted.  A definitive answer resets the count:
    after it, the next change of a file followed by a check without answer
    arms a retry of 1000 ms again. *)
Theorem backoff_delay_schedule (st : State) (sessionId worktreePath : jstring)
    (envs : list Env) :
  armedPending st sessionId worktreePath ->
  Forall (fun env => checkIfRefreshNeeded env worktreePath = None) envs ->
  (forall n, (1 <= n <= length envs)%nat ->
     scheduledDelay (afterChecks (take n envs) sessionId st) sessionId
     = Some (Z.min (1000 * 2 ^ (streak st sessionId + Z.of_nat n - 1)) 30000))
  /\ (forall envD b envE filename envF,
        checkIfRefreshNeeded envD worktreePath = Some b ->
        (b = true -> listeners envD sessionId = Ok tt) ->
        shouldIgnoreFile filename = false ->
        checkIfRefreshNeeded envF worktreePath = None ->
        let st1 := retryFires envD sessionId (afterChecks envs sessionId st) in
        let st2 := handleFileChange envE sessionId filename st1 in
        errorCounts st1 !! sessionId = None
        /\ scheduledDelay (retryFires envF sessionId st2) sessionId = Some 1000).
Proof.
  intros Harm Hall. split.
  - intros n Hn.
    assert (Htake : Forall (fun env => checkIfRefreshNeeded env worktreePath = None)
                      (take n envs)) by by apply Forall_take.
    destruct (failed_checks_streak _ sessionId worktreePath st Harm Htake)
      as (_ & _ & Hd).
    rewrite Hd.
    + rewrite length_take, Nat.min_l by lia. reflexivity.
    + intros Hnil. apply (f_equal length) in Hnil. rewrite length_take in Hnil.
      simpl in Hnil. lia.
  - intros envD b envE filename envF HcD Hl Hi HcF st1 st2.
    destruct (failed_checks_streak _ sessionId worktreePath st Harm Hall) as (Ha & _ & _).
    destruct (definitive_check_fields envD sessionId worktreePath _ b Ha HcD Hl)
      as (He1 & _ & (session & Hs1 & Hw1 & _) & _).
    fold st1 in He1, Hs1. split; [done|].
    destruct (handleFileChange_arms envE sessionId filename st1 session Hs1 Hi)
      as (Ha2 & He2 & _).
    fold st2 in Ha2, He2. rewrite Hw1 in Ha2.
    destruct (failed_check_step envF sessionId worktreePath st2 Ha2 HcF) as (_ & _ & Hd).
    rewrite Hd. unfold streak. rewrite He2, He1. reflexivity.
Qed.

(** Three checks in a row against a locked index: the retries are armed
    with 1000, 2000 and 4000 ms. *)
Example three_inconclusive_checks :
  let st := watchedAndChanged lockedWorld in
  let st1 := retryFires lockedWorld (lit "s1") st in
  let st2 := retryFires lockedWorld (lit "s1") st1 in
  let st3 := retryFires lockedWorld (lit "s1") st2 in
  scheduledDelay st (lit "s1") = Some 1500
  /\ scheduledDelay st1 (lit "s1") = Some 1000
  /\ scheduledDelay st2 (lit "s1") = Some 2000
  /\ scheduledDelay st3 (lit "s1") = Some 4000.
Proof. vm_compute. by split_and!. Qed.

Lemma backoff_delay_schedule_witness :
  scheduledDelay
    (afterChecks (take 3 [lockedWorld; lockedWorld; lockedWorld]) (lit "s1")
       (watchedAndChanged lockedWorld)) (lit "s1")
  = Some (Z.min (1000 * 2 ^ (streak (watchedAndChanged lockedWorld) (lit "s1")
                             + Z.of_nat 3 - 1)) 30000).
Proof.
  apply (proj1 (backoff_delay_schedule (watchedAndChanged lockedWorld) (lit "s1")
                  (lit "/repo") [lockedWorld; lockedWorld; lockedWorld]
                  ltac:(exists (mkSession (lit "s1") (lit "/repo") (Some 0%nat) 0 true),
                          0%nat, 1500; vm_compute; by split_and!)
                  ltac:(repeat constructor))).
  simpl. lia.
Defined.

(** C1.  The count of failures is kept for the session id and survives the
    end of the session: [stopWatching] deletes the session and its timer
    and leaves the count.  A session whose first check found the index
    locked (retry after 1000 ms) is stopped and started again on the same
    id; the first check of the new session, against the same lock, arms its
    retry with 2000 ms, where the schedule of a session starts at
    1000 ms. *)
Theorem restarted_session_continues_the_streak :
  let st1 := retryFires lockedWorld (lit "s1") (watchedAndChanged lockedWorld) in
  let st2 := step lockedWorld (StopWatching (lit "s1")) st1 in
  let st3 := run [(lockedWorld, StartWatching (lit "s1") (lit "/repo"));
                  (lockedWorld, FsEvent 1 (Some (lit "src/a.ts")))] st2 in
  let st4 := retryFires lockedWorld (lit "s1") st3 in
  scheduledDelay st1 (lit "s1") = Some 1000
  /\ watchedSessions st2 !! lit "s1" = None
  /\ scheduledDelay st2 (lit "s1") = None
  /\ errorCounts st2 !! lit "s1" = Some 1
  /\ scheduledDelay st3 (lit "s1") = Some 1500
  /\ scheduledDelay st4 (lit "s1") = Some 2000.
Proof. vm_compute. by split_and!. Qed.

End Backoff.

(** ** The watcher: one open handle per session *)
Section Watchers.
Import Js GitFileWatcher.

Lemma sameWatchers_refl st : sameWatchers st st.
Proof. by split_and!. Qed.

Lemma sameWatchers_trans st1 st2 st3 :
  sameWatchers st1 st2 -> sameWatchers st2 st3 -> sameWatchers st1 st3.
Proof.
  intros (H1 & H2 & H3) (H1' & H2' & H3'). split_and!; [congruence..|].
  intros i. by rewrite H3', H3.
Qed.

Lemma sameWatchers_watcherOf st st' sessionId :
  sameWatchers st st' -> watcherOf st' sessionId = watcherOf st sessionId.
Proof.
  intros (_ & _ & H). specialize (H sessionId). unfold watcherOf.
  destruct (watchedSessions st' !! sessionId), (watchedSessions st !! sessionId);
    simpl in *; congruence.
Qed.

Lemma sameWatchers_owned st st' :
  sameWatchers st st' -> watchersOwned st -> watchersOwned st'.
Proof.
  intros Hsame (Ho & Hf & Hw). pose proof Hsame as (H1 & H2 & H3).
  split_and!.
  - intros h i. rewrite H1, (sameWatchers_watcherOf st st' i Hsame). apply Ho.
  - intros h. rewrite H1, H2. apply Hf.
  - intros i Hi. rewrite (sameWatchers_watcherOf st st' i Hsame). apply Hw.
    specialize (H3 i). destruct Hi as [x Hx]. rewrite Hx in H3.
    destruct (watchedSessions st !! i); [eauto|done].
Qed.

Lemma markPending_sameWatchers sessionId b st :
  sameWatchers st (markPending sessionId b st).
Proof.
  split_and!; [done..|]. intros i. unfold markPending. simpl.
  destruct (decide (sessionId = i)) as [->|Hne].
  - rewrite lookup_alter_eq. by destruct (watchedSessions st !! i).
  - by rewrite lookup_alter_ne.
Qed.

Lemma schedule_sameWatchers sessionId delay st :
  sameWatchers st (scheduleRefreshCheckWithDelay sessionId delay st).
Proof.
  unfold scheduleRefreshCheckWithDelay.
  destruct (refreshDebounceTimers st !! sessionId); by split_and!.
Qed.

Lemma retryLater_sameWatchers sessionId st : sameWatchers st (retryLater sessionId st).
Proof.
  unfold retryLater, getBackoffDelay.
  eapply sameWatchers_trans; [|apply schedule_sameWatchers].
  eapply sameWatchers_trans; [|apply markPending_sameWatchers].
  by split_and!.
Qed.

Lemma performRefreshCheck_sameWatchers env sessionId st :
  sameWatchers st (performRefreshCheck env sessionId st).
Proof.
  unfold performRefreshCheck.
  destruct (watchedSessions st !! sessionId) as [session|]; [|apply sameWatchers_refl].
  destruct (negb (pendingRefresh session)); [apply sameWatchers_refl|].
  pose proof (markPending_sameWatchers sessionId false st) as Hm.
  destruct (checkIfRefreshNeeded env (worktreePath session)) as [[|]|].
  - unfold emit. destruct (listeners env sessionId).
    + eapply sameWatchers_trans; [exact Hm|]. by split_and!.
    + eapply sameWatchers_trans; [exact Hm|].
      eapply sameWatchers_trans; [|apply retryLater_sameWatchers]. by split_and!.
  - eapply sameWatchers_trans; [exact Hm|]. by split_and!.
  - eapply sameWatchers_trans; [exact Hm|]. apply retryLater_sameWatchers.
Qed.

Lemma timerCallback_sameWatchers env sessionId st :
  sameWatchers st (timerCallback env sessionId st).
Proof.
  unfold timerCallback.
  eapply sameWatchers_trans; [|apply performRefreshCheck_sameWatchers]. by split_and!.
Qed.

Lemma handleFileChange_sameWatchers env sessionId filename st :
  sameWatchers st (handleFileChange env sessionId filename st).
Proof.
  unfold handleFileChange.
  destruct (shouldIgnoreFile filename); [apply sameWatchers_refl|].
  destruct (watchedSessions st !! sessionId) as [session|] eqn:Hs; [|apply sameWatchers_refl].
  eapply sameWatchers_trans; [|apply schedule_sameWatchers].
  split_and!; [done..|]. intros i. simpl.
  destruct (decide (sessionId = i)) as [->|Hne].
  - by rewrite lookup_insert_eq, Hs.
  - by rewrite lookup_insert_ne.
Qed.

(** What [stopWatching] does to the watchers. *)
Lemma stopWatching_watchers sessionId st :
  let st' := stopWatching sessionId st in
  openWatchers st'
  = match watcherOf st sessionId with
    | Some h => delete h (openWatchers st)
    | None => openWatchers st
    end
  /\ nextWatcher st' = nextWatcher st
  /\ (forall i, watcherOf st' i
                = if decide (i = sessionId) then None else watcherOf st i)
  /\ watchedSessions st' = delete sessionId (watchedSessions st).
Proof.
  unfold stopWatching, watcherOf.
  destruct (watchedSessions st !! sessionId) as [session|] eqn:Hs; simpl.
  - assert (Hw : forall (m : gmap jstring WatchedSession) i,
               delete sessionId m !! i ≫= watcher
               = if decide (i = sessionId) then None else m !! i ≫= watcher).
    { intros m i. case_decide as Hi; [subst; by rewrite lookup_delete_eq|].
      by rewrite lookup_delete_ne. }
    destruct (watcher session) as [h|]; simpl;
      destruct (refreshDebounceTimers st !! sessionId); simpl; split_and!; try done;
      apply Hw.
  - split_and!; try done.
    + intros i. case_decide as Hi; [subst; by rewrite Hs|done].
    + symmetry. by apply delete_id.
Qed.

Lemma stopWatching_owned sessionId st :
  watchersOwned st -> watchersOwned (stopWatching sessionId st).
Proof.
  intros (Ho & Hf & Hw).
  destruct (stopWatching_watchers sessionId st) as (Hopen & Hnext & Hwo & Hsess).
  split_and!.
  - intros h i. rewrite Hopen, Hwo.
    destruct (watcherOf st sessionId) as [h0|] eqn:Hw0.
    + destruct (decide (h = h0)) as [->|Hh].
      * rewrite lookup_delete_eq. case_decide; [done|].
        split; [done|]. intros Hi. apply Ho in Hi. apply Ho in Hw0. congruence.
      * rewrite lookup_delete_ne by done. rewrite Ho.
        case_decide as Hi; [|done]. subst. split; [congruence|done].
    + rewrite Ho. case_decide as Hi; [|done]. subst. split; [congruence|done].
  - intros h Hh. rewrite Hnext. apply Hf. rewrite Hopen in Hh.
    destruct (watcherOf st sessionId); [|done].
    destruct (decide (h = n)) as [->|Hne];
      [rewrite lookup_delete_eq in Hh; by destruct Hh|by rewrite lookup_delete_ne in Hh].
  - intros i Hi. rewrite Hsess in Hi. rewrite Hwo.
    case_decide as Hd; [subst; rewrite lookup_delete_eq in Hi; by destruct Hi|].
    rewrite lookup_delete_ne in Hi by done. by apply Hw.
Qed.

Lemma startWatching_owned env sessionId path st :
  watchersOwned st -> watchersOwned (startWatching env sessionId path st).
Proof.
  intros Hwf. apply (stopWatching_owned sessionId) in Hwf.
  destruct (stopWatching_watchers sessionId st) as (_ & _ & Hwo & _).
  specialize (Hwo sessionId). rewrite decide_True in Hwo by done.
  unfold startWatching. set (st1 := stopWatching sessionId st) in *.
  destruct (fsWatchOk env path); [|done].
  destruct Hwf as (Ho & Hf & Hw). unfold openWatcher, watchersOwned, watcherOf. simpl.
  split_and!.
  - intros h i. destruct (decide (h = nextWatcher st1)) as [->|Hh].
    + rewrite lookup_insert_eq. destruct (decide (sessionId = i)) as [->|Hi].
      * by rewrite lookup_insert_eq.
      * rewrite lookup_insert_ne by done. split; [congruence|].
        intros Hx. apply Ho in Hx. assert (is_Some (openWatchers st1 !! nextWatcher st1)) as Hs
          by eauto. apply Hf in Hs. lia.
    + rewrite lookup_insert_ne by done. destruct (decide (sessionId = i)) as [->|Hi].
      * rewrite lookup_insert_eq. simpl. rewrite Ho, Hwo. split; [done|congruence].
      * rewrite lookup_insert_ne by done. apply Ho.
  - intros h Hh. destruct (decide (h = nextWatcher st1)) as [->|Hne]; [lia|].
    rewrite lookup_insert_ne in Hh by done. apply Hf in Hh. lia.
  - intros i Hi. destruct (decide (sessionId = i)) as [->|Hne].
    + rewrite lookup_insert_eq. simpl. eauto.
    + rewrite lookup_insert_ne in Hi |- * by done. by apply Hw.
Qed.

Lemma stopAll_owned st : watchersOwned st -> watchersOwned (stopAll st).
Proof.
  intros Hwf. unfold stopAll.
  apply (map_fold_weak_ind (fun r _ => watchersOwned r)); [done|].
  intros i x m r _ Hr. by apply stopWatching_owned.
Qed.

Lemma step_owned env ev st : watchersOwned st -> watchersOwned (step env ev st).
Proof.
  intros Hwf. destruct ev as [i path|i| |h filename|t]; simpl.
  - by apply startWatching_owned.
  - by apply stopWatching_owned.
  - by apply stopAll_owned.
  - destruct (openWatchers st !! h) as [i|]; [|done].
    unfold watchCallback. destruct filename as [filename|]; [|done].
    destruct (truthy filename); [|done].
    eapply sameWatchers_owned; [apply handleFileChange_sameWatchers|done].
  - destruct (timeouts st !! t) as [[i d]|]; [|done].
    eapply sameWatchers_owned; [|exact Hwf].
    eapply sameWatchers_trans; [|apply timerCallback_sameWatchers]. by split_and!.
Qed.

Lemma init_owned : watchersOwned init.
Proof.
  split_and!.
  - intros h i. unfold watcherOf. simpl. by rewrite !lookup_empty.
  - intros h [x Hx]. simpl in Hx. by rewrite lookup_empty in Hx.
  - intros i [x Hx]. simpl in Hx. by rewrite lookup_empty in Hx.
Qed.

(** The invariant holds in every state the manager can reach. *)
Lemma run_owned trace st : watchersOwned st -> watchersOwned (run trace st).
Proof.
  revert st. induction trace as [|[env ev] trace IH]; intros st Hwf; simpl; [done|].
  apply IH. by apply step_owned.
Qed.

(** Under the invariant the open handles of a session id are the watcher
    of its session and nothing else. *)
Lemma openHandlesOf_owned st sessionId :
  watchersOwned st ->
  openHandlesOf st sessionId
  = match watcherOf st sessionId with
    | Some h => {[h := sessionId]}
    | None => ∅
    end.
Proof.
  intros (Ho & _ & _). apply map_eq. intros h. apply option_eq. intros i.
  unfold openHandlesOf. rewrite map_lookup_filter_Some. simpl.
  destruct (watcherOf st sessionId) as [h0|] eqn:Hw.
  - rewrite lookup_singleton_Some. split.
    + intros [Hh ->]. apply Ho in Hh. split; congruence.
    + intros [<- <-]. split; [|done]. by apply Ho.
  - rewrite lookup_empty. split; [|done]. intros [Hh ->]. apply Ho in Hh. congruence.
Qed.

Lemma openHandlesOf_size st sessionId :
  watchersOwned st ->
  size (openHandlesOf st sessionId)
  = match watchedSessions st !! sessionId with Some _ => 1%nat | None => 0%nat end.
Proof.
  intros Hwf. rewrite (openHandlesOf_owned st sessionId Hwf).
  destruct Hwf as (_ & _ & Hw). specialize (Hw sessionId).
  destruct (watchedSessions st !! sessionId) as [session|] eqn:Hs.
  - destruct Hw as [h Hh]; [eauto|]. rewrite Hh. apply map_size_singleton.
  - unfold watcherOf. rewrite Hs. simpl. apply map_size_empty.
Qed.

Lemma startWatching_session env sessionId path st :
  watchedSessions (startWatching env sessionId path st) !! sessionId
  = if fsWatchOk env path
    then Some (mkSession sessionId path (Some (nextWatcher st)) (dateNow env) false)
    else None.
Proof.
  destruct (stopWatching_watchers sessionId st) as (_ & Hnext & _ & Hsess).
  unfold startWatching. destruct (fsWatchOk env path).
  - unfold openWatcher. simpl. by rewrite lookup_insert_eq, Hnext.
  - rewrite Hsess. apply lookup_delete_eq.
Qed.

Lemma startWatching_size env sessionId path st :
  watchersOwned st ->
  size (openHandlesOf (startWatching env sessionId path st) sessionId)
  = if fsWatchOk env path then 1%nat else 0%nat.
Proof.
  intros Hwf. rewrite openHandlesOf_size by by apply startWatching_owned.
  rewrite startWatching_session. by destruct (fsWatchOk env path).
Qed.

(** C7, as stated, fails when [fs.watch] throws in the second call (the
    path is gone): the first watcher has been closed, the [catch] leaves no
    session, and no handle is open. *)
Lemma second_start_can_leave_no_watcher :
  let st1 := startWatching repoOnly (lit "s1") (lit "/repo") init in
  let st2 := startWatching repoOnly (lit "s1") (lit "/gone") st1 in
  size (openHandlesOf st1 (lit "s1")) = 1%nat
  /\ size (openHandlesOf st2 (lit "s1")) = 0%nat
  /\ openWatchers st2 = ∅
  /\ watchedSessions st2 !! lit "s1" = None.
Proof. vm_compute. by split_and!. Qed.

(** C7, amended.  In every state the manager can reach, a session id has
    one open watcher when it has a session and none otherwise, so never more
    than one.  [startWatching] on such a state closes the watcher of the
    session the id had and cancels its timer; afterwards the id has exactly
    one open watcher when [fs.watch] succeeded in this call and none when
    it threw, and the same holds after a second call in a row. *)
Theorem one_open_watcher_per_session (trace : list (Env * event)) (env : Env)
    (sessionId path : jstring) :
  let st := run trace init in
  let st' := startWatching env sessionId path st in
  (forall i, size (openHandlesOf st i)
             = match watchedSessions st !! i with Some _ => 1%nat | None => 0%nat end)
  /\ (forall h, watcherOf st sessionId = Some h -> openWatchers st' !! h = None)
  /\ (forall t, is_Some (watchedSessions st !! sessionId) ->
                refreshDebounceTimers st !! sessionId = Some t ->
                timeouts st' !! t = None /\ refreshDebounceTimers st' !! sessionId = None)
  /\ size (openHandlesOf st' sessionId) = (if fsWatchOk env path then 1%nat else 0%nat)
  /\ (forall env2 path2,
        size (openHandlesOf (startWatching env2 sessionId path2 st') sessionId)
        = if fsWatchOk env2 path2 then 1%nat else 0%nat).
Proof.
  intros st st'.
  assert (Hwf : watchersOwned st) by apply run_owned, init_owned.
  split_and!.
  - intros i. by apply openHandlesOf_size.
  - intros h Hh. unfold st', startWatching.
    destruct (stopWatching_watchers sessionId st) as (Hopen & Hnext & _ & _).
    rewrite Hh in Hopen.
    assert (Hlt : (h < nextWatcher st)%nat).
    { destruct Hwf as (Ho & Hf & _). apply Hf. apply Ho in Hh. eauto. }
    destruct (fsWatchOk env path).
    + unfold openWatcher. simpl. rewrite lookup_insert_ne by (rewrite Hnext; lia).
      rewrite Hopen. apply lookup_delete_eq.
    + rewrite Hopen. apply lookup_delete_eq.
  - intros t [session Hs] Ht. unfold st', startWatching, stopWatching. rewrite Hs.
    destruct (watcher session); simpl; rewrite Ht; simpl;
      destruct (fsWatchOk env path); simpl; split; apply lookup_delete_eq.
  - by apply startWatching_size.
  - intros env2 path2. apply startWatching_size. by apply startWatching_owned.
Qed.

Lemma stopWatching_errorCounts sessionId st :
  errorCounts (stopWatching sessionId st) = errorCounts st.
Proof.
  unfold stopWatching. destruct (watchedSessions st !! sessionId) as [session|]; [|done].
  destruct (watcher session); simpl; by destruct (refreshDebounceTimers st !! sessionId).
Qed.

Lemma startWatching_errorCounts env sessionId path st :
  errorCounts (startWatching env sessionId path st) = errorCounts st.
Proof.
  unfold startWatching. destruct (fsWatchOk env path); simpl;
    apply stopWatching_errorCounts.
Qed.

Lemma stopAll_errorCounts st : errorCounts (stopAll st) = errorCounts st.
Proof.
  unfold stopAll.
  apply (map_fold_weak_ind (fun r _ => errorCounts r = errorCounts st)); [done|].
  intros i x m r _ Hr. by rewrite stopWatching_errorCounts.
Qed.

Lemma handleFileChange_errorCounts env sessionId filename st :
  errorCounts (handleFileChange env sessionId filename st) = errorCounts st.
Proof.
  unfold handleFileChange. destruct (shouldIgnoreFile filename); [done|].
  destruct (watchedSessions st !! sessionId); [|done].
  unfold scheduleRefreshCheck, scheduleRefreshCheckWithDelay. simpl.
  by destruct (refreshDebounceTimers st !! sessionId).
Qed.

(** Only a refresh check changes the count of failures: starting, stopping
    and file-system events leave [errorCounts] as it is.  The events between
    two checks do not disturb a streak, and the streak of a session id is
    still there when its session is stopped and started again. *)
Theorem failure_count_changes_only_in_checks (env : Env) (ev : event) (st : State) :
  (forall t, ev <> TimerFires t) ->
  errorCounts (step env ev st) = errorCounts st.
Proof.
  intros Hev. destruct ev as [i path|i| |h filename|t]; simpl.
  - apply startWatching_errorCounts.
  - apply stopWatching_errorCounts.
  - apply stopAll_errorCounts.
  - destruct (openWatchers st !! h) as [i|]; [|done].
    destruct filename as [filename|]; [|done]. simpl.
    destruct (truthy filename); [|done]. apply handleFileChange_errorCounts.
  - by destruct (Hev t).
Qed.

(** A session that failed once is stopped and started again; the first
    failure of the new session arms 2000 ms. *)
Lemma failure_count_changes_only_in_checks_witness :
  let st1 := retryFires lockedWorld (lit "s1") (watchedAndChanged lockedWorld) in
  let st2 := step lockedWorld (StopWatching (lit "s1")) st1 in
  let st3 := run [(lockedWorld, StartWatching (lit "s1") (lit "/repo"));
                  (lockedWorld, FsEvent 1 (Some (lit "src/a.ts")))] st2 in
  errorCounts st2 = errorCounts st1
  /\ scheduledDelay st1 (lit "s1") = Some 1000%Z
  /\ scheduledDelay (retryFires lockedWorld (lit "s1") st3) (lit "s1") = Some 2000%Z.
Proof.
  split; [|vm_compute; by split].
  apply (failure_count_changes_only_in_checks lockedWorld (StopWatching (lit "s1"))).
  intros t. discriminate.
Defined.

(** *** One timer slot per session *)

Lemma sameTimers_refl st : sameTimers st st.
Proof. by split_and!. Qed.

Lemma sameTimers_trans st1 st2 st3 :
  sameTimers st1 st2 -> sameTimers st2 st3 -> sameTimers st1 st3.
Proof.
  intros (H1 & H2 & H3 & H4) (H1' & H2' & H3' & H4'). split_and!; [congruence..|].
  intros i. by rewrite H4', H4.
Qed.

Lemma sameTimers_owned st st' : sameTimers st st' -> timersOwned st -> timersOwned st'.
Proof.
  intros (H1 & H2 & H3 & H4) (Ha & Hb & Hc & Hd). unfold timersOwned.
  rewrite H1, H2, H3. split_and!; [done..|].
  intros i Hi. apply H4. by apply Hd.
Qed.

Lemma markPending_sameTimers sessionId b st : sameTimers st (markPending sessionId b st).
Proof.
  split_and!; [done..|]. intros i. unfold markPending. simpl.
  destruct (decide (sessionId = i)) as [->|Hne].
  - rewrite lookup_alter_eq. destruct (watchedSessions st !! i); simpl; [|done].
    split; eauto.
  - by rewrite lookup_alter_ne.
Qed.

Lemma schedule_timersOwned sessionId delay st :
  timersOwned st -> is_Some (watchedSessions st !! sessionId) ->
  timersOwned (scheduleRefreshCheckWithDelay sessionId delay st).
Proof.
  intros (Ha & Hb & Hc & Hd) Hs. unfold scheduleRefreshCheckWithDelay.
  set (cleared := match refreshDebounceTimers st !! sessionId with
                  | Some existingTimer => clearTimeout existingTimer st
                  | None => st
                  end).
  assert (Hcl : timeouts cleared
                = match refreshDebounceTimers st !! sessionId with
                  | Some t0 => delete t0 (timeouts st)
                  | None => timeouts st
                  end
                /\ refreshDebounceTimers cleared = refreshDebounceTimers st
                /\ nextTimeout cleared = nextTimeout st
                /\ watchedSessions cleared = watchedSessions st).
  { unfold cleared. by destruct (refreshDebounceTimers st !! sessionId). }
  destruct Hcl as (Hto & Hmap & Hnext & Hsess).
  unfold timersOwned, setTimeout, setTimers. simpl. rewrite Hto, Hmap, Hnext, Hsess.
  assert (Hold : forall t i d,
             match refreshDebounceTimers st !! sessionId with
             | Some t0 => delete t0 (timeouts st)
             | None => timeouts st
             end !! t = Some (i, d) -> timeouts st !! t = Some (i, d) /\ i <> sessionId).
  { intros t i d Ht. destruct (refreshDebounceTimers st !! sessionId) as [t0|] eqn:E.
    - destruct (decide (t = t0)) as [->|Hne]; [by rewrite lookup_delete_eq in Ht|].
      rewrite lookup_delete_ne in Ht by done. split; [done|].
      intros ->. apply Ha in Ht. congruence.
    - split; [done|]. intros ->. apply Ha in Ht. congruence. }
  split_and!.
  - intros t i d Ht. destruct (decide (t = nextTimeout st)) as [->|Hne].
    + rewrite lookup_insert_eq in Ht. injection Ht as <- <-. apply lookup_insert_eq.
    + rewrite lookup_insert_ne in Ht by done. apply Hold in Ht as [Ht Hi].
      rewrite lookup_insert_ne by done. by apply (Ha t i d).
  - intros i t Hi. destruct (decide (sessionId = i)) as [->|Hne].
    + rewrite lookup_insert_eq in Hi. injection Hi as <-.
      exists delay. apply lookup_insert_eq.
    + rewrite lookup_insert_ne in Hi by done.
      destruct (Hb i t Hi) as [d Hd']. exists d.
      assert (Hlt : (t < nextTimeout st)%nat) by (apply Hc; eauto).
      rewrite lookup_insert_ne by lia.
      destruct (refreshDebounceTimers st !! sessionId) as [t0|] eqn:E; [|done].
      rewrite lookup_delete_ne; [done|].
      intros ->. destruct (Hb sessionId t E) as [d0 Hd0]. congruence.
  - intros t Ht. destruct (decide (t = nextTimeout st)) as [->|Hne]; [lia|].
    rewrite lookup_insert_ne in Ht by done. destruct Ht as [[i d] Ht].
    apply Hold in Ht as [Ht _]. assert (t < nextTimeout st)%nat by (apply Hc; eauto). lia.
  - intros i Hi. destruct (decide (sessionId = i)) as [->|Hne]; [done|].
    rewrite lookup_insert_ne in Hi by done. by apply Hd.
Qed.

Lemma retryLater_timersOwned sessionId st :
  timersOwned st -> is_Some (watchedSessions st !! sessionId) ->
  timersOwned (retryLater sessionId st).
Proof.
  intros Hwf Hs. unfold retryLater, getBackoffDelay.
  apply schedule_timersOwned.
  - eapply sameTimers_owned; [apply markPending_sameTimers|].
    eapply sameTimers_owned; [|exact Hwf]. by split_and!.
  - apply (markPending_sameTimers sessionId true). exact Hs.
Qed.

Lemma performRefreshCheck_timersOwned env sessionId st :
  timersOwned st -> timersOwned (performRefreshCheck env sessionId st).
Proof.
  intros Hwf. unfold performRefreshCheck.
  destruct (watchedSessions st !! sessionId) as [session|] eqn:Hs; [|done].
  destruct (negb (pendingRefresh session)); [done|].
  pose proof (markPending_sameTimers sessionId false st) as Hm.
  assert (Hwf1 : timersOwned (markPending sessionId false st))
    by by eapply sameTimers_owned.
  assert (Hs1 : is_Some (watchedSessions (markPending sessionId false st) !! sessionId)).
  { apply Hm. eauto. }
  destruct (checkIfRefreshNeeded env (worktreePath session)) as [[|]|].
  - unfold emit. destruct (listeners env sessionId).
    + eapply sameTimers_owned; [|exact Hwf1]. by split_and!.
    + apply retryLater_timersOwned; [eapply sameTimers_owned; [|exact Hwf1]; by split_and!|].
      exact Hs1.
  - eapply sameTimers_owned; [|exact Hwf1]. by split_and!.
  - by apply retryLater_timersOwned.
Qed.

Lemma stopWatching_timersOwned sessionId st :
  timersOwned st -> timersOwned (stopWatching sessionId st).
Proof.
  intros (Ha & Hb & Hc & Hd). unfold stopWatching.
  destruct (watchedSessions st !! sessionId) as [session|] eqn:Hs; [|done].
  assert (Hfields :
    forall st0, timeouts st0 = timeouts st ->
                refreshDebounceTimers st0 = refreshDebounceTimers st ->
                nextTimeout st0 = nextTimeout st ->
                timersOwned
                  (let st1 := setSessions (delete sessionId (watchedSessions st)) st0 in
                   match refreshDebounceTimers st1 !! sessionId with
                   | Some timer =>
                       setTimers (delete sessionId (refreshDebounceTimers (clearTimeout timer st1)))
                         (clearTimeout timer st1)
                   | None => st1
                   end)).
  { intros st0 E1 E2 E3. simpl. rewrite E2.
    destruct (refreshDebounceTimers st !! sessionId) as [t0|] eqn:Et;
      unfold timersOwned; simpl; rewrite ?E1, ?E2, ?E3.
    - split_and!.
      + intros t i d Ht. destruct (decide (t = t0)) as [->|Hne];
          [by rewrite lookup_delete_eq in Ht|].
        rewrite lookup_delete_ne in Ht by done. pose proof (Ha t i d Ht) as Hi.
        rewrite lookup_delete_ne; [done|]. intros ->. congruence.
      + intros i t Hi. destruct (decide (sessionId = i)) as [->|Hne];
          [by rewrite lookup_delete_eq in Hi|].
        rewrite lookup_delete_ne in Hi by done. destruct (Hb i t Hi) as [d Hd'].
        exists d. rewrite lookup_delete_ne; [done|].
        intros ->. destruct (Hb sessionId t Et) as [d0 Hd0]. congruence.
      + intros t Ht. apply Hc. destruct (decide (t = t0)) as [->|Hne];
          [rewrite lookup_delete_eq in Ht; by destruct Ht|].
        by rewrite lookup_delete_ne in Ht.
      + intros i Hi. destruct (decide (sessionId = i)) as [->|Hne];
          [rewrite lookup_delete_eq in Hi; by destruct Hi|].
        rewrite lookup_delete_ne in Hi by done.
        rewrite lookup_delete_ne by done. by apply Hd.
    - split_and!; [done..|].
      intros i Hi. destruct (decide (sessionId = i)) as [->|Hne];
        [rewrite Et in Hi; by destruct Hi|].
      rewrite lookup_delete_ne by done. by apply Hd. }
  destruct (watcher session) as [h|]; by apply Hfields.
Qed.

Lemma startWatching_timersOwned env sessionId path st :
  timersOwned st -> timersOwned (startWatching env sessionId path st).
Proof.
  intros Hwf. apply (stopWatching_timersOwned sessionId) in Hwf.
  unfold startWatching. destruct (fsWatchOk env path); [|done].
  destruct Hwf as (Ha & Hb & Hc & Hd). unfold timersOwned. simpl.
  split_and!; [done..|].
  intros i Hi. destruct (decide (sessionId = i)) as [->|Hne].
  - rewrite lookup_insert_eq. eauto.
  - rewrite lookup_insert_ne by done. by apply Hd.
Qed.

Lemma stopAll_timersOwned st : timersOwned st -> timersOwned (stopAll st).
Proof.
  intros Hwf. unfold stopAll.
  apply (map_fold_weak_ind (fun r _ => timersOwned r)); [done|].
  intros i x m r _ Hr. by apply stopWatching_timersOwned.
Qed.

Lemma handleFileChange_timersOwned env sessionId filename st :
  timersOwned st -> timersOwned (handleFileChange env sessionId filename st).
Proof.
  intros Hwf. unfold handleFileChange.
  destruct (shouldIgnoreFile filename); [done|].
  destruct (watchedSessions st !! sessionId) as [session|] eqn:Hs; [|done].
  apply schedule_timersOwned.
  - eapply sameTimers_owned; [|exact Hwf]. split_and!; [done..|].
    intros i. simpl. destruct (decide (sessionId = i)) as [->|Hne].
    + rewrite lookup_insert_eq, Hs. split; eauto.
    + by rewrite lookup_insert_ne.
  - simpl. rewrite lookup_insert_eq. eauto.
Qed.

Lemma timerFires_timersOwned env t st :
  timersOwned st -> timersOwned (step env (TimerFires t) st).
Proof.
  intros Hwf. simpl. destruct (timeouts st !! t) as [[i d]|] eqn:Ht; [|done].
  unfold timerCallback. apply performRefreshCheck_timersOwned.
  destruct Hwf as (Ha & Hb & Hc & Hd). pose proof (Ha t i d Ht) as Hi.
  unfold timersOwned. simpl. split_and!.
  - intros t' i' d' Ht'. destruct (decide (t' = t)) as [->|Hne];
      [by rewrite lookup_delete_eq in Ht'|].
    rewrite lookup_delete_ne in Ht' by done. pose proof (Ha t' i' d' Ht') as Hi'.
    rewrite lookup_delete_ne; [done|]. intros ->. congruence.
  - intros i' t' Hi'. destruct (decide (i = i')) as [->|Hne];
      [by rewrite lookup_delete_eq in Hi'|].
    rewrite lookup_delete_ne in Hi' by done. destruct (Hb i' t' Hi') as [d' Hd'].
    exists d'. rewrite lookup_delete_ne; [done|]. intros ->. congruence.
  - intros t' Ht'. apply Hc. destruct (decide (t' = t)) as [->|Hne];
      [rewrite lookup_delete_eq in Ht'; by destruct Ht'|].
    by rewrite lookup_delete_ne in Ht'.
  - intros i' Hi'. apply Hd. destruct (decide (i = i')) as [->|Hne];
      [rewrite lookup_delete_eq in Hi'; by destruct Hi'|].
    by rewrite lookup_delete_ne in Hi'.
Qed.

Lemma step_timersOwned env ev st : timersOwned st -> timersOwned (step env ev st).
Proof.
  intros Hwf. destruct ev as [i path|i| |h filename|t].
  - by apply startWatching_timersOwned.
  - by apply stopWatching_timersOwned.
  - by apply stopAll_timersOwned.
  - simpl. destruct (openWatchers st !! h) as [i|]; [|done].
    unfold watchCallback. destruct filename as [filename|]; [|done].
    destruct (truthy filename); [|done]. by apply handleFileChange_timersOwned.
  - by apply timerFires_timersOwned.
Qed.

Lemma init_timersOwned : timersOwned init.
Proof.
  unfold timersOwned. simpl. split_and!.
  - intros t i d Ht. by rewrite lookup_empty in Ht.
  - intros i t Hi. by rewrite lookup_empty in Hi.
  - intros t [x Hx]. by rewrite lookup_empty in Hx.
  - intros i [x Hx]. by rewrite lookup_empty in Hx.
Qed.

(** In every state the manager can reach, the armed timers are exactly the
    timers registered in [refreshDebounceTimers], one at most per session
    id, and each belongs to a session that is being watched; after
    [stopWatching] no armed timer is left for the session id. *)
Theorem one_timer_slot_per_session (trace : list (Env * event)) :
  let st := run trace init in
  timersOwned st
  /\ (forall t1 t2 sessionId d1 d2,
        timeouts st !! t1 = Some (sessionId, d1) ->
        timeouts st !! t2 = Some (sessionId, d2) -> t1 = t2)
  /\ (forall sessionId t d,
        timeouts (stopWatching sessionId st) !! t <> Some (sessionId, d)).
Proof.
  intros st.
  assert (Hwf : timersOwned st).
  { unfold st. generalize init_timersOwned. generalize init.
    induction trace as [|[env ev] trace IH]; intros st0 H0; simpl; [done|].
    apply IH. by apply step_timersOwned. }
  split_and!; [done| |].
  - intros t1 t2 i d1 d2 H1 H2. destruct Hwf as (Ha & _).
    apply Ha in H1. apply Ha in H2. congruence.
  - intros i t d Ht.
    pose proof (stopWatching_timersOwned i st Hwf) as (Ha & _ & _ & Hd).
    pose proof (Ha t i d Ht) as Hi.
    assert (Hs : is_Some (watchedSessions (stopWatching i st) !! i)) by (apply Hd; eauto).
    destruct (stopWatching_watchers i st) as (_ & _ & _ & Hsess).
    rewrite Hsess, lookup_delete_eq in Hs. by destruct Hs.
Qed.

End Watchers.

(** ** The watcher as a whole: what a run keeps *)
Section WatcherRuns.
Import Js GitFileWatcher.

Lemma run_timersOwned trace st : timersOwned st -> timersOwned (run trace st).
Proof.
  revert st. induction trace as [|[env ev] trace IH]; intros st Hwf; simpl; [done|].
  apply IH. by apply step_timersOwned.
Qed.

Lemma run_app trace1 trace2 st : run (trace1 ++ trace2) st = run trace2 (run trace1 st).
Proof. unfold run. by rewrite fold_left_app. Qed.

Lemma stopWatching_timers sessionId st :
  refreshDebounceTimers (stopWatching sessionId st)
  = match watchedSessions st !! sessionId with
    | Some _ => delete sessionId (refreshDebounceTimers st)
    | None => refreshDebounceTimers st
    end.
Proof.
  unfold stopWatching. destruct (watchedSessions st !! sessionId) as [session|]; [|done].
  destruct (watcher session) as [h|]; simpl;
    destruct (refreshDebounceTimers st !! sessionId) eqn:Ht; simpl; try done;
    symmetry; by apply delete_id.
Qed.

Lemma stopWatching_emitted sessionId st : emitted (stopWatching sessionId st) = emitted st.
Proof.
  unfold stopWatching. destruct (watchedSessions st !! sessionId) as [session|]; [|done].
  destruct (watcher session) as [h|]; simpl;
    by destruct (refreshDebounceTimers st !! sessionId).
Qed.

Lemma stopWatching_pendingIff sessionId st :
  pendingIffTimer st -> pendingIffTimer (stopWatching sessionId st).
Proof.
  intros Hp i s Hi. destruct (stopWatching_watchers sessionId st) as (_ & _ & _ & Hs).
  rewrite Hs in Hi. rewrite stopWatching_timers.
  destruct (decide (i = sessionId)) as [->|Hne]; [by rewrite lookup_delete_eq in Hi|].
  rewrite lookup_delete_ne in Hi by done.
  destruct (watchedSessions st !! sessionId); [rewrite lookup_delete_ne by done|];
    by apply Hp.
Qed.

Lemma stopAll_pendingIff st : pendingIffTimer st -> pendingIffTimer (stopAll st).
Proof.
  intros Hp. unfold stopAll.
  apply (map_fold_weak_ind (fun r _ => pendingIffTimer r)); [done|].
  intros i x m r _ Hr. by apply stopWatching_pendingIff.
Qed.

Lemma startWatching_pendingIff env sessionId path st :
  timersOwned st -> pendingIffTimer st ->
  pendingIffTimer (startWatching env sessionId path st).
Proof.
  intros Hwf Hp. pose proof (stopWatching_pendingIff sessionId st Hp) as Hp1.
  pose proof (stopWatching_timersOwned sessionId st Hwf) as (_ & _ & _ & Hd).
  destruct (stopWatching_watchers sessionId st) as (_ & _ & _ & Hs).
  unfold startWatching. destruct (fsWatchOk env path); [|done].
  set (st1 := stopWatching sessionId st) in *. simpl.
  intros i s Hi. simpl in *.
  destruct (decide (i = sessionId)) as [->|Hne].
  - rewrite lookup_insert_eq in Hi. injection Hi as <-. simpl.
    split; [done|]. intros Ht. apply Hd in Ht.
    rewrite Hs, lookup_delete_eq in Ht. by destruct Ht.
  - rewrite lookup_insert_ne in Hi by done. by apply Hp1.
Qed.

Lemma handleFileChange_pendingIff env sessionId filename st :
  pendingIffTimer st -> pendingIffTimer (handleFileChange env sessionId filename st).
Proof.
  intros Hp. unfold handleFileChange. destruct (shouldIgnoreFile filename); [done|].
  destruct (watchedSessions st !! sessionId) as [session|] eqn:Hs; [|done].
  unfold scheduleRefreshCheck, scheduleRefreshCheckWithDelay.
  cbn [refreshDebounceTimers setSessions].
  assert (Hfields :
    forall st0 : State,
      watchedSessions st0
      = <[sessionId := mkSession (GitFileWatcher.sessionId session) (worktreePath session)
                         (watcher session) (dateNow env) true]> (watchedSessions st) ->
      refreshDebounceTimers st0 = <[sessionId := nextTimeout st]> (refreshDebounceTimers st) ->
      pendingIffTimer st0).
  { intros st0 E1 E2 i s H0. rewrite E1 in H0. rewrite E2.
    destruct (decide (i = sessionId)) as [->|Hne].
    - rewrite lookup_insert_eq in H0. injection H0 as <-. rewrite lookup_insert_eq.
      simpl. split; eauto.
    - rewrite lookup_insert_ne in H0 by done. rewrite lookup_insert_ne by done.
      by apply Hp. }
  destruct (refreshDebounceTimers st !! sessionId); by apply Hfields.
Qed.

Lemma retryLater_pendingIff sessionId st :
  pendingIffTimerBut sessionId st -> pendingIffTimer (retryLater sessionId st).
Proof.
  intros Hp i s Hi. destruct (retryLater_fields sessionId st) as (Hs & _ & Ht & _).
  rewrite Hs in Hi. rewrite Ht.
  destruct (decide (i = sessionId)) as [->|Hne].
  - rewrite lookup_insert_eq. rewrite lookup_alter_eq in Hi.
    destruct (watchedSessions st !! sessionId) as [s0|]; [|done].
    injection Hi as <-. simpl. split; eauto.
  - rewrite lookup_insert_ne by done. rewrite lookup_alter_ne in Hi by done.
    by apply Hp.
Qed.

Lemma markPending_pendingIffBut sessionId b st :
  pendingIffTimerBut sessionId st -> pendingIffTimerBut sessionId (markPending sessionId b st).
Proof.
  intros Hp i s Hne Hi. unfold markPending in *. simpl in *.
  rewrite lookup_alter_ne in Hi by done. by apply Hp.
Qed.

Lemma performRefreshCheck_pendingIff env sessionId st :
  pendingIffTimerBut sessionId st ->
  refreshDebounceTimers st !! sessionId = None ->
  (forall session, watchedSessions st !! sessionId = Some session ->
                   pendingRefresh session = false ->
                   pendingIffTimer st) ->
  (watchedSessions st !! sessionId = None -> pendingIffTimer st) ->
  pendingIffTimer (performRefreshCheck env sessionId st).
Proof.
  intros Hp Ht Hidle Habsent. unfold performRefreshCheck.
  destruct (watchedSessions st !! sessionId) as [session|] eqn:Hs; [|by apply Habsent].
  destruct (pendingRefresh session) eqn:Hpend; simpl; [|by eapply Hidle].
  pose proof (markPending_pendingIffBut sessionId false st Hp) as Hp1.
  assert (Hquiet : forall st0 : State,
             watchedSessions st0 = watchedSessions (markPending sessionId false st) ->
             refreshDebounceTimers st0 = refreshDebounceTimers st ->
             pendingIffTimer st0).
  { intros st0 E1 E2 i s Hi. rewrite E1 in Hi. rewrite E2.
    destruct (decide (i = sessionId)) as [->|Hne].
    - simpl in Hi. rewrite lookup_alter_eq, Hs in Hi. injection Hi as <-. simpl.
      rewrite Ht. split; [done|]. by intros [? ?].
    - apply (Hp1 i s Hne Hi). }
  destruct (checkIfRefreshNeeded env (worktreePath session)) as [[|]|].
  - unfold emit. destruct (listeners env sessionId).
    + by apply Hquiet.
    + apply retryLater_pendingIff. intros i s Hne Hi. by apply (Hp1 i s Hne Hi).
  - by apply Hquiet.
  - by apply retryLater_pendingIff.
Qed.

Lemma timerFires_pendingIff env t st :
  pendingIffTimer st -> pendingIffTimer (step env (TimerFires t) st).
Proof.
  intros Hp. simpl. destruct (timeouts st !! t) as [[i d]|]; [|done].
  unfold timerCallback.
  set (st1 := setTimers _ _).
  assert (Hs1 : watchedSessions st1 = watchedSessions st) by done.
  assert (Ht1 : refreshDebounceTimers st1 = delete i (refreshDebounceTimers st)) by done.
  apply performRefreshCheck_pendingIff.
  - intros j s Hne Hj. rewrite Hs1 in Hj. rewrite Ht1, lookup_delete_ne by done.
    by apply Hp.
  - by rewrite Ht1, lookup_delete_eq.
  - intros session Hs Hpend j s Hj. rewrite Hs1 in *. rewrite Ht1.
    destruct (decide (j = i)) as [->|Hne].
    + rewrite lookup_delete_eq. assert (s = session) as -> by congruence.
      rewrite Hpend. split; [done|]. by intros [? ?].
    + rewrite lookup_delete_ne by done. by apply Hp.
  - intros Hs j s Hj. rewrite Hs1 in *. rewrite Ht1.
    destruct (decide (j = i)) as [->|Hne]; [congruence|].
    rewrite lookup_delete_ne by done. by apply Hp.
Qed.

Lemma step_pendingIff env ev st :
  timersOwned st -> pendingIffTimer st -> pendingIffTimer (step env ev st).
Proof.
  intros Hwf Hp. destruct ev as [i path|i| |h filename|t].
  - by apply startWatching_pendingIff.
  - by apply stopWatching_pendingIff.
  - by apply stopAll_pendingIff.
  - simpl. destruct (openWatchers st !! h) as [i|]; [|done].
    unfold watchCallback. destruct filename as [filename|]; [|done].
    destruct (truthy filename); [|done]. by apply handleFileChange_pendingIff.
  - by apply timerFires_pendingIff.
Qed.

Lemma run_pendingIff trace st :
  timersOwned st -> pendingIffTimer st -> pendingIffTimer (run trace st).
Proof.
  revert st. induction trace as [|[env ev] trace IH]; intros st Hwf Hp; simpl; [done|].
  apply IH; [by apply step_timersOwned|by apply step_pendingIff].
Qed.

(** In every state that a watcher manager reaches from its creation, a
    watched session has a refresh pending exactly when a timer is
    registered for it, and that timer is armed: no pending refresh is left
    without a check to come.  The second count of [getStats] is therefore
    the number of registered timers. *)
Theorem pending_sessions_have_armed_timers (trace : list (Env * event)) :
  let st := run trace init in
  (forall sessionId session,
      watchedSessions st !! sessionId = Some session ->
      (pendingRefresh session = true <-> is_Some (scheduledDelay st sessionId)))
  /\ getStats st = (Z.of_nat (size (watchedSessions st)),
                    Z.of_nat (size (refreshDebounceTimers st))).
Proof.
  intros st.
  assert (Hwf : timersOwned st) by (apply run_timersOwned, init_timersOwned).
  assert (Hp : pendingIffTimer st).
  { apply run_pendingIff; [apply init_timersOwned|]. intros i s Hi. by simpl in Hi. }
  destruct Hwf as (Ha & Hb & Hc & Hd). split.
  - intros i s Hi. rewrite (Hp i s Hi). unfold scheduledDelay. split.
    + intros [t Ht]. rewrite Ht. simpl. destruct (Hb i t Ht) as [d Hd']. rewrite Hd'. eauto.
    + intros [d Hd']. destruct (refreshDebounceTimers st !! i); [eauto|done].
  - unfold getStats. f_equal. f_equal. rewrite <- !size_dom. f_equal.
    apply set_eq. intros i. rewrite !elem_of_dom. split.
    + intros [s Hs]. apply map_lookup_filter_Some in Hs as [Hs Hpend]. simpl in Hpend.
      by apply (Hp i s Hs).
    + intros Ht. destruct (Hd i Ht) as [s Hs]. exists s.
      apply map_lookup_filter_Some. split; [done|]. simpl. by apply (Hp i s Hs).
Qed.

End WatcherRuns.

(** ** What is emitted, and for whom *)
Section WatcherEmissions.
Import Js GitFileWatcher.

Lemma stopAll_emitted st : emitted (stopAll st) = emitted st.
Proof.
  unfold stopAll.
  apply (map_fold_weak_ind (fun r _ => emitted r = emitted st)); [done|].
  intros i x m r _ Hr. by rewrite stopWatching_emitted.
Qed.

Lemma startWatching_emitted env sessionId path st :
  emitted (startWatching env sessionId path st) = emitted st.
Proof.
  unfold startWatching. destruct (fsWatchOk env path); simpl; apply stopWatching_emitted.
Qed.

Lemma handleFileChange_emitted env sessionId filename st :
  emitted (handleFileChange env sessionId filename st) = emitted st.
Proof.
  unfold handleFileChange. destruct (shouldIgnoreFile filename); [done|].
  destruct (watchedSessions st !! sessionId); [|done].
  unfold scheduleRefreshCheck, scheduleRefreshCheckWithDelay.
  cbn [refreshDebounceTimers setSessions].
  by destruct (refreshDebounceTimers st !! sessionId).
Qed.

Lemma watchCallback_emitted env sessionId filename st :
  emitted (watchCallback env sessionId filename st) = emitted st.
Proof.
  unfold watchCallback. destruct filename as [filename|]; [|done].
  destruct (truthy filename); [|done]. apply handleFileChange_emitted.
Qed.

Lemma retryLater_emitted sessionId st : emitted (retryLater sessionId st) = emitted st.
Proof. by destruct (retryLater_fields sessionId st) as (_ & _ & _ & _ & _ & _ & ->). Qed.

(** What a check emits: nothing, or the id of its session, and this only
    for a watched session with a refresh pending whose check answers that
    there are changes. *)
Lemma performRefreshCheck_emitted env sessionId st :
  emitted (performRefreshCheck env sessionId st) = emitted st
  \/ (exists session,
        watchedSessions st !! sessionId = Some session
        /\ pendingRefresh session = true
        /\ checkIfRefreshNeeded env (worktreePath session) = Some true
        /\ emitted (performRefreshCheck env sessionId st) = emitted st ++ [sessionId]).
Proof.
  unfold performRefreshCheck.
  destruct (watchedSessions st !! sessionId) as [session|] eqn:Hs; [|by left].
  destruct (pendingRefresh session) eqn:Hpend; simpl; [|by left].
  destruct (checkIfRefreshNeeded env (worktreePath session)) as [[|]|] eqn:Hc.
  - right. exists session. split_and!; try done.
    unfold emit. destruct (listeners env sessionId); [done|].
    by rewrite retryLater_emitted.
  - by left.
  - left. by rewrite retryLater_emitted.
Qed.

Lemma performRefreshCheck_sessions env sessionId st i :
  is_Some (watchedSessions (performRefreshCheck env sessionId st) !! i)
  <-> is_Some (watchedSessions st !! i).
Proof.
  pose proof (performRefreshCheck_sameWatchers env sessionId st) as (_ & _ & H).
  specialize (H i).
  destruct (watchedSessions (performRefreshCheck env sessionId st) !! i),
    (watchedSessions st !! i); simpl in H; try done; split; eauto.
Qed.

Lemma handleFileChange_sessions env sessionId filename st i :
  is_Some (watchedSessions (handleFileChange env sessionId filename st) !! i)
  <-> is_Some (watchedSessions st !! i).
Proof.
  pose proof (handleFileChange_sameWatchers env sessionId filename st) as (_ & _ & H).
  specialize (H i).
  destruct (watchedSessions (handleFileChange env sessionId filename st) !! i),
    (watchedSessions st !! i); simpl in H; try done; split; eauto.
Qed.

Lemma stopAll_sessions_absent st i :
  watchedSessions st !! i = None -> watchedSessions (stopAll st) !! i = None.
Proof.
  intros Hi. unfold stopAll.
  apply (map_fold_weak_ind (fun r _ => watchedSessions r !! i = None)); [done|].
  intros j x m r _ Hr. destruct (stopWatching_watchers j r) as (_ & _ & _ & ->).
  destruct (decide (j = i)) as [->|Hne]; [apply lookup_delete_eq|].
  by rewrite lookup_delete_ne.
Qed.

(** One step, seen from a session id that is not watched and is not
    started by the step: it stays unwatched and nothing is emitted for
    it. *)
Lemma step_unwatched env ev st sessionId :
  watchedSessions st !! sessionId = None ->
  (forall path, ev <> StartWatching sessionId path) ->
  watchedSessions (step env ev st) !! sessionId = None
  /\ emittedFor (step env ev st) sessionId = emittedFor st sessionId.
Proof.
  intros Hs Hev. unfold emittedFor.
  destruct ev as [i path|i| |h filename|t]; simpl.
  - rewrite startWatching_emitted. split; [|done].
    assert (Hne : i <> sessionId) by (intros ->; by eapply Hev).
    unfold startWatching.
    destruct (stopWatching_watchers i st) as (_ & _ & _ & Hd).
    destruct (fsWatchOk env path); simpl.
    + rewrite lookup_insert_ne by done. rewrite Hd.
      by rewrite lookup_delete_ne.
    + rewrite Hd. destruct (decide (i = sessionId)) as [->|]; [apply lookup_delete_eq|].
      by rewrite lookup_delete_ne.
  - rewrite stopWatching_emitted. split; [|done].
    destruct (stopWatching_watchers i st) as (_ & _ & _ & ->).
    destruct (decide (i = sessionId)) as [->|]; [apply lookup_delete_eq|].
    by rewrite lookup_delete_ne.
  - rewrite stopAll_emitted. split; [|done]. by apply stopAll_sessions_absent.
  - destruct (openWatchers st !! h) as [i|]; [|done].
    rewrite watchCallback_emitted. split; [|done].
    unfold watchCallback. destruct filename as [filename|]; [|done].
    destruct (truthy filename); [|done].
    apply eq_None_not_Some. rewrite handleFileChange_sessions. by rewrite Hs; intros [? ?].
  - destruct (timeouts st !! t) as [[i d]|]; [|done].
    unfold timerCallback. set (st1 := setTimers _ _).
    assert (Hs1 : watchedSessions st1 = watchedSessions st) by done.
    assert (He1 : emitted st1 = emitted st) by done.
    split.
    + apply eq_None_not_Some. rewrite performRefreshCheck_sessions, Hs1, Hs.
      by intros [? ?].
    + destruct (performRefreshCheck_emitted env i st1) as [->|(s & Hi & _ & _ & ->)];
        [by rewrite He1|].
      rewrite He1, filter_app. rewrite Hs1 in Hi.
      assert (Hne : i <> sessionId) by congruence.
      rewrite (filter_cons_False _ i) by done. by rewrite app_nil_r.
Qed.

Lemma run_unwatched trace st sessionId :
  watchedSessions st !! sessionId = None ->
  notStarted sessionId trace ->
  watchedSessions (run trace st) !! sessionId = None
  /\ emittedFor (run trace st) sessionId = emittedFor st sessionId.
Proof.
  revert st. induction trace as [|[env ev] trace IH]; intros st Hs Hn; simpl; [done|].
  apply Forall_cons in Hn as [Hev Hn]. simpl in Hev.
  destruct (step_unwatched env ev st sessionId Hs Hev) as [Hs1 He1].
  destruct (IH _ Hs1 Hn) as [Hs2 He2]. split; [done|]. by rewrite He2.
Qed.

(** After [stopWatching] for a session id, and until [startWatching]
    is called for it again, no [needs-refresh] event is emitted for that id,
    whatever arrives in between: events of a watcher, timers that fire,
    calls for other sessions. *)
Theorem no_refresh_after_stop (st : State) (sessionId : jstring)
    (trace : list (Env * event)) :
  notStarted sessionId trace ->
  let st' := run trace (stopWatching sessionId st) in
  watchedSessions st' !! sessionId = None
  /\ emittedFor st' sessionId = emittedFor st sessionId.
Proof.
  intros Hn st'.
  assert (Hs : watchedSessions (stopWatching sessionId st) !! sessionId = None).
  { destruct (stopWatching_watchers sessionId st) as (_ & _ & _ & ->).
    apply lookup_delete_eq. }
  destruct (run_unwatched trace _ sessionId Hs Hn) as [Hs' He']. split; [done|].
  unfold st'. rewrite He'. unfold emittedFor. by rewrite stopWatching_emitted.
Qed.

Lemma no_refresh_after_stop_witness :
  let st := watchedAndChanged diffFilesCrashes in
  let st' := run [(diffFilesCrashes, TimerFires 0);
                  (diffFilesCrashes, FsEvent 0 (Some (lit "src/b.ts")))]
               (stopWatching (lit "s1") st) in
  watchedSessions st' !! lit "s1" = None
  /\ emittedFor st' (lit "s1") = emittedFor st (lit "s1").
Proof.
  apply (no_refresh_after_stop (watchedAndChanged diffFilesCrashes) (lit "s1")
           [(diffFilesCrashes, TimerFires 0);
            (diffFilesCrashes, FsEvent 0 (Some (lit "src/b.ts")))]).
  unfold notStarted. repeat constructor; simpl; intros path; discriminate.
Defined.

(** One step emits at most one [needs-refresh] event, and only when a
    timer fires for a watched session with a refresh pending whose check
    answers that there are changes. *)
Theorem refresh_emitted_only_on_change (env : Env) (ev : event) (st : State) :
  emitted (step env ev st) = emitted st
  \/ (exists t sessionId d session,
        ev = TimerFires t
        /\ timeouts st !! t = Some (sessionId, d)
        /\ watchedSessions st !! sessionId = Some session
        /\ pendingRefresh session = true
        /\ checkIfRefreshNeeded env (worktreePath session) = Some true
        /\ emitted (step env ev st) = emitted st ++ [sessionId]).
Proof.
  destruct ev as [i path|i| |h filename|t]; simpl.
  - left. apply startWatching_emitted.
  - left. apply stopWatching_emitted.
  - left. apply stopAll_emitted.
  - left. destruct (openWatchers st !! h); [apply watchCallback_emitted|done].
  - destruct (timeouts st !! t) as [[i d]|] eqn:Ht; [|by left].
    unfold timerCallback. set (st1 := setTimers _ _).
    destruct (performRefreshCheck_emitted env i st1) as [->|(s & Hi & Hp & Hc & ->)];
      [by left|].
    right. exists t, i, d, s. by split_and!.
Qed.

End WatcherEmissions.

(** ** Stopping, bursts of changes, ignored files *)
Section WatcherResources.
Import Js GitFileWatcher.

Lemma stopAll_sessions st : watchedSessions (stopAll st) = ∅.
Proof.
  apply map_empty. intros i.
  assert (H : watchedSessions (stopAll st) !! i
              = match watchedSessions st !! i with
                | Some _ => None
                | None => watchedSessions st !! i
                end).
  { unfold stopAll.
    apply (map_fold_weak_ind
             (fun r m => watchedSessions r !! i
                         = match m !! i with
                           | Some _ => None
                           | None => watchedSessions st !! i
                           end)); [done|].
    intros j x m r Hj Hr. destruct (stopWatching_watchers j r) as (_ & _ & _ & ->).
    destruct (decide (j = i)) as [->|Hne].
    - by rewrite lookup_delete_eq, lookup_insert_eq.
    - by rewrite lookup_delete_ne, lookup_insert_ne. }
  rewrite H. by destruct (watchedSessions st !! i).
Qed.

(** [stopAll] releases everything a manager holds, in every state
    it can be in: no session is left, no watcher is left open, no timer is
    left armed or registered.  The failure counts and the events emitted so
    far stay as they were. *)
Theorem stopAll_releases_everything (trace : list (Env * event)) :
  let st := run trace init in
  let st' := stopAll st in
  watchedSessions st' = ∅
  /\ openWatchers st' = ∅
  /\ timeouts st' = ∅
  /\ refreshDebounceTimers st' = ∅
  /\ getStats st' = (0%Z, 0%Z)
  /\ errorCounts st' = errorCounts st
  /\ emitted st' = emitted st.
Proof.
  intros st st'.
  assert (Hw : watchersOwned st') by (apply stopAll_owned, run_owned, init_owned).
  assert (Ht : timersOwned st') by (apply stopAll_timersOwned, run_timersOwned, init_timersOwned).
  assert (Hs : watchedSessions st' = ∅) by apply stopAll_sessions.
  destruct Hw as (Ho & _ & _). destruct Ht as (Ha & Hb & _ & Hd).
  assert (Hr : refreshDebounceTimers st' = ∅).
  { apply map_empty. intros i. apply eq_None_not_Some. intros Hi. apply Hd in Hi.
    rewrite Hs, lookup_empty in Hi. by destruct Hi. }
  split_and!; try done.
  - apply map_empty. intros h. apply eq_None_not_Some. intros [i Hi]. apply Ho in Hi.
    unfold watcherOf in Hi. by rewrite Hs, lookup_empty in Hi.
  - apply map_empty. intros t. apply eq_None_not_Some. intros [[i d] Hi]. apply Ha in Hi.
    by rewrite Hr, lookup_empty in Hi.
  - unfold getStats. rewrite Hs. by rewrite map_filter_empty, map_size_empty.
  - apply stopAll_errorCounts.
  - apply stopAll_emitted.
Qed.

Lemma armedTimersOf_size st sessionId :
  timersOwned st ->
  size (armedTimersOf st sessionId)
  = match refreshDebounceTimers st !! sessionId with Some _ => 1%nat | None => 0%nat end.
Proof.
  intros (Ha & Hb & _ & _).
  destruct (refreshDebounceTimers st !! sessionId) as [t|] eqn:Ht.
  - destruct (Hb sessionId t Ht) as [d Hd].
    assert (E : armedTimersOf st sessionId = {[t := (sessionId, d)]}).
    { apply map_eq. intros t'. apply option_eq. intros [i d'].
      unfold armedTimersOf. rewrite map_lookup_filter_Some, lookup_singleton_Some. simpl.
      split.
      - intros [Ht' ->]. pose proof (Ha t' sessionId d' Ht') as Hr.
        assert (t' = t) as -> by congruence. split; congruence.
      - intros [<- E]. injection E as <- <-. done. }
    rewrite E. apply map_size_singleton.
  - assert (E : armedTimersOf st sessionId = ∅).
    { apply map_empty. intros t. apply eq_None_not_Some. intros [[i d] Hi].
      unfold armedTimersOf in Hi. apply map_lookup_filter_Some in Hi as [Hi Hid].
      simpl in Hid. subst i. apply Ha in Hi. congruence. }
    rewrite E. apply map_size_empty.
Qed.

Lemma burst_snoc h changes c :
  burst h (changes ++ [c]) = burst h changes ++ [(c.1, FsEvent h (Some c.2))].
Proof. unfold burst. by rewrite map_app. Qed.

(** A burst keeps the watchers as they are, emits nothing and counts no
    failure; after its last change the session is pending with the debounce
    timer armed. *)
Lemma burst_run h sessionId changes st :
  watchersOwned st ->
  openWatchers st !! h = Some sessionId ->
  Forall (fun x => truthy x.2 = true /\ shouldIgnoreFile x.2 = false) changes ->
  let st' := run (burst h changes) st in
  sameWatchers st st'
  /\ emitted st' = emitted st
  /\ errorCounts st' = errorCounts st
  /\ (changes <> [] ->
      (exists path, armedPending st' sessionId path)
      /\ scheduledDelay st' sessionId = Some DEBOUNCE_MS).
Proof.
  intros Hwf Hh. induction changes as [|[env f] changes IH] using rev_ind; intros Hall st'.
  - unfold st'. simpl. split_and!; [apply sameWatchers_refl|done..].
  - apply Forall_app in Hall as [Hall Hc]. apply Forall_cons in Hc as [[Hf Hi] _].
    simpl in Hf, Hi. destruct (IH Hall) as (Hsame & He & Hec & _). clear IH.
    unfold st'. rewrite burst_snoc, run_app. simpl.
    set (st1 := run (burst h changes) st) in *.
    assert (Hh1 : openWatchers st1 !! h = Some sessionId).
    { destruct Hsame as (-> & _). done. }
    assert (Hwf1 : watchersOwned st1) by by eapply sameWatchers_owned.
    rewrite Hh1. unfold watchCallback. rewrite Hf.
    destruct Hwf1 as (Ho & _ & _). apply Ho in Hh1. unfold watcherOf in Hh1.
    destruct (watchedSessions st1 !! sessionId) as [session|] eqn:Hs; [|done].
    destruct (handleFileChange_arms env sessionId f st1 session Hs Hi) as (Harm & Hec1 & Hd).
    split_and!.
    + eapply sameWatchers_trans; [exact Hsame|apply handleFileChange_sameWatchers].
    + by rewrite handleFileChange_emitted.
    + by rewrite Hec1.
    + intros _. split; [eauto|done].
Qed.

(** Debounce.  However many changes of files that count arrive in a
    row through the watcher of a session, when the last one has arrived
    there is exactly one timer armed for the session, with the delay of
    1500 ms, the session has a refresh pending, nothing has been emitted and
    no failure has been counted. *)
Theorem burst_of_changes_arms_one_timer (trace : list (Env * event)) (h : nat)
    (sessionId : jstring) (changes : list (Env * jstring)) :
  let st := run trace init in
  openWatchers st !! h = Some sessionId ->
  changes <> [] ->
  Forall (fun x => truthy x.2 = true /\ shouldIgnoreFile x.2 = false) changes ->
  let st' := run (burst h changes) st in
  scheduledDelay st' sessionId = Some 1500%Z
  /\ size (armedTimersOf st' sessionId) = 1%nat
  /\ (pendingRefresh <$> watchedSessions st' !! sessionId) = Some true
  /\ emitted st' = emitted st
  /\ errorCounts st' = errorCounts st.
Proof.
  intros st Hh Hne Hall st'. subst st'. subst st.
  set (st := run trace init) in *. set (st' := run (burst h changes) st).
  assert (Hwf : watchersOwned st) by (apply run_owned, init_owned).
  assert (Ht : timersOwned st') by (apply run_timersOwned, run_timersOwned, init_timersOwned).
  destruct (burst_run h sessionId changes st Hwf Hh Hall) as (_ & He & Hec & Harm).
  destruct (Harm Hne) as [[path (s & t & d & Hs & _ & Hp & Hr & _)] Hd].
  fold st' in He, Hec, Hs, Hr, Hd.
  split_and!; try done.
  - rewrite (armedTimersOf_size _ _ Ht). by rewrite Hr.
  - by rewrite Hs; simpl; rewrite Hp.
Qed.

Lemma burst_of_changes_arms_one_timer_witness :
  let st := run [(repoOnly, StartWatching (lit "s1") (lit "/repo"))] init in
  let st' := run (burst 0 [(repoOnly, lit "src/a.ts"); (repoOnly, lit "src/b.ts");
                           (repoOnly, lit "README.md")]) st in
  scheduledDelay st' (lit "s1") = Some 1500%Z
  /\ size (armedTimersOf st' (lit "s1")) = 1%nat
  /\ (pendingRefresh <$> watchedSessions st' !! lit "s1") = Some true
  /\ emitted st' = emitted st
  /\ errorCounts st' = errorCounts st.
Proof.
  apply (burst_of_changes_arms_one_timer
           [(repoOnly, StartWatching (lit "s1") (lit "/repo"))] 0 (lit "s1")
           [(repoOnly, lit "src/a.ts"); (repoOnly, lit "src/b.ts");
            (repoOnly, lit "README.md")]).
  - vm_compute. reflexivity.
  - discriminate.
  - repeat constructor; vm_compute; reflexivity.
Defined.

Lemma startsWith_app p s : startsWith p (p ++ s) = true.
Proof. induction p as [|c p IH]; simpl; [done|]. by rewrite ascii_eqb_refl. Qed.

Lemma includes_startsWith p s : startsWith p s = true -> includes p s = true.
Proof. intros H. destruct s; simpl; by rewrite H. Qed.

Lemma includes_app p a b : includes p (a ++ p ++ b) = true.
Proof.
  induction a as [|c a IH]; simpl.
  - apply includes_startsWith, startsWith_app.
  - rewrite IH. apply orb_true_r.
Qed.

Lemma shouldIgnoreFile_spec filename :
  shouldIgnoreFile filename = true <-> ignoredName filename.
Proof.
  unfold shouldIgnoreFile, ignoredName.
  change (existsb (ignoredBy filename) IGNORE_PATTERNS)
    with ((startsWith (lit ".git/") filename || includes (lit "/.git/") filename)
          || ((startsWith (lit "node_modules/") filename
               || includes (lit "/node_modules/") filename)
          || ((bool_decide (filename = lit ".DS_Store")
               || endsWith (lit "/.DS_Store") filename)
          || ((bool_decide (filename = lit "thumbs.db")
               || endsWith (lit "/thumbs.db") filename)
          || (endsWith (lit ".swp") filename
          || (endsWith (lit ".swo") filename
          || (endsWith (lit "~") filename
          || ((startsWith (lit ".#") (basename filename)
               || (startsWith (lit "#") (basename filename)
                   && endsWith (lit "#") (basename filename)))
          || ((startsWith (lit ".#") (basename filename)
               || (startsWith (lit "#") (basename filename)
                   && endsWith (lit "#") (basename filename)))
          || false))))))))).
  rewrite !orb_true_iff, !andb_true_iff, !bool_decide_eq_true. intuition congruence.
Qed.

(** The file names that do not count.  [shouldIgnoreFile] rejects
    exactly the names spelled out by [ignoredName]; every path inside a
    [.git] or [node_modules] directory, at any depth, is among them; and an
    event for such a name changes nothing: no timer is armed, no session is
    marked. *)
Theorem ignored_file_events_change_nothing :
  (forall filename, shouldIgnoreFile filename = true <-> ignoredName filename)
  /\ (forall dir rest,
        shouldIgnoreFile (lit ".git/" ++ rest) = true
        /\ shouldIgnoreFile (dir ++ lit "/.git/" ++ rest) = true
        /\ shouldIgnoreFile (lit "node_modules/" ++ rest) = true
        /\ shouldIgnoreFile (dir ++ lit "/node_modules/" ++ rest) = true)
  /\ (forall env h filename st,
        ignoredName filename -> step env (FsEvent h (Some filename)) st = st).
Proof.
  split_and!.
  - apply shouldIgnoreFile_spec.
  - intros dir rest. rewrite !shouldIgnoreFile_spec. unfold ignoredName. split_and!.
    + left. apply startsWith_app.
    + right; left. apply includes_app.
    + do 2 right; left. apply startsWith_app.
    + do 3 right; left. apply includes_app.
  - intros env h filename st Hi. apply shouldIgnoreFile_spec in Hi. simpl.
    destruct (openWatchers st !! h); [|done]. unfold watchCallback.
    destruct (truthy filename); [|done]. unfold handleFileChange. by rewrite Hi.
Qed.

End WatcherResources.

(** ** The viewer's parser: counts, texts and the size limit *)
Section ViewerCounts.
Import Js DiffViewer.
Local Open Scope Z_scope.

Lemma countLine_scanLine lines st :
  fold_left countLine lines (s_additions st, s_deletions st)
  = (s_additions (fold_left scanLine lines st), s_deletions (fold_left scanLine lines st)).
Proof.
  revert st. induction lines as [|line lines IH]; intros st; cbn [fold_left]; [done|].
  rewrite <- IH. f_equal. unfold countLine, scanLine.
  destruct (startsWith (lit "@@") line); [done|].
  destruct (startsWith (lit "-") line); [done|].
  destruct (startsWith (lit "+") line); [done|].
  destruct (startsWith (lit " ") line); [done|].
  destruct (startsWith [BACKSLASH] line); [done|].
  by case_bool_decide.
Qed.

Lemma scanLine_balance st line :
  let st' := scanLine st line in
  Z.of_nat (length (newLines st')) - Z.of_nat (length (oldLines st'))
  - (s_additions st' - s_deletions st')
  = Z.of_nat (length (newLines st)) - Z.of_nat (length (oldLines st))
    - (s_additions st - s_deletions st).
Proof.
  unfold scanLine.
  destruct (startsWith (lit "@@") line); [done|].
  destruct (startsWith (lit "-") line); [simpl; rewrite length_app; simpl; lia|].
  destruct (startsWith (lit "+") line); [simpl; rewrite length_app; simpl; lia|].
  destruct (startsWith (lit " ") line); [simpl; rewrite !length_app; simpl; lia|].
  destruct (startsWith [BACKSLASH] line); [done|].
  case_bool_decide; [simpl; rewrite !length_app; simpl; lia|done].
Qed.

Lemma scan_balance lines st :
  let st' := fold_left scanLine lines st in
  Z.of_nat (length (newLines st')) - Z.of_nat (length (oldLines st'))
  - (s_additions st' - s_deletions st')
  = Z.of_nat (length (newLines st)) - Z.of_nat (length (oldLines st))
    - (s_additions st - s_deletions st).
Proof.
  revert st. induction lines as [|line lines IH]; intros st; cbn [fold_left]; [done|].
  cbv zeta in *. rewrite IH. apply scanLine_balance.
Qed.

Lemma scanLine_oneLine st line :
  oneLine line ->
  Forall oneLine (oldLines st) -> Forall oneLine (newLines st) ->
  Forall oneLine (oldLines (scanLine st line)) /\ Forall oneLine (newLines (scanLine st line)).
Proof.
  intros Hl Ho Hn.
  assert (Hd : oneLine (drop 1 line)) by by apply Forall_drop.
  unfold scanLine.
  destruct (startsWith (lit "@@") line); [done|].
  destruct (startsWith (lit "-") line);
    [simpl; split; [apply Forall_app; split; [done|by constructor]|done]|].
  destruct (startsWith (lit "+") line);
    [simpl; split; [done|apply Forall_app; split; [done|by constructor]]|].
  destruct (startsWith (lit " ") line);
    [simpl; split; apply Forall_app; split; try done; by constructor|].
  destruct (startsWith [BACKSLASH] line); [done|].
  case_bool_decide; [|done].
  simpl; split; apply Forall_app; split; try done; constructor; try done; constructor.
Qed.

Lemma scan_oneLine lines st :
  Forall oneLine lines ->
  Forall oneLine (oldLines st) -> Forall oneLine (newLines st) ->
  Forall oneLine (oldLines (fold_left scanLine lines st))
  /\ Forall oneLine (newLines (fold_left scanLine lines st)).
Proof.
  revert st. induction lines as [|line lines IH]; intros st Hl Ho Hn; cbn [fold_left];
    [done|].
  apply Forall_cons in Hl as [Hl Hls].
  destruct (scanLine_oneLine st line Hl Ho Hn) as [Ho1 Hn1]. by apply IH.
Qed.

Lemma splitChar_LF_oneLine s : Forall oneLine (splitChar LF s).
Proof.
  induction s as [|c s IH]; simpl; [repeat constructor|].
  destruct (ascii_eqb c LF) eqn:E.
  - constructor; [constructor|done].
  - destruct (splitChar LF s) as [|l ls]; [repeat constructor|].
    + intros ->. by rewrite ascii_eqb_refl in E.
    + apply Forall_cons in IH as [Hl Hls]. constructor; [|done].
      constructor; [|done]. intros ->. by rewrite ascii_eqb_refl in E.
Qed.

Lemma omap_fmap_summary {A B C} (f : A -> option B) (g : B -> C) (l : list A) :
  map g (omap f l) = omap (fun x => g <$> f x) l.
Proof.
  induction l as [|x l IH]; csimpl; [done|].
  destruct (f x); csimpl; by rewrite IH.
Qed.

Lemma omap_ext_all {A B} (f g : A -> option B) (l : list A) :
  (forall x, f x = g x) -> omap f l = omap g l.
Proof. intros H. induction l as [|x l IH]; csimpl; [done|]. by rewrite H, IH. Qed.

(** One section under two size limits: the same record apart from the
    texts and the oversize mark, and the same lines on the console. *)
Lemma parseSection_limits maxBytes1 maxBytes2 sec :
  summaryOf <$> (parseSection maxBytes1 sec).1 = summaryOf <$> (parseSection maxBytes2 sec).1
  /\ (parseSection maxBytes1 sec).2 = (parseSection maxBytes2 sec).2.
Proof.
  unfold parseSection. destruct (fileNameMatch sec) as [fnm|]; [|done].
  destruct (_ || _); [done|].
  destruct (findHunk (splitChar LF sec)) as [i|]; [|done].
  pose proof (countLine_scanLine (drop i (splitChar LF sec)) (mkScan [] [] 0 0)) as Hc.
  simpl in Hc.
  destruct (maxBytes1 <? _), (maxBytes2 <? _);
    try destruct (fold_left countLine _ _) as [a d] eqn:E; simpl;
    try (injection Hc as -> ->); done.
Qed.

Lemma parseSection_record maxBytes sec r :
  (parseSection maxBytes sec).1 = Some r ->
  (tooLarge r = true ->
   oldValue r = [] /\ newValue r = [] /\ maxBytes < approxSize r /\ isBinary r = false)
  /\ (isBinary r = true -> additions r = 0 /\ deletions r = 0)
  /\ approxSize r = Z.of_nat (length sec)
  /\ (exists oldLs newLs,
        Forall oneLine oldLs /\ Forall oneLine newLs
        /\ (tooLarge r = false ->
            oldValue r = sideText (negb (bool_decide (type r = added))) oldLs
            /\ newValue r = sideText (negb (bool_decide (type r = deleted))) newLs)
        /\ (tooLarge r = false -> isBinary r = false ->
            Z.of_nat (length newLs) - Z.of_nat (length oldLs) = additions r - deletions r)).
Proof.
  unfold parseSection. destruct (fileNameMatch sec) as [fnm|]; [|done].
  destruct (_ || _) eqn:Hbin.
  { simpl. intros [= <-]. simpl. split_and!; try done.
    exists [], []. split_and!; try done. intros _. unfold sideText. by do 2 case_match. }
  destruct (findHunk (splitChar LF sec)) as [i|].
  2:{ simpl. intros [= <-]. simpl. split_and!; try done.
      exists [], []. split_and!; try done. intros _. unfold sideText. by do 2 case_match. }
  destruct (maxBytes <? Z.of_nat (length sec)) eqn:Hlarge.
  { destruct (fold_left countLine _ _) as [a d]. simpl. intros [= <-]. simpl.
    split_and!; try done.
    - intros _. split_and!; try done. by apply Z.ltb_lt.
    - exists [], []. split_and!; done. }
  simpl. intros [= <-]. simpl. split_and!; try done.
  set (lines := drop i (splitChar LF sec)).
  assert (Hlines : Forall oneLine lines) by apply Forall_drop, splitChar_LF_oneLine.
  destruct (scan_oneLine lines (mkScan [] [] 0 0) Hlines) as [Ho Hn]; [constructor..|].
  exists (oldLines (fold_left scanLine lines (mkScan [] [] 0 0))),
         (newLines (fold_left scanLine lines (mkScan [] [] 0 0))).
  split_and!; try done.
  - intros _. unfold sideText. split; by destruct (classify sec).
  - intros _ _. pose proof (scan_balance lines (mkScan [] [] 0 0)) as Hb. simpl in Hb. lia.
Qed.

(** The size limit changes what the viewer shows of a file, never
    what it counts: under any two limits [parseUnifiedDiff] returns the same
    files with the same paths, kinds, binary marks, additions, deletions and
    sizes, and writes the same lines to the console.  A file over the limit
    keeps its counts and loses its two texts. *)
Theorem counts_do_not_depend_on_size_limit (diff : jstring) (maxBytes1 maxBytes2 : Z) :
  map summaryOf (parseUnifiedDiff diff maxBytes1)
  = map summaryOf (parseUnifiedDiff diff maxBytes2)
  /\ snd (parseUnifiedDiffLog diff maxBytes1) = snd (parseUnifiedDiffLog diff maxBytes2)
  /\ (forall r, r ∈ parseUnifiedDiff diff maxBytes1 ->
                tooLarge r = true ->
                oldValue r = [] /\ newValue r = [] /\ maxBytes1 < approxSize r
                /\ isBinary r = false).
Proof.
  unfold parseUnifiedDiff. rewrite !parseUnifiedDiff_sections.
  case_bool_decide; [split_and!; try done; by intros r ?%elem_of_nil|].
  destruct (fileSections diff) as [secs|];
    [|split_and!; try done; by intros r ?%elem_of_nil].
  simpl. split_and!.
  - rewrite !omap_fmap_summary. apply omap_ext_all. intros sec.
    apply parseSection_limits.
  - f_equal. apply map_ext. intros sec. apply parseSection_limits.
  - intros r Hr Hl. apply list_elem_of_omap in Hr as (sec & _ & Hr).
    destruct (parseSection_record maxBytes1 sec r Hr) as (Hrec & _). by apply Hrec.
Qed.

(** What the viewer shows agrees with what it counts.  For every
    file returned by [parseUnifiedDiff] that is neither binary nor over the
    limit, the old text and the new text are lists of lines joined by line
    feeds (the empty text for the side that does not exist), and the new
    side has as many lines more than the old side as there are additions
    more than deletions. *)
Theorem texts_agree_with_counts (diff : jstring) (maxBytes : Z) (r : FileDiff) :
  r ∈ parseUnifiedDiff diff maxBytes ->
  tooLarge r = false ->
  isBinary r = false ->
  exists oldLs newLs,
    Forall oneLine oldLs /\ Forall oneLine newLs
    /\ oldValue r = sideText (negb (bool_decide (type r = added))) oldLs
    /\ newValue r = sideText (negb (bool_decide (type r = deleted))) newLs
    /\ Z.of_nat (length newLs) - Z.of_nat (length oldLs) = additions r - deletions r.
Proof.
  unfold parseUnifiedDiff. rewrite parseUnifiedDiff_sections.
  case_bool_decide; [by intros ?%elem_of_nil|].
  destruct (fileSections diff) as [secs|]; [|by intros ?%elem_of_nil]. simpl.
  intros Hr Hl Hb. apply list_elem_of_omap in Hr as (sec & _ & Hr).
  destruct (parseSection_record maxBytes sec r Hr) as (_ & _ & _ & oldLs & newLs & Ho & Hn & Ht & Hc).
  exists oldLs, newLs. destruct (Ht Hl) as [-> ->]. split_and!; try done. by apply Hc.
Qed.

Lemma texts_agree_with_counts_witness :
  let r := mkFileDiff (lit "foo.txt") (lit "foo.txt")
             (unlines [lit "ctx"; lit "old"]) (unlines [lit "ctx"; lit "new"; lit "new2"])
             modified false 2 1 false 114 in
  exists oldLs newLs,
    Forall oneLine oldLs /\ Forall oneLine newLs
    /\ oldValue r = sideText (negb (bool_decide (type r = added))) oldLs
    /\ newValue r = sideText (negb (bool_decide (type r = deleted))) newLs
    /\ Z.of_nat (length newLs) - Z.of_nat (length oldLs) = additions r - deletions r.
Proof.
  apply (texts_agree_with_counts threeSections 1000).
  - unfold parseUnifiedDiff. rewrite parseUnifiedDiff_three_sections.
    simpl. apply elem_of_cons. by left.
  - reflexivity.
  - reflexivity.
Defined.

End ViewerCounts.

(** ** The file list of the combined view, and the paths of parsed files *)
Section FileList.
Import Js.
Local Open Scope Z_scope.

Lemma validate_keeps (f : DiffParser.ParsedFile) :
  negb (negb (truthy (DiffParser.path f)) || (length (trim (DiffParser.path f)) =? 0)%nat) = true
  <-> ~ blank (DiffParser.path f).
Proof.
  rewrite guard_blank, negb_true_iff, bool_decide_eq_false. done.
Qed.

Lemma validateParsedFiles_elem files f :
  f ∈ DiffParser.validateParsedFiles files <-> f ∈ files /\ ~ blank (DiffParser.path f).
Proof.
  unfold DiffParser.validateParsedFiles. rewrite list_elem_of_filter.
  rewrite <- validate_keeps. split; intros [H1 H2]; split; try done.
  - by apply Is_true_true.
  - by apply Is_true_true.
Qed.

Lemma validateParsedFiles_id files :
  (forall f, f ∈ files -> ~ blank (DiffParser.path f)) ->
  DiffParser.validateParsedFiles files = files.
Proof.
  intros H. unfold DiffParser.validateParsedFiles.
  induction files as [|f files IH]; [done|].
  rewrite filter_cons_True.
  - f_equal. apply IH. intros g Hg. apply H. apply elem_of_cons. by right.
  - apply Is_true_true, validate_keeps, H. apply elem_of_cons. by left.
Qed.

Lemma parseBlock_path sec f :
  (DiffParser.parseBlock sec).1 = Some f -> DiffParser.path f <> [].
Proof.
  unfold DiffParser.parseBlock.
  destruct (DiffParser.parseFileNameFromDiff sec) as [[oldPath newPath]|]; [|done].
  destruct (truthy newPath) eqn:Hn; simpl.
  - rewrite Hn. simpl. intros [= <-]. simpl. by destruct newPath.
  - destruct (truthy oldPath) eqn:Ho; simpl; [|done].
    intros [= <-]. simpl. by destruct oldPath.
Qed.

(** The paths of parsed files.  A file returned by
    [parseFilesFromDiff] never has the empty path; [validateParsedFiles]
    keeps exactly the files whose path is not blank, in their order, so it
    changes nothing when applied a second time. *)
Theorem parsed_files_have_paths :
  (forall diffContent f,
      f ∈ DiffParser.parseFilesFromDiff diffContent -> DiffParser.path f <> [])
  /\ (forall files f,
        f ∈ DiffParser.validateParsedFiles files
        <-> f ∈ files /\ ~ blank (DiffParser.path f))
  /\ (forall files, DiffParser.validateParsedFiles files `sublist_of` files)
  /\ (forall files,
        DiffParser.validateParsedFiles (DiffParser.validateParsedFiles files)
        = DiffParser.validateParsedFiles files).
Proof.
  split_and!.
  - intros diffContent f. unfold DiffParser.parseFilesFromDiff.
    rewrite parseFilesFromDiff_sections. case_bool_decide; [by intros ?%elem_of_nil|].
    destruct (DiffParser.fileSections diffContent) as [secs|]; [|by intros ?%elem_of_nil].
    simpl. intros Hf. apply list_elem_of_omap in Hf as (sec & _ & Hf).
    by eapply parseBlock_path.
  - apply validateParsedFiles_elem.
  - intros files. apply sublist_filter.
  - intros files. apply validateParsedFiles_id. intros f Hf.
    by apply validateParsedFiles_elem in Hf as [_ Hf].
Qed.

Lemma diff_guard diff :
  truthy diff && (0 <? length (trim diff))%nat = negb (bool_decide (blank diff)).
Proof.
  rewrite <- guard_blank. rewrite negb_orb, negb_involutive. f_equal.
  by destruct (length (trim diff)).
Qed.

Lemma parseFilesFromDiff_blank diff :
  blank diff -> DiffParser.parseFilesFromDiff diff = [].
Proof.
  intros Hb. unfold DiffParser.parseFilesFromDiff. rewrite parseFilesFromDiff_sections.
  by rewrite bool_decide_eq_true_2.
Qed.

(** The file list of the combined view.  Without a diff result the
    list is empty.  With one, the list shows the validated files parsed from
    its diff text, and when there are none (a blank diff, a diff without a
    parseable section, files with blank paths only) it shows the changed
    files reported by the engine, each as a modified file with zero counts.
    A row that comes from the diff text never has a blank path. *)
Theorem filesFromDiff_spec (combinedDiff : GitDiffManager.GitDiffResult) :
  let parsed :=
    DiffParser.validateParsedFiles
      (DiffParser.parseFilesFromDiff (GitDiffManager.diff combinedDiff)) in
  CombinedDiffView.filesFromDiff None = []
  /\ CombinedDiffView.filesFromDiff (Some combinedDiff)
     = match parsed with
       | [] => map CombinedDiffView.changedFileRow (GitDiffManager.changedFiles combinedDiff)
       | _ => map CombinedDiffView.rowOf parsed
       end
  /\ (parsed <> [] ->
      forall row, row ∈ CombinedDiffView.filesFromDiff (Some combinedDiff) ->
                  ~ blank (CombinedDiffView.path row)).
Proof.
  intros parsed.
  assert (Heq : CombinedDiffView.filesFromDiff (Some combinedDiff)
                = match parsed with
                  | [] => map CombinedDiffView.changedFileRow
                            (GitDiffManager.changedFiles combinedDiff)
                  | _ => map CombinedDiffView.rowOf parsed
                  end).
  { unfold CombinedDiffView.filesFromDiff, CombinedDiffView.filesFromDiffWith.
    rewrite diff_guard. fold parsed.
    destruct (bool_decide (blank (GitDiffManager.diff combinedDiff))) eqn:Hb; simpl.
    - apply bool_decide_eq_true in Hb. unfold parsed.
      rewrite (parseFilesFromDiff_blank _ Hb). simpl.
      by destruct (GitDiffManager.changedFiles combinedDiff).
    - destruct parsed as [|f fs]; simpl; [|done].
      by destruct (GitDiffManager.changedFiles combinedDiff). }
  split_and!; [done|done|].
  intros Hne row Hrow. rewrite Heq in Hrow. destruct parsed as [|f fs] eqn:Hp; [done|].
  apply list_elem_of_fmap in Hrow as (g & -> & Hg). rewrite <- Hp in Hg.
  by apply validateParsedFiles_elem in Hg as [_ Hg].
Qed.

End FileList.

(** ** The engine when commands fail, and the commit range *)
Section Degradation.
Import Js GitDiffManager.
Local Open Scope Z_scope.

Lemma captureWorkingDirectoryDiff_ok env worktreePath :
  captureWorkingDirectoryDiff env worktreePath
  = Ok (mkResult (getGitDiffString env worktreePath) (getDiffStats env worktreePath)
          (getChangedFiles env worktreePath)
          (Some (getCurrentCommitHash env worktreePath)) None).
Proof. done. Qed.

Lemma hasChanges_spec env worktreePath :
  hasChanges env worktreePath = true
  <-> exists output, execSync env (lit "git status --porcelain") worktreePath = Ok output
                     /\ ~ blank output.
Proof.
  unfold hasChanges.
  destruct (execSync env (lit "git status --porcelain") worktreePath) as [output|e].
  - rewrite Nat.ltb_lt. split.
    + intros Hl. exists output. split; [done|]. intros Hb. rewrite (trim_blank _ Hb) in Hl.
      simpl in Hl. lia.
    + intros (out & [= <-] & Hb). destruct (trim output) eqn:E; simpl; [|lia].
      by apply trim_nil_blank in E.
  - split; [done|]. by intros (out & ? & _).
Qed.

(** The capture operations never reject, and give what they can.
    Each of [captureWorkingDirectoryDiff], [getGitDiff], [captureCommitDiff]
    and [getCombinedDiff] settles to a result in every world.  In a world
    where every command fails that result is made of nothing: the empty
    diff, zero stats, no changed files; and [hasChanges] answers false. *)
Theorem capture_degrades_to_nothing (env : Env) (worktreePath : jstring) :
  (exists r, captureWorkingDirectoryDiff env worktreePath = Ok r)
  /\ (exists r, getGitDiff env worktreePath = Ok r)
  /\ (forall fromCommit toCommit,
        exists r, captureCommitDiff env worktreePath fromCommit toCommit = Ok r)
  /\ (forall mainBranch, exists r, getCombinedDiff env worktreePath mainBranch = Ok r)
  /\ ((forall command, exists e, execSync env command worktreePath = Throw e) ->
      captureWorkingDirectoryDiff env worktreePath = Ok (nothing (Some []) None)
      /\ (forall mainBranch,
            getCombinedDiff env worktreePath mainBranch = Ok (nothing (Some []) None))
      /\ (forall fromCommit toCommit,
            captureCommitDiff env worktreePath fromCommit toCommit
            = Ok (nothing (Some fromCommit)
                    (Some (if bool_decide (toOrHead toCommit = lit "HEAD")
                           then [] else toOrHead toCommit))))
      /\ hasChanges env worktreePath = false).
Proof.
  split_and!.
  - eexists. apply captureWorkingDirectoryDiff_ok.
  - eexists. apply captureWorkingDirectoryDiff_ok.
  - intros fromCommit toCommit. by eexists.
  - intros mainBranch. unfold getCombinedDiff, bind, tryCatch.
    repeat case_match; simplify_eq; eauto using captureWorkingDirectoryDiff_ok.
  - intros Hfail.
    assert (Hw : captureWorkingDirectoryDiff env worktreePath = Ok (nothing (Some []) None)).
    { rewrite captureWorkingDirectoryDiff_ok. unfold nothing. f_equal.
      unfold getGitDiffString, getDiffStats, getChangedFiles, getCurrentCommitHash.
      destruct (Hfail (lit "git rev-parse --git-dir")) as [e1 ->].
      destruct (Hfail (lit "git diff --stat HEAD")) as [e2 ->].
      destruct (Hfail (lit "git diff --name-only HEAD")) as [e3 ->].
      destruct (Hfail (lit "git rev-parse HEAD")) as [e4 ->]. done. }
    split_and!; [done| | |].
    + intros mainBranch. unfold getCombinedDiff.
      destruct (Hfail (cmdBranchDiff mainBranch)) as [e ->]. simpl. exact Hw.
    + intros fromCommit toCommit. unfold captureCommitDiff, nothing. simpl. f_equal.
      unfold getGitCommitDiff, getChangedFilesBetweenCommits, getCommitDiffStats,
        getCurrentCommitHash.
      destruct (Hfail (lit "git diff " ++ fromCommit ++ lit ".." ++ toOrHead toCommit))
        as [e1 ->].
      destruct (Hfail (lit "git diff --name-only " ++ fromCommit ++ lit ".."
                       ++ toOrHead toCommit)) as [e2 ->].
      destruct (Hfail (lit "git diff --stat " ++ fromCommit ++ lit ".." ++ toOrHead toCommit))
        as [e3 ->].
      destruct (Hfail (lit "git rev-parse HEAD")) as [e4 ->]. done.
    + unfold hasChanges. by destruct (Hfail (lit "git status --porcelain")) as [e ->].
Qed.

(** The branch diff and its fallback.  When the three commands that
    compare the branch with [origin/<mainBranch>] succeed, [getCombinedDiff]
    returns their outputs: the diff text as printed, the non-empty lines of
    the name list, the counts of the summary line, between the hashes
    [origin/<mainBranch>] and [HEAD].  When one of them fails, the result is
    the working-tree diff of [captureWorkingDirectoryDiff]. *)
Theorem getCombinedDiff_falls_back (env : Env) (worktreePath mainBranch : jstring) :
  (forall diff namesOutput statsOutput,
      execSync env (cmdBranchDiff mainBranch) worktreePath = Ok diff ->
      execSync env (cmdBranchNames mainBranch) worktreePath = Ok namesOutput ->
      execSync env (cmdBranchStat mainBranch) worktreePath = Ok statsOutput ->
      getCombinedDiff env worktreePath mainBranch
      = Ok (mkResult diff (parseDiffStats statsOutput)
              (filter nonEmpty (splitChar LF (trim namesOutput)))
              (Some (lit "origin/" ++ mainBranch)) (Some (lit "HEAD"))))
  /\ (forall command e,
        command ∈ [cmdBranchDiff mainBranch; cmdBranchNames mainBranch;
                   cmdBranchStat mainBranch] ->
        execSync env command worktreePath = Throw e ->
        getCombinedDiff env worktreePath mainBranch
        = captureWorkingDirectoryDiff env worktreePath).
Proof.
  split.
  - intros diff namesOutput statsOutput H1 H2 H3. unfold getCombinedDiff.
    by rewrite H1, H2, H3.
  - intros command e Hc He. unfold getCombinedDiff, bind, tryCatch.
    apply elem_of_cons in Hc as [->|Hc]; [by rewrite He|].
    apply elem_of_cons in Hc as [->|Hc];
      [rewrite He; by destruct (execSync env (cmdBranchDiff mainBranch) worktreePath)|].
    apply elem_of_cons in Hc as [->|Hc];
      [rewrite He; by destruct (execSync env (cmdBranchDiff mainBranch) worktreePath),
                     (execSync env (cmdBranchNames mainBranch) worktreePath)|].
    by apply elem_of_nil in Hc.
Qed.

End Degradation.

(** ** The commit history: one commit per header, each with its own stats *)
Section History.
Import Js GitDiffManager.
Local Open Scope Z_scope.

Lemma parseNumstatOutput_from lines acc :
  fold_left
    (fun acc line =>
       let parts := Regex.split reSpaces (trim line) in
       match parts with
       | p0 :: p1 :: _ :: _ =>
           match numstatField p0, numstatField p1 with
           | Some a, Some d =>
               mkStats (additions acc + a) (deletions acc + d) (filesChanged acc + 1)
           | _, _ => acc
           end
       | _ => acc
       end) lines acc
  = addStats acc (parseNumstatOutput lines).
Proof.
  unfold parseNumstatOutput.
  revert acc. induction lines as [|line lines IH] using rev_ind; intros acc.
  - destruct acc as [a d f]. unfold addStats. cbn. f_equal; lia.
  - rewrite !fold_left_app. cbn [fold_left]. rewrite IH.
    set (s := fold_left _ lines zeroStats).
    destruct (Regex.split reSpaces (trim line)) as [|p0 [|p1 [|p2 parts]]]; try done.
    destruct (numstatField p0) as [a|]; [|done].
    destruct (numstatField p1) as [d|]; [|done].
    unfold addStats. simpl. f_equal; lia.
Qed.

Lemma parseNumstatOutput_app l1 l2 :
  parseNumstatOutput (l1 ++ l2) = addStats (parseNumstatOutput l1) (parseNumstatOutput l2).
Proof.
  unfold parseNumstatOutput at 1. rewrite fold_left_app.
  fold (parseNumstatOutput l1). apply parseNumstatOutput_from.
Qed.

Lemma logLine_groups env lines cr sl :
  let st := fold_left (logLine env) lines (cr, sl) in
  rev (flushStats st.1 st.2)
  = rev (flushStats cr (sl ++ (commitGroups lines).1))
    ++ map (commitOf env) (commitGroups lines).2.
Proof.
  revert cr sl. induction lines as [|line lines IH]; intros cr sl;
    cbn [fold_left commitGroups].
  - simpl. by rewrite !app_nil_r.
  - cbv zeta in IH. destruct (commitGroups lines) as [loose groups] eqn:Hg.
    simpl in IH.
    remember (logLine env (cr, sl) line) as st1 eqn:E.
    unfold logLine in E. fold (isHeader line) in E.
    destruct (isHeader line) eqn:Hh.
    + subst st1. rewrite IH. simpl. rewrite app_nil_r.
      unfold commitOf. simpl.
      destruct loose as [|l loose]; simpl; by rewrite <- app_assoc.
    + destruct (truthy (trim line)) eqn:Ht; simpl in E.
      * case_bool_decide as Hcr; subst st1.
        -- rewrite IH. simpl. by rewrite <- app_assoc.
        -- assert (cr = []) as -> by (destruct cr; [done|by destruct Hcr]).
           by rewrite IH.
      * subst st1. by rewrite IH.
Qed.

Lemma withFullMessage_setStats fullMap s c :
  withFullMessage fullMap (setStats s c) = setStats s (withFullMessage fullMap c).
Proof.
  unfold withFullMessage. simpl. destruct (fullMap !! hash c) as [full|]; [|done].
  by destruct (truthy full && nonEmpty full).
Qed.

Lemma flushStats_map fullMap cr sl :
  flushStats (map (withFullMessage fullMap) cr) sl
  = map (withFullMessage fullMap) (flushStats cr sl).
Proof.
  unfold flushStats. destruct cr as [|c cr]; [done|]. simpl.
  destruct (0 <? length sl)%nat; [|done]. simpl. by rewrite withFullMessage_setStats.
Qed.

Lemma spliceMessages_map env worktreePath limit mainBranch commits :
  spliceMessages env worktreePath limit mainBranch commits
  = map (withFullMessage (fullMessagesOf env worktreePath limit mainBranch)) commits.
Proof.
  unfold spliceMessages, fullMessagesOf.
  destruct (execSync env (fullCommand limit mainBranch) worktreePath); [done|].
  induction commits as [|c commits IH]; [done|]. simpl. rewrite <- IH.
  unfold withFullMessage. by rewrite lookup_empty.
Qed.

Lemma commitGroups_headers lines :
  map fst (commitGroups lines).2 = filter (fun l => isHeader l = true) lines.
Proof.
  induction lines as [|line lines IH]; [done|]. cbn [commitGroups].
  destruct (commitGroups lines) as [loose groups]. simpl in IH.
  destruct (isHeader line) eqn:Hh.
  - rewrite filter_cons_True by done. simpl. by rewrite IH.
  - rewrite filter_cons_False by (by rewrite Hh).
    by destruct (truthy (trim line)).
Qed.

(** The commit history, commit by commit.  When the log query
    succeeds, [getCommitHistory] returns one commit for every line of the
    trimmed output that contains a bar, in the order of the log.  The commit
    has the fields of its header line, and the stats of the non-blank lines
    that stand between its header and the next one: the last commit too, and
    zero stats when there are none.  Its message is the full message of the
    second query when that query gives a non-empty one for its hash, and the
    subject of the header otherwise, as when the second query fails. *)
Theorem getCommitHistory_commit_by_commit (env : Env) (worktreePath : jstring)
    (limit : Z) (mainBranch logOutput : jstring) :
  execSync env (logCommand limit mainBranch) worktreePath = Ok logOutput ->
  let lines := splitChar LF (trim logOutput) in
  let groups := (commitGroups lines).2 in
  getCommitHistory env worktreePath limit mainBranch
  = Ok (map (fun group =>
               withFullMessage (fullMessagesOf env worktreePath limit mainBranch)
                 (commitOf env group)) groups)
  /\ map fst groups = filter (fun line => isHeader line = true) lines
  /\ (forall e, execSync env (fullCommand limit mainBranch) worktreePath = Throw e ->
      getCommitHistory env worktreePath limit mainBranch = Ok (map (commitOf env) groups)).
Proof.
  intros Hlog lines groups.
  assert (Heq : getCommitHistory env worktreePath limit mainBranch
                = Ok (map (fun group =>
                             withFullMessage (fullMessagesOf env worktreePath limit mainBranch)
                               (commitOf env group)) groups)).
  { unfold getCommitHistory. rewrite Hlog. simpl. fold lines.
    pose proof (logLine_groups env lines [] []) as Hg. cbv zeta in Hg.
    destruct (fold_left (logLine env) lines ([], [])) as [cr sl]. simpl in Hg.
    rewrite spliceMessages_map, flushStats_map, <- map_rev, Hg. simpl.
    by rewrite map_map. }
  split_and!; [done|apply commitGroups_headers|].
  intros e He. rewrite Heq. f_equal. apply map_ext. intros group.
  unfold fullMessagesOf, withFullMessage. by rewrite He, lookup_empty.
Qed.

Lemma getCommitHistory_commit_by_commit_witness :
  getCommitHistory twoCommits (lit "/repo") 50 (lit "main")
  = Ok [mkCommit (lit "abc") (Some (lit "subject one")) 0 (Some (lit "me")) (mkStats 3 1 1);
        mkCommit (lit "def") (Some (lit "second")) 0 (Some (lit "you")) (mkStats 0 0 1)].
Proof.
  destruct (getCommitHistory_commit_by_commit twoCommits (lit "/repo") 50 (lit "main")
              twoCommitsLog) as (_ & _ & H).
  - reflexivity.
  - rewrite (H gitFatal); [|reflexivity]. vm_compute. reflexivity.
Defined.

End History.

(** ** The matcher: positions only move forward, and the global scans are
    walks through the text *)
Section RegexWalks.
Import Js Regex.

Lemma advances_refl s : advances s s.
Proof. by exists []. Qed.

Lemma advances_trans s1 s2 s3 : advances s1 s2 -> advances s2 s3 -> advances s1 s3.
Proof.
  intros (x & Hb & Ha) (y & Hb' & Ha'). exists (x ++ y). split.
  - by rewrite Hb', Hb, rev_app_distr, app_assoc.
  - by rewrite Ha, Ha', app_assoc.
Qed.

Lemma m_advances r : post r advances.
Proof.
  induction r as [|p|r1 IH1 r2 IH2|r1 IH1 r2 IH2|greedy r IH|i r IH|r IH|ml|ml].
  - intros k s res Hm. exists s. split; [apply advances_refl|done].
  - intros k s res Hm. simpl in Hm.
    destruct (after s) as [|c rest] eqn:Ha; [done|]. destruct (p c); [|done].
    eexists. split; [|exact Hm]. exists [c]. by split.
  - intros k s res Hm. simpl in Hm.
    destruct (IH1 _ _ _ Hm) as (s1 & H1 & Hk1). destruct (IH2 _ _ _ Hk1) as (s2 & H2 & Hk2).
    exists s2. split; [by eapply advances_trans|done].
  - by apply post_Alt.
  - apply post_Star; [apply advances_refl|apply advances_trans|done].
  - intros k s res Hm. simpl in Hm. destruct (IH _ _ _ Hm) as (s1 & H1 & Hk1).
    eexists. split; [|exact Hk1]. exact H1.
  - intros k s res Hm. simpl in Hm. destruct (m r Some s) as [s1|]; [|done].
    eexists. split; [|exact Hm]. by exists [].
  - intros k s res Hm. simpl in Hm. destruct (atBol ml s); [|done].
    exists s. split; [apply advances_refl|done].
  - intros k s res Hm. simpl in Hm. destruct (atEol ml s); [|done].
    exists s. split; [apply advances_refl|done].
Qed.

(** A match at a position starts there and ends further in the text; what
    it matched is the text in between. *)
Lemma matchAt_shape r bef aft f :
  matchAt r bef aft = Some f ->
  exists x rest cs,
    aft = x ++ rest
    /\ f = mkFound (mkPos bef aft []) (mkPos (rev x ++ bef) rest cs)
    /\ matched f = x.
Proof.
  unfold matchAt. intros Hm.
  destruct (m r Some (mkPos bef aft [])) as [e|] eqn:E; [|done]. injection Hm as <-.
  destruct (m_advances r _ _ _ E) as (s' & (x & Hb & Ha) & [= ->]). simpl in *.
  exists x, (after e), (caps e). split_and!; [done|by destruct e; simpl in *; subst|].
  unfold matched, consumed. simpl. rewrite Hb, length_app, length_rev.
  replace (length x + length bef - length bef)%nat with (length (rev x)) by (rewrite length_rev; lia).
  by rewrite take_app_length, rev_involutive.
Qed.

Lemma allFrom_skip r fuel bef c aft :
  matchAt r bef (c :: aft) = None ->
  allFrom (S fuel) r bef (c :: aft) = allFrom (S fuel) r (c :: bef) aft.
Proof. intros H. cbn [allFrom searchFrom]. by rewrite H. Qed.

Lemma searchFrom_hit r bef aft f :
  matchAt r bef aft = Some f -> searchFrom r bef aft = Some f.
Proof. intros H. destruct aft; simpl; by rewrite H. Qed.

Lemma allFrom_findAll r n :
  forall fuel bef aft,
    (length aft < n)%nat -> (length aft < fuel)%nat ->
    allFrom fuel r bef aft = findAll r n bef aft.
Proof.
  induction n as [|n IH]; intros fuel bef aft Hn Hf; [lia|].
  destruct fuel as [|fuel]; [lia|].
  destruct (matchAt r bef aft) as [f|] eqn:E.
  - cbn [allFrom findAll]. rewrite (searchFrom_hit _ _ _ _ E), E.
    destruct (matchAt_shape _ _ _ _ E) as (x & rest & cs & -> & -> & Hx).
    rewrite Hx. cbn [m_end after before]. rewrite length_app in Hn, Hf.
    destruct x as [|c x]; simpl in *.
    + destruct rest as [|c a]; [done|]. simpl in *. f_equal. apply IH; lia.
    + f_equal. apply IH; lia.
  - destruct aft as [|c aft].
    + cbn [allFrom findAll searchFrom]. by rewrite E.
    + rewrite (allFrom_skip _ _ _ _ _ E). cbn [findAll]. rewrite E. cbn [length] in *.
      apply IH; lia.
Qed.

Lemma execAll_matchesFrom r s : execAll r s = matchesFrom r [] s.
Proof. unfold execAll, matchesFrom. apply allFrom_findAll; lia. Qed.

Lemma findAll_fuel r n bef aft :
  (length aft < n)%nat -> findAll r n bef aft = matchesFrom r bef aft.
Proof.
  intros Hn. unfold matchesFrom.
  rewrite <- (allFrom_findAll r n (S (length aft))) by lia.
  apply allFrom_findAll; lia.
Qed.

(** The equations of the walk. *)
Lemma matchesFrom_nil r bef :
  matchesFrom r bef [] = match matchAt r bef [] with Some f => [f] | None => [] end.
Proof.
  unfold matchesFrom. cbn [length findAll].
  destruct (matchAt r bef []) as [f|] eqn:E; [|done].
  destruct (matchAt_shape _ _ _ _ E) as (x & rest & cs & Hx & -> & Hm).
  rewrite Hm. symmetry in Hx. apply app_eq_nil in Hx as [-> ->]. done.
Qed.

Lemma matchesFrom_miss r bef c aft :
  matchAt r bef (c :: aft) = None ->
  matchesFrom r bef (c :: aft) = matchesFrom r (c :: bef) aft.
Proof. intros E. unfold matchesFrom at 1. cbn [length findAll]. by rewrite E. Qed.

Lemma matchesFrom_hit r bef x rest cs :
  x <> [] ->
  matchAt r bef (x ++ rest)
  = Some (mkFound (mkPos bef (x ++ rest) []) (mkPos (rev x ++ bef) rest cs)) ->
  matchesFrom r bef (x ++ rest)
  = mkFound (mkPos bef (x ++ rest) []) (mkPos (rev x ++ bef) rest cs)
    :: matchesFrom r (rev x ++ bef) rest.
Proof.
  intros Hx E. unfold matchesFrom at 1. cbn [findAll]. rewrite E.
  destruct (matchAt_shape _ _ _ _ E) as (x' & rest' & cs' & Hsplit & [= Hb Hr Hc] & Hm).
  rewrite Hm. cbn [m_end before after].
  assert (x' = x) as ->.
  { apply app_inv_tail in Hb. apply (f_equal (@rev ascii)) in Hb.
    by rewrite !rev_involutive in Hb. }
  destruct x as [|c x]; [done|]. f_equal. apply findAll_fuel.
  rewrite length_app. simpl. lia.
Qed.

Lemma replaceGo_findAll r by_ n :
  forall bef aft from,
    (length aft < n)%nat -> (from <= length bef)%nat ->
    replaceGo by_ (findAll r n bef aft) from (rev bef ++ aft)
    = drop from (rev bef) ++ replaceWalk r by_ n bef aft.
Proof.
  induction n as [|n IH]; intros bef aft from Hn Hfrom; [lia|].
  assert (Hdrop : forall l : jstring, drop from (rev bef ++ l) = drop from (rev bef) ++ l).
  { intros l. rewrite drop_app. rewrite length_rev.
    replace (from - length bef)%nat with 0%nat by lia. done. }
  cbn [findAll replaceWalk].
  destruct (matchAt r bef aft) as [f|] eqn:E.
  - destruct (matchAt_shape _ _ _ _ E) as (x & rest & cs & -> & -> & Hx).
    rewrite Hx. cbn [m_end m_start after before]. rewrite length_app in Hn.
    assert (Htake : forall l : jstring,
               take (length bef - from) (drop from (rev bef ++ l)) = drop from (rev bef)).
    { intros l. rewrite Hdrop. rewrite take_app_length'; [done|].
      rewrite length_drop, length_rev. lia. }
    destruct x as [|c x].
    + destruct rest as [|c a]; cbn [replaceGo m_start m_end before app rev length].
      * rewrite Htake. f_equal. f_equal. rewrite app_nil_r.
        rewrite drop_ge; [done|]. rewrite length_rev. lia.
      * rewrite Htake. f_equal. f_equal. simpl in Hn.
        replace (rev bef ++ c :: a) with (rev (c :: bef) ++ a)
          by (simpl; by rewrite <- app_assoc).
        rewrite IH by (simpl; lia). f_equal. simpl.
        rewrite drop_app_length'; [done|]. by rewrite length_rev.
    + cbn [replaceGo m_start m_end before]. rewrite Htake. f_equal. f_equal.
      replace (rev bef ++ (c :: x) ++ rest) with (rev (rev (c :: x) ++ bef) ++ rest)
        by (rewrite rev_app_distr, rev_involutive; by rewrite <- app_assoc).
      rewrite IH by (simpl in *; lia).
      rewrite drop_ge; [done|]. rewrite length_rev. lia.
  - destruct aft as [|c aft]; cbn [replaceGo].
    + apply Hdrop.
    + replace (rev bef ++ c :: aft) with (rev (c :: bef) ++ aft)
        by (simpl; by rewrite <- app_assoc).
      simpl in Hn. rewrite IH by (simpl; lia). simpl.
      rewrite drop_app. rewrite length_rev.
      replace (from - length bef)%nat with 0%nat by lia. simpl. by rewrite <- app_assoc.
Qed.

Lemma replaceAll_replacedFrom r by_ s : replaceAll r by_ s = replacedFrom r by_ [] s.
Proof.
  unfold replaceAll, replacedFrom. rewrite execAll_matchesFrom. unfold matchesFrom.
  apply (replaceGo_findAll r by_ (S (length s)) [] s 0); simpl; lia.
Qed.

Lemma replaceWalk_fuel r by_ n bef aft :
  (length aft < n)%nat -> replaceWalk r by_ n bef aft = replacedFrom r by_ bef aft.
Proof.
  intros Hn. unfold replacedFrom.
  pose proof (replaceGo_findAll r by_ n bef aft (length bef) Hn (le_n _)) as H1.
  pose proof (replaceGo_findAll r by_ (S (length aft)) bef aft (length bef)) as H2.
  rewrite (findAll_fuel r n) in H1 by done. unfold matchesFrom in H1.
  rewrite H1 in H2. apply app_inv_head in H2; [done|lia|lia].
Qed.

Lemma replacedFrom_nil r by_ bef :
  replacedFrom r by_ bef [] = match matchAt r bef [] with Some f => by_ f | None => [] end.
Proof.
  unfold replacedFrom. cbn [length replaceWalk].
  destruct (matchAt r bef []) as [f|] eqn:E; [|done].
  destruct (matchAt_shape _ _ _ _ E) as (x & rest & cs & Hx & -> & Hm).
  rewrite Hm. symmetry in Hx. apply app_eq_nil in Hx as [-> ->]. simpl.
  by rewrite app_nil_r.
Qed.

Lemma replacedFrom_miss r by_ bef c aft :
  matchAt r bef (c :: aft) = None ->
  replacedFrom r by_ bef (c :: aft) = c :: replacedFrom r by_ (c :: bef) aft.
Proof. intros E. unfold replacedFrom at 1. cbn [length replaceWalk]. by rewrite E. Qed.

Lemma replacedFrom_hit r by_ bef x rest cs :
  x <> [] ->
  matchAt r bef (x ++ rest)
  = Some (mkFound (mkPos bef (x ++ rest) []) (mkPos (rev x ++ bef) rest cs)) ->
  replacedFrom r by_ bef (x ++ rest)
  = by_ (mkFound (mkPos bef (x ++ rest) []) (mkPos (rev x ++ bef) rest cs))
    ++ replacedFrom r by_ (rev x ++ bef) rest.
Proof.
  intros Hx E. unfold replacedFrom at 1. cbn [replaceWalk]. rewrite E.
  destruct (matchAt_shape _ _ _ _ E) as (x' & rest' & cs' & Hsplit & [= Hb Hr Hc] & Hm).
  rewrite Hm. cbn [m_end before after].
  assert (x' = x) as ->.
  { apply app_inv_tail in Hb. apply (f_equal (@rev ascii)) in Hb.
    by rewrite !rev_involutive in Hb. }
  destruct x as [|c x]; [done|]. f_equal. apply replaceWalk_fuel.
  rewrite length_app. simpl. lia.
Qed.

End RegexWalks.

(** ** Path normalisation: [normalizeFilePath] *)
Section PathNormalisation.
Import Js Regex DiffParser.

Lemma matchAt_outerQuote bef aft :
  matchAt reOuterQuote bef aft
  = match aft with
    | [] => None
    | c :: rest =>
        if isQuote c then
          match bef, rest with
          | _ :: _, _ :: _ => None
          | _, _ => Some (mkFound (mkPos bef aft []) (mkPos (c :: bef) rest []))
          end
        else None
    end.
Proof.
  unfold matchAt, reOuterQuote. destruct aft as [|c rest]; [by destruct bef|].
  destruct bef as [|b bef]; simpl; destruct (isQuote c); try done; by destruct rest.
Qed.

Lemma matchAt_escaped bef aft :
  matchAt reEscaped bef aft
  = match aft with
    | b :: c :: rest =>
        if isBackslash b && negb (isLineTerminator c)
        then Some (mkFound (mkPos bef aft []) (mkPos (c :: b :: bef) rest [(1%nat, [c])]))
        else None
    | _ => None
    end.
Proof.
  unfold matchAt, reEscaped, Ch, Dot, isBackslash. cbn [m after before caps].
  destruct aft as [|b [|c rest]]; [done|by destruct (ascii_eqb BACKSLASH b)|].
  destruct (ascii_eqb BACKSLASH b); [|done]. cbn [andb after before caps].
  destruct (negb (isLineTerminator c)); [|done].
  unfold setCap. by rewrite consumed_one.
Qed.

Lemma matchAt_backslash bef aft :
  matchAt reBackslash bef aft
  = match aft with
    | c :: rest =>
        if isBackslash c then Some (mkFound (mkPos bef aft []) (mkPos (c :: bef) rest []))
        else None
    | [] => None
    end.
Proof.
  unfold matchAt, reBackslash, Ch, isBackslash. cbn [m after before caps].
  destruct aft as [|c rest]; [done|]. by destruct (ascii_eqb BACKSLASH c).
Qed.

Lemma dropLastQuote_walk aft : forall bef,
  bef <> [] -> replacedFrom reOuterQuote (fun _ => []) bef aft = dropLastQuote aft.
Proof.
  induction aft as [|c rest IH]; intros bef Hbef.
  - rewrite replacedFrom_nil. by rewrite matchAt_outerQuote.
  - pose proof (matchAt_outerQuote bef (c :: rest)) as E.
    destruct bef as [|b bef]; [done|]. cbv beta iota in E. cbn [dropLastQuote].
    destruct (isQuote c) eqn:Hq.
    + destruct rest as [|c2 rest].
      * rewrite (replacedFrom_hit _ _ (b :: bef) [c] [] []); [|done|exact E].
        rewrite replacedFrom_nil. by rewrite matchAt_outerQuote.
      * rewrite replacedFrom_miss by exact E. by rewrite IH.
    + rewrite replacedFrom_miss by exact E. rewrite IH by done. by destruct rest.
Qed.

Lemma stripQuotes_walk s :
  replacedFrom reOuterQuote (fun _ => []) [] s = stripQuotes s.
Proof.
  destruct s as [|c rest].
  - rewrite replacedFrom_nil. by rewrite matchAt_outerQuote.
  - pose proof (matchAt_outerQuote [] (c :: rest)) as E. cbv beta iota in E.
    cbn [stripQuotes]. destruct (isQuote c) eqn:Hq.
    + rewrite (replacedFrom_hit _ _ [] [c] rest []); [|done|exact E].
      simpl. by apply dropLastQuote_walk.
    + rewrite replacedFrom_miss by exact E. rewrite dropLastQuote_walk by done.
      cbn [dropLastQuote]. rewrite Hq. by destruct rest.
Qed.

Lemma unescape_walk n : forall aft bef,
  (length aft <= n)%nat ->
  replacedFrom reEscaped (fun f => default [] (group 1 f)) bef aft = unescape aft.
Proof.
  induction n as [|n IH]; intros aft bef Hn.
  - destruct aft; [|simpl in Hn; lia]. rewrite replacedFrom_nil. by rewrite matchAt_escaped.
  - destruct aft as [|b [|c rest]].
    + rewrite replacedFrom_nil. by rewrite matchAt_escaped.
    + rewrite replacedFrom_miss by by rewrite matchAt_escaped.
      rewrite replacedFrom_nil. by rewrite matchAt_escaped.
    + pose proof (matchAt_escaped bef (b :: c :: rest)) as E. cbv beta iota in E.
      cbn [unescape].
      simpl in Hn.
      destruct (isBackslash b && negb (isLineTerminator c)).
      * rewrite (replacedFrom_hit _ _ bef [b; c] rest [(1%nat, [c])]); [|done|exact E].
        simpl. f_equal. apply IH. lia.
      * rewrite replacedFrom_miss by exact E. f_equal. apply IH. simpl. lia.
Qed.

Lemma slashes_walk aft : forall bef,
  replacedFrom reBackslash (fun _ => lit "/") bef aft = slashes aft.
Proof.
  induction aft as [|c rest IH]; intros bef.
  - rewrite replacedFrom_nil. by rewrite matchAt_backslash.
  - pose proof (matchAt_backslash bef (c :: rest)) as E. cbv beta iota in E. simpl.
    destruct (isBackslash c).
    + rewrite (replacedFrom_hit _ _ bef [c] rest []); [|done|exact E].
      simpl. by rewrite IH.
    + rewrite replacedFrom_miss by exact E. by rewrite IH.
Qed.

Lemma normalizeFilePath_walks p :
  normalizeFilePath p = slashes (unescape (stripQuotes p)).
Proof.
  unfold normalizeFilePath. destruct p as [|c p]; [done|]. cbn [truthy negb].
  rewrite !replaceAll_replacedFrom, stripQuotes_walk.
  rewrite (unescape_walk (length (stripQuotes (c :: p)))) by done.
  apply slashes_walk.
Qed.

Lemma slashes_no_backslash s : Forall (fun c => isBackslash c = false) (slashes s).
Proof.
  unfold slashes. apply Forall_fmap, Forall_forall. intros c _. simpl.
  by destruct (isBackslash c) eqn:E.
Qed.

Lemma slashes_id s : Forall (fun c => isBackslash c = false) s -> slashes s = s.
Proof.
  unfold slashes. induction 1 as [|c s Hc Hs IH]; [done|]. simpl. by rewrite Hc, IH.
Qed.

Lemma unescape_id s : Forall (fun c => isBackslash c = false) s -> unescape s = s.
Proof.
  induction 1 as [|c s Hc Hs IH]; [done|]. cbn [unescape]. rewrite Hc. simpl.
  destruct s; [done|]. by rewrite IH.
Qed.

Lemma dropLastQuote_snoc s c :
  dropLastQuote (s ++ [c]) = if isQuote c then s else s ++ [c].
Proof.
  induction s as [|a s IH]; simpl; [done|]. rewrite IH.
  destruct (s ++ [c]) eqn:E; [by destruct s|]. by destruct (isQuote c).
Qed.

Lemma dropLastQuote_id s :
  (forall c front, s = front ++ [c] -> isQuote c = false) -> dropLastQuote s = s.
Proof.
  intros H. destruct s as [|a s] using rev_ind; [done|].
  rewrite dropLastQuote_snoc. by rewrite (H a s).
Qed.

(** What [normalizeFilePath] does, step by step: the quote at the start
    and the quote at the end are removed, then every backslash that stands
    before a character (other than a line terminator) is left out, then the
    backslashes that are left become slashes.  So the result never holds a
    backslash; a path without backslash and without quote at its ends is
    returned as it is; a path without backslash between two quotes loses the
    quotes; and a backslash that separates two parts of a path is dropped,
    not turned into a slash. *)
Theorem normalizeFilePath_steps :
  (forall p, normalizeFilePath p = slashes (unescape (stripQuotes p)))
  /\ (forall p, Forall (fun c => c <> BACKSLASH) (normalizeFilePath p))
  /\ (forall p, plainPath p -> normalizeFilePath p = p)
  /\ (forall q1 q2 p,
        isQuote q1 = true -> isQuote q2 = true ->
        Forall (fun c => isBackslash c = false) p ->
        normalizeFilePath (q1 :: p ++ [q2]) = p)
  /\ (forall dir c file,
        plainPath (dir ++ c :: file) -> dir <> [] -> isLineTerminator c = false ->
        normalizeFilePath (dir ++ [BACKSLASH] ++ c :: file) = dir ++ c :: file).
Proof.
  split_and!.
  - apply normalizeFilePath_walks.
  - intros p. rewrite normalizeFilePath_walks.
    eapply Forall_impl; [apply slashes_no_backslash|].
    intros c Hc ->. unfold isBackslash in Hc. by rewrite ascii_eqb_refl in Hc.
  - intros p (Hb & Hfirst & Hlast). rewrite normalizeFilePath_walks.
    assert (Hs : stripQuotes p = p).
    { destruct p as [|c rest]; [done|]. cbn [stripQuotes].
      rewrite (Hfirst c rest eq_refl). by apply dropLastQuote_id. }
    by rewrite Hs, unescape_id, slashes_id.
  - intros q1 q2 p H1 H2 Hb. rewrite normalizeFilePath_walks. cbn [stripQuotes].
    rewrite H1, dropLastQuote_snoc, H2. by rewrite unescape_id, slashes_id.
  - intros dir c file (Hb & Hfirst & Hlast) Hdir Hc. rewrite normalizeFilePath_walks.
    assert (Hs : stripQuotes (dir ++ [BACKSLASH] ++ c :: file)
                 = dir ++ [BACKSLASH] ++ c :: file).
    { destruct dir as [|d dir]; [done|]. cbn [stripQuotes app].
      rewrite (Hfirst d (dir ++ c :: file) eq_refl).
      apply (dropLastQuote_id (d :: dir ++ BACKSLASH :: c :: file)).
      intros x front Hx. destruct file as [|y file] using rev_ind.
      - apply (Hlast x (d :: dir)).
        replace (d :: dir ++ BACKSLASH :: [c]) with ((d :: dir ++ [BACKSLASH]) ++ [c]) in Hx
          by (simpl; by rewrite <- app_assoc).
        apply app_inj_tail in Hx as [_ <-]. done.
      - apply (Hlast x ((d :: dir) ++ c :: file)).
        replace (d :: dir ++ BACKSLASH :: c :: file ++ [y])
          with ((d :: dir ++ BACKSLASH :: c :: file) ++ [y]) in Hx
          by (simpl; rewrite <- app_assoc; done).
        apply app_inj_tail in Hx as [_ <-]. simpl. rewrite <- app_assoc. done. }
    rewrite Hs. clear Hs Hfirst Hlast Hdir.
    apply Forall_app in Hb as [Hd Hf].
    assert (Hu : forall front, Forall (fun c => isBackslash c = false) front ->
                 unescape (front ++ [BACKSLASH] ++ c :: file) = front ++ c :: file).
    { intros front Hfr. induction Hfr as [|a front Ha Hfr IH].
      - cbn [app unescape]. unfold isBackslash at 1. rewrite ascii_eqb_refl, Hc. simpl.
        f_equal. apply unescape_id. by apply Forall_cons in Hf as [_ Hf].
      - cbn [app unescape]. rewrite Ha. simpl. simpl in IH. rewrite IH.
        by destruct front. }
    rewrite Hu by done. apply slashes_id. by apply Forall_app.
Qed.

End PathNormalisation.

(** ** Literal texts and lazy stars in the matcher *)
Section RegexSteps.
Import Js Regex.

Lemma pos_eta s : mkPos (before s) (after s) (caps s) = s.
Proof. by destruct s. Qed.

Lemma advanced_nil s : advanced [] s (caps s) = s.
Proof. unfold advanced. simpl. rewrite drop_0. apply pos_eta. Qed.

Lemma startsWith_eq p s : startsWith p s = true -> s = p ++ drop (length p) s.
Proof.
  revert s. induction p as [|c p IH]; intros s H; simpl in *; [by rewrite drop_0|].
  destruct s as [|x s]; [done|]. apply andb_true_iff in H as [Hc Hp].
  apply ascii_eqb_eq in Hc as ->. simpl. f_equal. by apply IH.
Qed.

Lemma startsWith_app_l p s t : startsWith p s = true -> startsWith p (s ++ t) = true.
Proof.
  intros H. rewrite (startsWith_eq p s H), <- app_assoc. apply startsWith_app.
Qed.

Lemma startsWith_length p s : startsWith p s = true -> (length p <= length s)%nat.
Proof.
  intros H. rewrite (startsWith_eq p s H), length_app. lia.
Qed.

Lemma includes_app_r p a b : includes p (a ++ b) = false -> includes p b = false.
Proof.
  induction a as [|c a IH]; [done|]. simpl. intros H.
  apply orb_false_iff in H as [_ H]. by apply IH.
Qed.

Lemma includes_false_startsWith p s : includes p s = false -> startsWith p s = false.
Proof. destruct s; simpl; intros H; by apply orb_false_iff in H as [H _]. Qed.

(** A literal text matches when the subject goes on with it. *)
Lemma m_Str w k s :
  m (Str w) k s
  = if startsWith w (after s) then k (advanced w s (caps s)) else None.
Proof.
  revert s. induction w as [|c w IH]; intros s.
  - simpl. by rewrite advanced_nil.
  - cbn [Str m Ch]. destruct (after s) as [|x rest] eqn:Ha; [done|].
    cbn [startsWith]. destruct (ascii_eqb c x) eqn:E; [|done].
    apply ascii_eqb_eq in E as <-. rewrite IH. cbn [after andb].
    destruct (startsWith w rest); [|done]. f_equal.
    unfold advanced. cbn [before after caps rev length drop]. rewrite Ha. simpl.
    by rewrite <- app_assoc.
Qed.

Lemma starLoop_lazy_now turn k n s v :
  k s = Some v -> starLoop turn false k n s = Some v.
Proof. intros H. destruct n; simpl; by rewrite H. Qed.

(** A lazy star over a character class walks on as long as what follows
    fails: it leaves at the first position where the continuation
    succeeds. *)
Lemma starLoop_lazy_skip p k x : forall n s rest,
  after s = x ++ rest ->
  Forall (fun c => p c = true) x ->
  (length (after s) <= n)%nat ->
  (forall x1 x2, x = x1 ++ x2 -> x2 <> [] -> k (advanced x1 s (caps s)) = None) ->
  starLoop (m (Chr p)) false k n s
  = starLoop (m (Chr p)) false k (n - length x) (advanced x s (caps s)).
Proof.
  induction x as [|c x IH]; intros n s rest Ha Hp Hn Hk.
  - simpl. by rewrite advanced_nil, Nat.sub_0_r.
  - apply Forall_cons in Hp as [Hc Hp]. rewrite Ha in Hn. simpl in Hn.
    destruct n as [|n]; [lia|]. cbn [starLoop].
    pose proof (Hk [] (c :: x) eq_refl) as Hk0. rewrite advanced_nil in Hk0.
    rewrite Hk0 by done. cbn [m]. rewrite Ha. cbn [app]. rewrite Hc.
    cbn [after length]. rewrite (proj2 (Nat.ltb_lt _ _)) by lia.
    rewrite (IH n _ rest); [|done|done|simpl; lia|].
    + cbn [length Nat.sub]. f_equal. unfold advanced. cbn [before after caps rev length drop].
      rewrite Ha. simpl. by rewrite <- app_assoc.
    + intros x1 x2 -> Hx2. specialize (Hk (c :: x1) x2 eq_refl Hx2).
      unfold advanced in *. cbn [before after caps rev length drop] in *.
      rewrite Ha in Hk. simpl in Hk. by rewrite <- app_assoc in Hk.
Qed.

Lemma consumed_advanced x s cs : consumed s (advanced x s cs) = x.
Proof.
  unfold consumed, advanced. simpl. rewrite length_app, length_rev.
  replace (length x + length (before s) - length (before s))%nat with (length (rev x))
    by (rewrite length_rev; lia).
  by rewrite take_app_length, rev_involutive.
Qed.

Lemma m_Cat r1 r2 k s : m (Cat r1 r2) k s = m r1 (m r2 k) s.
Proof. done. Qed.

Lemma m_Eps k s : m Eps k s = k s.
Proof. done. Qed.

Lemma m_Bol ml k s : m (Bol ml) k s = if atBol ml s then k s else None.
Proof. done. Qed.

Lemma m_Eol ml k s : m (Eol ml) k s = if atEol ml s then k s else None.
Proof. done. Qed.

Lemma m_Alt r1 r2 k s :
  m (Alt r1 r2) k s = match m r1 k s with Some v => Some v | None => m r2 k s end.
Proof. done. Qed.

Lemma matched_found bef aft x rest cs0 cs :
  matched (mkFound (mkPos bef aft cs0) (mkPos (rev x ++ bef) rest cs)) = x.
Proof.
  unfold matched, consumed. simpl. rewrite length_app, length_rev.
  replace (length x + length bef - length bef)%nat with (length (rev x))
    by (rewrite length_rev; lia).
  by rewrite take_app_length, rev_involutive.
Qed.

End RegexSteps.

(** ** The sections of a diff *)
Section DiffSections.
Import Js Regex.

(** The marker has no border: a text that starts with it, put behind a
    non-empty text shorter than what it takes to hold the marker, does not
    start with the marker. *)
Lemma sectionMark_no_border x rest :
  x <> [] ->
  (rest = [] \/ startsWith sectionMark rest = true) ->
  startsWith sectionMark (x ++ rest) = true ->
  startsWith sectionMark x = true.
Proof.
  intros Hx Hrest H.
  assert (Hd : forall c r, rest = c :: r -> c = "d"%char).
  { intros c r ->. destruct Hrest as [|Hr]; [done|]. simpl in Hr.
    apply andb_true_iff in Hr as [Hr _]. by apply ascii_eqb_eq in Hr. }
  unfold sectionMark in *.
  do 10 (destruct x as [|? x];
         [first [done
                |simpl in H; destruct rest as [|c r];
                 [repeat (apply andb_true_iff in H as [_ H]); done|];
                 repeat (apply andb_true_iff in H as [? H]);
                 match goal with
                 | Hc : ascii_eqb ?k c = true |- _ =>
                     apply ascii_eqb_eq in Hc; rewrite (Hd c r eq_refl) in Hc; discriminate
                 end]|]).
  simpl in H |- *. repeat (apply andb_true_iff in H as [-> H]). done.
Qed.

Lemma matchAt_section bef sec rest :
  sectionText sec ->
  (rest = [] \/ startsWith sectionMark rest = true) ->
  matchAt reFileSection bef (sec ++ rest)
  = Some (mkFound (mkPos bef (sec ++ rest) []) (mkPos (rev sec ++ bef) rest [])).
Proof.
  intros [Hstart Hinner] Hrest. unfold matchAt, reFileSection, Seq. cbn [fold_right].
  cbn [m]. fold sectionMark. rewrite m_Str. cbn [after].
  rewrite (startsWith_app_l _ _ _ Hstart).
  pose proof (startsWith_eq _ _ Hstart) as Hsec.
  set (x := drop (length sectionMark) sec) in *.
  set (s1 := advanced sectionMark _ _).
  assert (Ha1 : after s1 = x ++ rest).
  { unfold s1, advanced. cbn [after]. rewrite drop_app_le; [done|].
    by apply startsWith_length. }
  cbn [m]. rewrite Ha1.
  set (k := fun s' : pos => match _ with Some s'' => _ | None => None end).
  assert (Hkfail : forall x1 x2, x = x1 ++ x2 -> x2 <> [] ->
                                 k (advanced x1 s1 (caps s1)) = None).
  { intros x1 x2 Hx Hx2.
    assert (Has : after (advanced x1 s1 (caps s1)) = x2 ++ rest).
    { unfold advanced. cbn [after]. by rewrite Ha1, Hx, <- app_assoc, drop_app_length. }
    assert (Hs : startsWith sectionMark (x2 ++ rest) = false).
    { destruct (startsWith sectionMark (x2 ++ rest)) eqn:E; [|done].
      apply sectionMark_no_border in E; [|done..].
      assert (Hi : includes sectionMark x2 = false).
      { rewrite Hsec, Hx in Hinner. change (drop 1 (sectionMark ++ x1 ++ x2))
          with ((drop 1 sectionMark ++ x1) ++ x2) in Hinner.
        by apply includes_app_r in Hinner. }
      apply includes_false_startsWith in Hi. congruence. }
    unfold k. cbn [m]. rewrite m_Str, Has, Hs. unfold atEol. rewrite Has.
    by destruct x2. }
  rewrite <- Ha1. unfold AnyChar.
  rewrite (starLoop_lazy_skip _ k x _ s1 rest Ha1); [|by apply Forall_forall|done|done].
  assert (Hk : k (advanced x s1 (caps s1))
               = Some (mkPos (rev sec ++ bef) rest [])).
  { assert (Has : after (advanced x s1 (caps s1)) = rest).
    { unfold advanced. cbn [after]. by rewrite Ha1, drop_app_length. }
    assert (Hbef : before (advanced x s1 (caps s1)) = rev sec ++ bef).
    { unfold s1, advanced. cbn [before]. rewrite Hsec at 1.
      by rewrite rev_app_distr, <- app_assoc. }
    unfold k. cbn [m]. rewrite m_Str, Has, Hbef. unfold atEol. rewrite Has.
    destruct Hrest as [->|Hr]; [done|]. by rewrite Hr. }
  by rewrite (starLoop_lazy_now _ _ _ _ _ Hk).
Qed.

Lemma matchAt_section_nil bef : matchAt reFileSection bef [] = None.
Proof. done. Qed.

Lemma sectionText_nonempty sec : sectionText sec -> sec <> [].
Proof. intros [H _] ->. done. Qed.

Lemma concat_sections_start secs :
  Forall sectionText secs -> concat secs = [] \/ startsWith sectionMark (concat secs) = true.
Proof.
  intros H. destruct H as [|sec secs [Hs _] _]; [by left|]. right. cbn [concat].
  by apply startsWith_app_l.
Qed.

Lemma matchesFrom_sections secs : forall bef,
  Forall sectionText secs ->
  map matched (matchesFrom reFileSection bef (concat secs)) = secs.
Proof.
  induction secs as [|sec secs IH]; intros bef Hall.
  - cbn [concat]. by rewrite matchesFrom_nil, matchAt_section_nil.
  - apply Forall_cons in Hall as [Hsec Hall]. cbn [concat].
    pose proof (matchAt_section bef sec (concat secs) Hsec (concat_sections_start _ Hall)) as E.
    rewrite (matchesFrom_hit _ _ _ _ _ (sectionText_nonempty _ Hsec) E).
    cbn [map]. rewrite IH by done. f_equal. apply matched_found.
Qed.

Lemma fileSections_concat secs :
  Forall sectionText secs -> secs <> [] ->
  matchGlobal reFileSection (concat secs) = Some secs.
Proof.
  intros Hall Hne. unfold matchGlobal. rewrite execAll_matchesFrom.
  pose proof (matchesFrom_sections secs [] Hall) as H.
  destruct (matchesFrom reFileSection [] (concat secs)) as [|f fs]; [|by rewrite H].
  simpl in H. by subst.
Qed.

End DiffSections.

(** ** What [parseFilesFromDiff] counts *)
Section SignedLines.
Import Js Regex DiffParser.
Local Open Scope Z_scope.

Lemma countMatches_length r s : countMatches r s = Z.of_nat (length (matchesFrom r [] s)).
Proof.
  unfold countMatches, matchGlobal. rewrite execAll_matchesFrom.
  destruct (matchesFrom r [] s); [done|]. by rewrite length_map.
Qed.

(** [/^s[^s]/gm] for a sign [s]. *)
Lemma matchAt_signed sign bef aft :
  matchAt (Seq [Bol true; Ch sign; NotCh sign]) bef aft
  = if atBol true (mkPos bef aft []) then
      match aft with
      | a :: c :: rest =>
          if ascii_eqb sign a && negb (ascii_eqb sign c)
          then Some (mkFound (mkPos bef aft []) (mkPos (c :: a :: bef) rest []))
          else None
      | _ => None
      end
    else None.
Proof.
  unfold matchAt, Seq, Ch, NotCh. cbn [fold_right m]. 
  destruct (atBol true _); [|done]. cbn [after before caps].
  destruct aft as [|a [|c rest]]; [done|by destruct (ascii_eqb sign a)|].
  destruct (ascii_eqb sign a); [|done]. cbn [after before caps andb].
  by destruct (negb (ascii_eqb sign c)).
Qed.

Lemma matchAt_signed_inside sign b bef aft :
  isLineTerminator b = false ->
  matchAt (Seq [Bol true; Ch sign; NotCh sign]) (b :: bef) aft = None.
Proof. intros Hb. rewrite matchAt_signed. unfold atBol. cbn [before]. by rewrite Hb. Qed.

Lemma walk_in_line sign l : forall b bef text,
  isLineTerminator b = false -> properLine l ->
  matchesFrom (Seq [Bol true; Ch sign; NotCh sign]) (b :: bef) (l ++ LF :: text)
  = matchesFrom (Seq [Bol true; Ch sign; NotCh sign]) (LF :: rev l ++ b :: bef) text.
Proof.
  induction l as [|c l IH]; intros b bef text Hb Hl.
  - cbn [app rev]. by rewrite matchesFrom_miss by by apply matchAt_signed_inside.
  - apply Forall_cons in Hl as [Hc Hl]. cbn [app].
    rewrite matchesFrom_miss by by apply matchAt_signed_inside.
    rewrite IH by done. cbn [rev]. by rewrite <- app_assoc.
Qed.

Lemma walk_line_start sign l bef text :
  isLineTerminator sign = false ->
  atBol true (mkPos bef [] []) = true ->
  properLine l ->
  length (matchesFrom (Seq [Bol true; Ch sign; NotCh sign]) bef (l ++ LF :: text))
  = ((if signedLine sign l then 1 else 0)
     + length (matchesFrom (Seq [Bol true; Ch sign; NotCh sign]) (LF :: rev l ++ bef) text))%nat.
Proof.
  intros Hsign Hbol Hl.
  assert (HsLF : ascii_eqb sign LF = false).
  { destruct (ascii_eqb sign LF) eqn:E; [|done]. apply ascii_eqb_eq in E. by subst. }
  assert (Hat : forall aft, atBol true (mkPos bef aft []) = true) by done.
  destruct l as [|a [|c l]].
  - cbn [app rev signedLine].
    rewrite matchesFrom_miss; [done|]. rewrite matchAt_signed, Hat.
    destruct text; by rewrite ?HsLF.
  - cbn [app rev signedLine]. apply Forall_cons in Hl as [Ha _].
    pose proof (matchAt_signed sign bef (a :: LF :: text)) as E. rewrite Hat in E.
    rewrite HsLF in E. cbn [negb] in E. rewrite andb_true_r in *.
    destruct (ascii_eqb sign a).
    + rewrite (matchesFrom_hit _ bef [a; LF] text []); [done|done|exact E].
    + rewrite matchesFrom_miss by exact E.
      pose proof (walk_in_line sign [] a bef text Ha (Forall_nil_2 _)) as W.
      cbn [app rev] in W. by rewrite W.
  - cbn [app signedLine]. apply Forall_cons in Hl as [Ha Hl].
    pose proof Hl as Hcl. apply Forall_cons in Hl as [Hc Hl].
    pose proof (matchAt_signed sign bef (a :: c :: l ++ LF :: text)) as E. rewrite Hat in E.
    destruct (ascii_eqb sign a && negb (ascii_eqb sign c)).
    + rewrite (matchesFrom_hit _ bef [a; c] (l ++ LF :: text) []); [|done|exact E].
      cbn [length rev app]. rewrite (walk_in_line sign l c (a :: bef) text Hc Hl).
      cbn [rev]. by rewrite <- !app_assoc.
    + rewrite matchesFrom_miss by exact E.
      pose proof (walk_in_line sign (c :: l) a bef text Ha Hcl) as W.
      cbn [app] in W. rewrite W. cbn [rev]. by rewrite <- !app_assoc.
Qed.

Lemma signed_unlines sign ls : forall bef,
  isLineTerminator sign = false ->
  atBol true (mkPos bef [] []) = true ->
  Forall properLine ls ->
  length (matchesFrom (Seq [Bol true; Ch sign; NotCh sign]) bef (unlines ls))
  = length (filter (fun l => signedLine sign l = true) ls).
Proof.
  induction ls as [|l ls IH]; intros bef Hsign Hbol Hall.
  - unfold unlines. cbn [map concat]. rewrite matchesFrom_nil.
    by rewrite matchAt_signed, Hbol.
  - apply Forall_cons in Hall as [Hl Hall].
    change (unlines (l :: ls)) with ((l ++ [LF]) ++ unlines ls). rewrite <- app_assoc.
    cbn [app]. rewrite walk_line_start by done. rewrite IH by done.
    destruct (signedLine sign l) eqn:E.
    + by rewrite filter_cons_True.
    + rewrite filter_cons_False; [done|]. by rewrite E.
Qed.

Lemma countMatches_unlines sign ls :
  isLineTerminator sign = false ->
  Forall properLine ls ->
  countMatches (Seq [Bol true; Ch sign; NotCh sign]) (unlines ls)
  = countLines (signedLine sign) ls.
Proof.
  intros Hs Hall. rewrite countMatches_length. unfold countLines. f_equal.
  by apply signed_unlines.
Qed.

End SignedLines.

(** ** The names read off the first line of a section *)
Section SectionNames.
Import Js Regex.

Lemma advanced_advanced x y s cs cs' :
  advanced y (advanced x s cs) cs' = advanced (x ++ y) s cs'.
Proof.
  unfold advanced. cbn [before after]. f_equal.
  - by rewrite rev_app_distr, app_assoc.
  - by rewrite drop_drop, length_app.
Qed.

Lemma advanced_after x rest s cs : after s = x ++ rest -> after (advanced x s cs) = rest.
Proof. intros H. unfold advanced. cbn [after]. by rewrite H, drop_app_length. Qed.

Lemma properLine_dot name :
  properLine name -> Forall (fun c => negb (isLineTerminator c) = true) name.
Proof. intros H. eapply Forall_impl; [exact H|]. by intros c ->. Qed.

(** A lazy [(.*?)] group stops at the first position where what follows
    matches. *)
Lemma m_Group_lazy_star i k s name rest v :
  after s = name ++ rest ->
  properLine name ->
  (forall x1 x2, name = x1 ++ x2 -> x2 <> [] ->
                 k (advanced x1 s (setCap i x1 (caps s))) = None) ->
  k (advanced name s (setCap i name (caps s))) = Some v ->
  m (Group i (Star false Dot)) k s = Some v.
Proof.
  intros Ha Hp Hfail Hok. cbn [m]. unfold Dot.
  set (k' := fun s' : pos => k _).
  assert (Hk' : forall x, k' (advanced x s (caps s)) = k (advanced x s (setCap i x (caps s)))).
  { intros x. unfold k'. by rewrite consumed_advanced. }
  rewrite (starLoop_lazy_skip _ k' name _ s rest Ha (properLine_dot _ Hp)); [|done|].
  - apply starLoop_lazy_now. by rewrite Hk'.
  - intros x1 x2 Hx Hx2. rewrite Hk'. by eapply Hfail.
Qed.

(** A lazy [(.+?)] group does the same from its second character on. *)
Lemma m_Group_lazy_plus i k s name rest v :
  after s = name ++ rest ->
  name <> [] ->
  properLine name ->
  (forall x1 x2, name = x1 ++ x2 -> x1 <> [] -> x2 <> [] ->
                 k (advanced x1 s (setCap i x1 (caps s))) = None) ->
  k (advanced name s (setCap i name (caps s))) = Some v ->
  m (Group i (Plus false Dot)) k s = Some v.
Proof.
  intros Ha Hne Hp Hfail Hok. destruct name as [|c name]; [done|].
  apply Forall_cons in Hp as [Hc Hp].
  unfold Plus. cbn [m]. unfold Dot at 1. cbn [m]. rewrite Ha. cbn [app]. rewrite Hc.
  cbn [negb]. unfold Dot.
  set (s1 := mkPos (c :: before s) (name ++ rest) (caps s)).
  assert (Hs1 : s1 = advanced [c] s (caps s)).
  { unfold advanced, s1. cbn [rev app length]. by rewrite Ha. }
  set (k' := fun s' : pos => k _).
  assert (Hk' : forall x, k' (advanced x s1 (caps s1))
                          = k (advanced (c :: x) s (setCap i (c :: x) (caps s)))).
  { intros x. unfold k'. rewrite Hs1, advanced_advanced. cbn [app].
    by rewrite consumed_advanced. }
  rewrite (starLoop_lazy_skip _ k' name _ s1 rest eq_refl (properLine_dot _ Hp)); [|done|].
  - apply starLoop_lazy_now. by rewrite Hk'.
  - intros x1 x2 Hx Hx2. rewrite Hk'. apply (Hfail (c :: x1) x2); [by rewrite Hx|done|done].
Qed.

(** The separator [ b/] has no border. *)
Lemma separator_no_border x t :
  x <> [] ->
  startsWith (lit " b/") (x ++ lit " b/" ++ t) = true ->
  startsWith (lit " b/") x = true.
Proof.
  intros Hx H. destruct x as [|a [|b [|c x]]]; [done| | |].
  - simpl in H. repeat (apply andb_true_iff in H as [?%ascii_eqb_eq H]). done.
  - simpl in H. repeat (apply andb_true_iff in H as [?%ascii_eqb_eq H]). done.
  - simpl in H |- *. repeat (apply andb_true_iff in H as [-> H]). done.
Qed.

Lemma separator_absent x1 x2 t :
  includes (lit " b/") (x1 ++ x2) = false -> x2 <> [] ->
  startsWith (lit " b/") (x2 ++ lit " b/" ++ t) = false.
Proof.
  intros Hi Hx2. destruct (startsWith _ (x2 ++ _)) eqn:E; [|done].
  apply separator_no_border in E; [|done].
  apply includes_app_r, includes_false_startsWith in Hi. congruence.
Qed.

Lemma atEol_inside ml s c rest :
  after s = c :: rest -> isLineTerminator c = false -> atEol ml s = false.
Proof. intros Ha H. unfold atEol. rewrite Ha, H. by destruct ml. Qed.

Lemma atEol_lineEnds s : lineEnds (after s) -> atEol true s = true.
Proof.
  unfold atEol. intros [->|(c & t & -> & Hc)]; [done|]. by rewrite Hc.
Qed.

(** The first pattern of [parseFileNameFromDiff] on a section whose first
    line names the two paths. *)
Lemma firstMatch_header oldName newName tail :
  fileName oldName -> fileName newName ->
  includes (lit " b/") oldName = false ->
  lineEnds tail ->
  exists f,
    DiffParser.firstMatch DiffParser.patterns (headerLine oldName newName ++ tail) = Some f
    /\ group 1 f = Some oldName /\ group 2 f = Some newName.
Proof.
  intros [Hone Hop] [Hnne Hnp] Hsep Htail.
  set (s0 := mkPos [] (headerLine oldName newName ++ tail) []).
  set (s1 := advanced (lit "diff --git a/") s0 []).
  set (s2 := advanced oldName s1 [(1%nat, oldName)]).
  set (s3 := advanced (lit " b/") s2 [(1%nat, oldName)]).
  set (s4 := advanced newName s3 [(2%nat, newName); (1%nat, oldName)]).
  assert (Ha1 : after s1 = oldName ++ lit " b/" ++ newName ++ tail).
  { unfold s1. apply advanced_after. unfold s0, headerLine. cbn [after].
    by rewrite <- !app_assoc. }
  assert (Ha2 : after s2 = lit " b/" ++ newName ++ tail) by by apply advanced_after.
  assert (Ha3 : after s3 = newName ++ tail) by by apply advanced_after.
  assert (Ha4 : after s4 = tail) by by apply advanced_after.
  exists (mkFound s0 s4). split; [|done].
  unfold DiffParser.patterns. cbn [DiffParser.firstMatch].
  unfold exec. erewrite searchFrom_hit; [done|].
  unfold matchAt. fold s0. unfold Seq. cbn [fold_right].
  rewrite m_Cat, m_Bol. change (atBol true s0) with true. cbv iota.
  rewrite m_Cat, m_Str. unfold s0 at 1. cbn [after]. unfold headerLine at 1.
  rewrite <- !app_assoc, startsWith_app.
  change (advanced (lit "diff --git a/") s0 (caps s0)) with s1.
  rewrite m_Cat.
  erewrite (m_Group_lazy_plus 1 _ s1 oldName _ s4 Ha1 Hone Hop); [done| |].
  - intros x1 x2 Hx Hx1 Hx2. rewrite m_Cat, m_Str.
    rewrite (advanced_after x1 (x2 ++ lit " b/" ++ newName ++ tail));
      [|by rewrite Ha1, Hx, <- !app_assoc].
    rewrite Hx in Hsep. by rewrite (separator_absent x1 x2 _ Hsep Hx2).
  - change (advanced oldName s1 (setCap 1 oldName (caps s1))) with s2.
    rewrite m_Cat, m_Str, Ha2, startsWith_app.
    change (advanced (lit " b/") s2 (caps s2)) with s3.
    rewrite m_Cat.
    erewrite (m_Group_lazy_plus 2 _ s3 newName _ s4 Ha3 Hnne Hnp); [done| |].
    + intros x1 x2 Hx Hx1 Hx2. rewrite m_Cat, m_Eol.
      set (p := advanced x1 s3 _).
      assert (Hp : after p = x2 ++ tail).
      { unfold p. apply advanced_after. by rewrite Ha3, Hx, <- app_assoc. }
      destruct x2 as [|c x2]; [done|].
      assert (Hc : isLineTerminator c = false).
      { rewrite Hx in Hnp. apply Forall_app in Hnp as [_ Hnp].
        by apply Forall_cons in Hnp as [Hc _]. }
      by rewrite (atEol_inside true p c (x2 ++ tail) Hp Hc).
    + change (advanced newName s3 (setCap 2 newName (caps s3))) with s4.
      rewrite m_Cat, m_Eol, m_Eps. rewrite atEol_lineEnds; [done|]. by rewrite Ha4.
Qed.

Lemma parseFileNameFromDiff_header oldName newName tail :
  fileName oldName -> fileName newName ->
  includes (lit " b/") oldName = false ->
  lineEnds tail ->
  DiffParser.parseFileNameFromDiff (headerLine oldName newName ++ tail)
  = Some (DiffParser.normalizeFilePath oldName, DiffParser.normalizeFilePath newName).
Proof.
  intros Ho Hn Hsep Htail.
  destruct (firstMatch_header oldName newName tail Ho Hn Hsep Htail) as (f & Hf & H1 & H2).
  unfold DiffParser.parseFileNameFromDiff, DiffParser.pathsOf. by rewrite Hf, H1, H2.
Qed.

End SectionNames.

(** ** The parsers on well-formed sections *)
Section WellFormedSections.
Import Js Regex.
Local Open Scope Z_scope.

Lemma sectionText_not_blank sec : sectionText sec -> ~ blank sec.
Proof.
  intros [Hs _] Hb. destruct sec as [|c sec]; [done|]. simpl in Hs.
  apply andb_true_iff in Hs as [Hc _]. apply ascii_eqb_eq in Hc. subst c.
  by apply Forall_cons in Hb as [Hb _].
Qed.

Lemma concat_sections_not_blank secs :
  Forall sectionText secs -> secs <> [] -> ~ blank (concat secs).
Proof.
  intros Hall Hne Hb. destruct Hall as [|sec secs Hsec _]; [done|].
  cbn [concat] in Hb. apply Forall_app in Hb as [Hb _].
  by apply (sectionText_not_blank sec).
Qed.

Lemma omap_concat {A B} (f : A -> option B) (l : list A) :
  omap f l = concat (map (fun x => option_list (f x)) l).
Proof. induction l as [|x l IH]; csimpl; [done|]. rewrite IH. by destruct (f x). Qed.

Lemma parseFilesFromDiff_concat secs :
  Forall sectionText secs ->
  DiffParser.parseFilesFromDiff (concat secs)
  = omap (fun sec => (DiffParser.parseBlock sec).1) secs.
Proof.
  intros Hall. unfold DiffParser.parseFilesFromDiff. rewrite parseFilesFromDiff_sections.
  destruct secs as [|sec secs]; [done|].
  rewrite bool_decide_eq_false_2 by by apply concat_sections_not_blank.
  unfold DiffParser.fileSections. by rewrite fileSections_concat.
Qed.

Lemma parseUnifiedDiff_concat secs maxBytes :
  Forall sectionText secs ->
  DiffViewer.parseUnifiedDiff (concat secs) maxBytes
  = omap (fun sec => (DiffViewer.parseSection maxBytes sec).1) secs.
Proof.
  intros Hall. unfold DiffViewer.parseUnifiedDiff. rewrite parseUnifiedDiff_sections.
  destruct secs as [|sec secs]; [done|].
  rewrite bool_decide_eq_false_2 by by apply concat_sections_not_blank.
  unfold DiffViewer.fileSections. by rewrite fileSections_concat.
Qed.

Lemma parseFilesFromDiff_one sec :
  sectionText sec ->
  DiffParser.parseFilesFromDiff sec = option_list (DiffParser.parseBlock sec).1.
Proof.
  intros Hsec. pose proof (parseFilesFromDiff_concat [sec]) as H.
  cbn [concat] in H. rewrite app_nil_r in H. rewrite H by by constructor.
  csimpl. by destruct (DiffParser.parseBlock sec).1.
Qed.

Lemma parseUnifiedDiff_one sec maxBytes :
  sectionText sec ->
  DiffViewer.parseUnifiedDiff sec maxBytes
  = option_list (DiffViewer.parseSection maxBytes sec).1.
Proof.
  intros Hsec. pose proof (parseUnifiedDiff_concat [sec] maxBytes) as H.
  cbn [concat] in H. rewrite app_nil_r in H. rewrite H by by constructor.
  csimpl. by destruct (DiffViewer.parseSection maxBytes sec).1.
Qed.

(** The sections of a diff are cut at the markers, and both parsers work
    section by section: the files of a diff made of the sections of several
    files, one after the other, are the files of the first section, then
    those of the second, and so on.  Each section starts with [diff --git]
    and holds that marker nowhere else. *)
Theorem parsers_work_section_by_section (secs : list jstring) (maxBytes : Z) :
  Forall sectionText secs ->
  (secs <> [] -> DiffParser.fileSections (concat secs) = Some secs)
  /\ DiffParser.parseFilesFromDiff (concat secs)
     = concat (map DiffParser.parseFilesFromDiff secs)
  /\ DiffViewer.parseUnifiedDiff (concat secs) maxBytes
     = concat (map (fun sec => DiffViewer.parseUnifiedDiff sec maxBytes) secs).
Proof.
  intros Hall. split_and!.
  - intros Hne. by apply fileSections_concat.
  - rewrite parseFilesFromDiff_concat, omap_concat by done. f_equal.
    apply Forall_fmap_ext_1. eapply Forall_impl; [exact Hall|].
    intros sec Hsec. by rewrite parseFilesFromDiff_one.
  - rewrite parseUnifiedDiff_concat, omap_concat by done. f_equal.
    apply Forall_fmap_ext_1. eapply Forall_impl; [exact Hall|].
    intros sec Hsec. by rewrite parseUnifiedDiff_one.
Qed.

Lemma parsers_work_section_by_section_witness :
  DiffParser.parseFilesFromDiff (concat [fooSection; binSection; brokenSection])
  = concat (map DiffParser.parseFilesFromDiff [fooSection; binSection; brokenSection])
  /\ concat [fooSection; binSection; brokenSection] = threeSections.
Proof.
  split; [|reflexivity].
  apply (parsers_work_section_by_section [fooSection; binSection; brokenSection] 1000).
  repeat constructor; vm_compute; reflexivity.
Defined.

Lemma headerLine_proper oldName newName :
  properLine oldName -> properLine newName -> properLine (headerLine oldName newName).
Proof.
  intros Ho Hn. unfold headerLine, properLine. rewrite !Forall_app. split_and!; try done.
  - by repeat constructor.
  - by repeat constructor.
Qed.

Lemma countLines_header sign oldName newName body :
  (sign = "+"%char \/ sign = "-"%char) ->
  countLines (signedLine sign) (headerLine oldName newName :: body)
  = countLines (signedLine sign) body.
Proof.
  intros Hs. unfold countLines. rewrite filter_cons_False; [done|].
  destruct Hs as [-> | ->]; by simpl.
Qed.

(** The section of one file under [parseFilesFromDiff]. *)
Lemma parseFilesFromDiff_section (oldName newName : jstring)
    (body : list jstring) :
  fileName oldName -> fileName newName ->
  includes (lit " b/") oldName = false ->
  Forall properLine body ->
  let sec := unlines (headerLine oldName newName :: body) in
  includes sectionMark (drop 1 sec) = false ->
  let oldPath := DiffParser.normalizeFilePath oldName in
  let newPath := DiffParser.normalizeFilePath newName in
  let path := if truthy newPath then newPath else oldPath in
  DiffParser.parseFilesFromDiff sec
  = if truthy path
    then [DiffParser.mkParsedFile path oldPath (classify sec)
            (if binaryMark sec then 0 else countLines (signedLine "+") body)
            (if binaryMark sec then 0 else countLines (signedLine "-") body)
            (binaryMark sec)]
    else [].
Proof.
  intros Ho Hn Hsep Hbody sec Hinner oldPath newPath path.
  assert (Hsec : sectionText sec).
  { split; [|done]. unfold sec, unlines, headerLine. cbn [map concat].
    rewrite <- !app_assoc. apply (startsWith_app sectionMark). }
  assert (Hform : sec = headerLine oldName newName ++ LF :: unlines body).
  { unfold sec, unlines. cbn [map concat]. by rewrite <- app_assoc. }
  assert (Hlines : Forall properLine (headerLine oldName newName :: body)).
  { constructor; [|done]. apply headerLine_proper; [apply Ho|apply Hn]. }
  rewrite (parseFilesFromDiff_one sec Hsec). unfold DiffParser.parseBlock.
  rewrite Hform at 1.
  rewrite (parseFileNameFromDiff_header oldName newName _ Ho Hn Hsep);
    [|right; by exists LF, (unlines body)].
  fold oldPath newPath. fold (binaryMark sec). fold path.
  change DiffParser.reAddition with (Seq [Bol true; Ch "+"; NotCh "+"]).
  change DiffParser.reDeletion with (Seq [Bol true; Ch "-"; NotCh "-"]).
  pose proof (countMatches_unlines "+" _ eq_refl Hlines) as Hadd.
  pose proof (countMatches_unlines "-" _ eq_refl Hlines) as Hdel.
  fold sec in Hadd, Hdel. rewrite Hadd, Hdel.
  rewrite !countLines_header by auto.
  destruct (truthy path); [|done]. simpl. by destruct (binaryMark sec).
Qed.

(** What [parseFilesFromDiff] reads off the section of one file.  The
    section is a first line [diff --git a/<old> b/<new>] followed by the
    lines of the body, each line closed by a line feed; the names are not
    empty, the old one does not hold [ b/], and the marker [diff --git]
    stands at the start only.  Then one file is returned (none when both
    normalised names are empty): its paths are the two names normalised,
    the new one first; its kind is read off the mode and rename lines; its
    additions are the lines of the body that start with [+] and do not go
    on with [+], its deletions those that start with [-] and do not go on
    with [-]; and both are zero for a section with a binary mark. *)
Theorem parseFilesFromDiff_well_formed_section (oldName newName : jstring)
    (body : list jstring) :
  fileName oldName -> fileName newName ->
  includes (lit " b/") oldName = false ->
  Forall properLine body ->
  let sec := unlines (headerLine oldName newName :: body) in
  includes sectionMark (drop 1 sec) = false ->
  let oldPath := DiffParser.normalizeFilePath oldName in
  let newPath := DiffParser.normalizeFilePath newName in
  let path := if truthy newPath then newPath else oldPath in
  DiffParser.parseFilesFromDiff sec
  = if truthy path
    then [DiffParser.mkParsedFile path oldPath (classify sec)
            (if binaryMark sec then 0 else countLines (signedLine "+") body)
            (if binaryMark sec then 0 else countLines (signedLine "-") body)
            (binaryMark sec)]
    else [].
Proof. apply parseFilesFromDiff_section. Qed.

Lemma parseFilesFromDiff_well_formed_section_witness :
  DiffParser.parseFilesFromDiff
    (unlines (headerLine (lit "foo.txt") (lit "foo.txt") :: fooBody))
  = [DiffParser.mkParsedFile (lit "foo.txt") (lit "foo.txt") modified 2 1 false].
Proof.
  rewrite (parseFilesFromDiff_well_formed_section (lit "foo.txt") (lit "foo.txt") fooBody).
  - vm_compute. reflexivity.
  - split; [discriminate|repeat constructor].
  - split; [discriminate|repeat constructor].
  - reflexivity.
  - repeat constructor.
  - vm_compute. reflexivity.
Defined.

End WellFormedSections.

(** ** The viewer's parser on well-formed sections *)
Section ViewerSections.
Import Js Regex DiffViewer.
Local Open Scope Z_scope.

Lemma properLine_not_LF c : isLineTerminator c = false -> ascii_eqb LF c = false.
Proof.
  intros H. destruct (ascii_eqb LF c) eqn:E; [|done]. apply ascii_eqb_eq in E. by subst.
Qed.

(** The first pattern of the viewer on a section whose first line names
    the two paths and is closed by a line feed, or ends the text. *)
Lemma fileNameMatch_header oldName newName tail :
  properLine oldName -> properLine newName ->
  includes (lit " b/") oldName = false ->
  (tail = [] \/ exists t, tail = LF :: t) ->
  exists f,
    fileNameMatch (headerLine oldName newName ++ tail) = Some f
    /\ group 1 f = Some oldName /\ group 2 f = Some newName.
Proof.
  intros Hop Hnp Hsep Htail.
  set (s0 := mkPos [] (headerLine oldName newName ++ tail) []).
  set (s1 := advanced (lit "diff --git a/") s0 []).
  set (s2 := advanced oldName s1 [(1%nat, oldName)]).
  set (s3 := advanced (lit " b/") s2 [(1%nat, oldName)]).
  set (s4 := advanced newName s3 [(2%nat, newName); (1%nat, oldName)]).
  assert (Ha1 : after s1 = oldName ++ lit " b/" ++ newName ++ tail).
  { unfold s1. apply advanced_after. unfold s0, headerLine. cbn [after].
    by rewrite <- !app_assoc. }
  assert (Ha2 : after s2 = lit " b/" ++ newName ++ tail) by by apply advanced_after.
  assert (Ha3 : after s3 = newName ++ tail) by by apply advanced_after.
  assert (Ha4 : after s4 = tail) by by apply advanced_after.
  assert (Hend : exists e, m (Cat (Alt (Ch LF) (Eol false)) Eps) Some s4 = Some e
                           /\ caps e = caps s4).
  { rewrite m_Cat, m_Alt. unfold Ch. cbn [m]. rewrite Ha4.
    destruct Htail as [->|[t ->]].
    - exists s4. split; [|done]. unfold atEol. by rewrite Ha4.
    - rewrite ascii_eqb_refl. eexists. split; [done|done]. }
  destruct Hend as (e & He & Hcaps).
  exists (mkFound s0 e). split; [|by unfold group; cbn [m_end]; rewrite Hcaps].
  unfold fileNameMatch, reFileNames1.
  unfold exec. erewrite searchFrom_hit; [done|].
  unfold matchAt. fold s0. unfold Seq. cbn [fold_right].
  rewrite m_Cat, m_Str. unfold s0 at 1. cbn [after]. unfold headerLine at 1.
  rewrite <- !app_assoc, startsWith_app.
  change (advanced (lit "diff --git a/") s0 (caps s0)) with s1.
  rewrite m_Cat.
  erewrite (m_Group_lazy_star 1 _ s1 oldName _ e Ha1 Hop); [done| |].
  - intros x1 x2 Hx Hx2. rewrite m_Cat, m_Str.
    rewrite (advanced_after x1 (x2 ++ lit " b/" ++ newName ++ tail));
      [|by rewrite Ha1, Hx, <- !app_assoc].
    rewrite Hx in Hsep. by rewrite (separator_absent x1 x2 _ Hsep Hx2).
  - change (advanced oldName s1 (setCap 1 oldName (caps s1))) with s2.
    rewrite m_Cat, m_Str, Ha2, startsWith_app.
    change (advanced (lit " b/") s2 (caps s2)) with s3.
    rewrite m_Cat.
    erewrite (m_Group_lazy_star 2 _ s3 newName _ e Ha3 Hnp); [done| |].
    + intros x1 x2 Hx Hx2. rewrite m_Cat, m_Alt.
      set (p := advanced x1 s3 _).
      assert (Hp : after p = x2 ++ tail).
      { unfold p. apply advanced_after. by rewrite Ha3, Hx, <- app_assoc. }
      destruct x2 as [|c x2]; [done|].
      assert (Hc : isLineTerminator c = false).
      { rewrite Hx in Hnp. apply Forall_app in Hnp as [_ Hnp].
        by apply Forall_cons in Hnp as [Hc _]. }
      unfold Ch. cbn [m]. rewrite Hp. cbn [app].
      rewrite (properLine_not_LF c Hc). unfold atEol. by rewrite Hp.
    + change (advanced newName s3 (setCap 2 newName (caps s3))) with s4. exact He.
Qed.

Lemma splitChar_unlines ls :
  Forall oneLine ls -> splitChar LF (unlines ls) = ls ++ [[]].
Proof.
  induction 1 as [|l ls Hl Hls IH]; [done|].
  change (unlines (l :: ls)) with ((l ++ [LF]) ++ unlines ls). rewrite <- app_assoc.
  cbn [app]. rewrite splitChar_app, IH. by rewrite (splitChar_oneLine l Hl).
Qed.

Lemma properLine_oneLine l : properLine l -> oneLine l.
Proof.
  intros H. eapply Forall_impl; [exact H|]. intros c Hc ->. done.
Qed.

(** From the first hunk header on: [findHunk] and [fromHunk] agree. *)
Lemma findHunk_fromHunk lines :
  match findHunk lines with
  | Some i => drop i lines = fromHunk lines /\ fromHunk lines <> []
  | None => fromHunk lines = []
  end.
Proof.
  induction lines as [|line lines IH]; [done|]. cbn [findHunk fromHunk].
  destruct (startsWith (lit "@@") line); [done|].
  destruct (findHunk lines); simpl; done.
Qed.

Lemma fromHunk_snoc_empty lines : fromHunk (lines ++ [[]]) = match fromHunk lines with
                                                             | [] => []
                                                             | hunk => hunk ++ [[]]
                                                             end.
Proof.
  induction lines as [|line lines IH]; [done|]. cbn [app fromHunk].
  destruct (startsWith (lit "@@") line) eqn:E; [done|]. exact IH.
Qed.

Lemma countLine_step a d line :
  countLine (a, d) line
  = (a + (if startsWith (lit "+") line then 1 else 0),
     d + (if startsWith (lit "-") line then 1 else 0)).
Proof.
  unfold countLine. destruct line as [|c line]; [simpl; f_equal; lia|].
  destruct (startsWith (lit "@@") (c :: line)) eqn:Eat.
  { simpl in Eat. apply andb_true_iff in Eat as [Hc _].
    apply ascii_eqb_eq in Hc. subst c. simpl. f_equal; lia. }
  destruct (startsWith (lit "-") (c :: line)) eqn:Em.
  { simpl in Em. apply andb_true_iff in Em as [Hc _].
    apply ascii_eqb_eq in Hc. subst c. simpl. f_equal; lia. }
  destruct (startsWith (lit "+") (c :: line)); f_equal; lia.
Qed.

Lemma countLines_cons (test : jstring -> bool) line lines :
  countLines test (line :: lines) = (if test line then 1 else 0) + countLines test lines.
Proof.
  unfold countLines. destruct (test line) eqn:E.
  - rewrite filter_cons_True by done. simpl. lia.
  - rewrite filter_cons_False by (by rewrite E). lia.
Qed.

(** The two counts of the counting loop. *)
Lemma countLine_counts lines a d :
  fold_left countLine lines (a, d)
  = (a + countLines (startsWith (lit "+")) lines,
     d + countLines (startsWith (lit "-")) lines).
Proof.
  revert a d. induction lines as [|line lines IH]; intros a d.
  - unfold countLines. simpl. f_equal; lia.
  - cbn [fold_left]. rewrite countLine_step, IH, !countLines_cons. f_equal; lia.
Qed.

Lemma countLines_snoc_empty (test : jstring -> bool) lines :
  test [] = false -> countLines test (lines ++ [[]]) = countLines test lines.
Proof.
  intros Ht. unfold countLines. rewrite filter_app, length_app.
  rewrite (filter_cons_False _ []) by (by rewrite Ht). simpl. lia.
Qed.

Lemma fromHunk_header oldName newName body :
  fromHunk (headerLine oldName newName :: body) = fromHunk body.
Proof. done. Qed.

(** What the loops of [parseSection] count in the lines of a section. *)
Lemma parseSection_lines maxBytes sec lines fnm :
  fileNameMatch sec = Some fnm ->
  includes (lit "Binary files") sec || includes (lit "GIT binary patch") sec = false ->
  splitChar LF sec = lines ->
  exists oldText newText,
    (parseSection maxBytes sec).1
    = Some (mkFileDiff (default [] (group 2 fnm)) (default [] (group 1 fnm))
              oldText newText (classify sec) false
              (countLines (startsWith (lit "+")) (fromHunk lines))
              (countLines (startsWith (lit "-")) (fromHunk lines))
              (match fromHunk lines with
               | [] => false
               | _ => maxBytes <? Z.of_nat (length sec)
               end)
              (Z.of_nat (length sec))).
Proof.
  intros Hf Hb Hl. unfold parseSection. rewrite Hf, Hb, Hl.
  pose proof (findHunk_fromHunk lines) as Hh.
  destruct (findHunk lines) as [i|].
  - destruct Hh as [Hdrop Hne]. rewrite Hdrop.
    pose proof (countLine_counts (fromHunk lines) 0 0) as Hc. rewrite !Z.add_0_l in Hc.
    destruct (fromHunk lines) as [|h hunk] eqn:E; [done|]. rewrite <- E in *.
    destruct (maxBytes <? Z.of_nat (length sec)).
    + rewrite Hc. simpl. by eexists _, _.
    + pose proof (countLine_scanLine (fromHunk lines) (mkScan [] [] 0 0)) as Hs.
      cbn [s_additions s_deletions] in Hs. rewrite Hc in Hs. injection Hs as Ha Hd.
      simpl. rewrite <- Ha, <- Hd. by eexists _, _.
  - rewrite Hh. simpl. by eexists _, _.
Qed.

(** What [parseUnifiedDiff] reads off the section of one file that is not
    binary.  The section is a first line [diff --git a/<old> b/<new>]
    followed by the lines of the body, each line closed by a line feed; the
    old name does not hold [ b/], and the marker [diff --git] stands at the
    start only.  Then one file is returned, with the two names as written;
    its additions are the lines that start with [+] from the first hunk
    header on, its deletions those that start with [-]: the lines [---] and
    [+++] above the first hunk header are not counted.  Without a hunk
    header both counts are zero, and only a section with a hunk header can
    be over the size limit. *)
Theorem parseUnifiedDiff_well_formed_section (oldName newName : jstring)
    (body : list jstring) (maxBytes : Z) :
  properLine oldName -> properLine newName ->
  includes (lit " b/") oldName = false ->
  Forall properLine body ->
  let sec := unlines (headerLine oldName newName :: body) in
  includes sectionMark (drop 1 sec) = false ->
  includes (lit "Binary files") sec || includes (lit "GIT binary patch") sec = false ->
  exists oldText newText,
    parseUnifiedDiff sec maxBytes
    = [mkFileDiff newName oldName oldText newText (classify sec) false
         (countLines (startsWith (lit "+")) (fromHunk body))
         (countLines (startsWith (lit "-")) (fromHunk body))
         (match fromHunk body with
          | [] => false
          | _ => maxBytes <? Z.of_nat (length sec)
          end)
         (Z.of_nat (length sec))].
Proof.
  intros Ho Hn Hsep Hbody sec Hinner Hbin.
  assert (Hsec : sectionText sec).
  { split; [|done]. unfold sec, unlines, headerLine. cbn [map concat].
    rewrite <- !app_assoc. apply (startsWith_app sectionMark). }
  assert (Hform : sec = headerLine oldName newName ++ LF :: unlines body).
  { unfold sec, unlines. cbn [map concat]. by rewrite <- app_assoc. }
  assert (Hlines : splitChar LF sec = (headerLine oldName newName :: body) ++ [[]]).
  { apply splitChar_unlines. constructor.
    - apply properLine_oneLine, headerLine_proper; done.
    - eapply Forall_impl; [exact Hbody|]. apply properLine_oneLine. }
  destruct (fileNameMatch_header oldName newName (LF :: unlines body) Ho Hn Hsep)
    as (fnm & Hf & H1 & H2); [right; by eexists|].
  rewrite <- Hform in Hf.
  destruct (parseSection_lines maxBytes sec _ fnm Hf Hbin Hlines) as (ot & nt & Hp).
  rewrite (parseUnifiedDiff_one sec maxBytes Hsec), Hp, H1, H2. cbn [option_list default].
  rewrite fromHunk_snoc_empty, fromHunk_header.
  destruct (fromHunk body) as [|h hunk] eqn:E; [by exists ot, nt|].
  rewrite !countLines_snoc_empty by done. by exists ot, nt.
Qed.

Lemma parseUnifiedDiff_well_formed_section_witness :
  exists oldText newText,
    parseUnifiedDiff (unlines (headerLine (lit "foo.txt") (lit "foo.txt") :: fooBody)) 1000
    = [mkFileDiff (lit "foo.txt") (lit "foo.txt") oldText newText modified false 2 1
         false 114].
Proof.
  apply (parseUnifiedDiff_well_formed_section (lit "foo.txt") (lit "foo.txt") fooBody 1000).
  - repeat constructor.
  - repeat constructor.
  - reflexivity.
  - repeat constructor.
  - vm_compute. reflexivity.
  - vm_compute. reflexivity.
Defined.

End ViewerSections.

(** ** The sections written for untracked files, read back by the parsers *)
Section UntrackedSections.
Import Js Regex GitDiffManager.
Local Open Scope Z_scope.

Lemma digits_proper d : properLine (lit (DecimalString.NilEmpty.string_of_uint d)).
Proof. induction d; simpl; by constructor. Qed.

Lemma numberToString_proper z : properLine (numberToString z).
Proof.
  unfold numberToString. destruct (Z.to_int z) as [d|d]; simpl.
  - destruct d; try apply (digits_proper (_ d)); by repeat constructor.
  - constructor; [done|]. destruct d; try apply (digits_proper (_ d)); by repeat constructor.
Qed.

Lemma split_newline_length content :
  length (split reNewline content) = S (newlines content).
Proof.
  destruct content as [|c content]; [done|].
  unfold split. apply splitGo_newlines. simpl. lia.
Qed.

Lemma plus_lines ls :
  concat (map (fun line => lit "+" ++ line ++ [LF]) ls)
  = unlines (map (fun line => lit "+" ++ line) ls).
Proof.
  unfold unlines. rewrite map_map. f_equal.
Qed.

(** The section of an untracked file, line by line. *)
Lemma untrackedSection_lines cleanFile content :
  untrackedSection cleanFile content
  = unlines (headerLine cleanFile cleanFile
               :: untrackedBody cleanFile (split reNewline content)).
Proof.
  unfold untrackedSection. set (lines := split reNewline content).
  assert (Hlen : (0 <? length lines)%nat = true).
  { unfold lines. by rewrite split_newline_length. }
  rewrite Hlen, plus_lines. unfold untrackedBody, headerLine, unlines.
  cbn [map concat app]. repeat first [rewrite <- app_assoc | progress cbn [app]]. reflexivity.
Qed.

Lemma includes_skip p a b : includes p b = true -> includes p (a ++ b) = true.
Proof.
  intros H. induction a as [|c a IH]; [done|].
  cbn [app includes]. rewrite IH. apply orb_true_r.
Qed.

Lemma join_snoc_empty ls : join [LF] (ls ++ [[]]) = unlines ls.
Proof.
  induction ls as [|l ls IH]; [done|].
  change (unlines (l :: ls)) with ((l ++ [LF]) ++ unlines ls).
  rewrite <- IH, <- app_assoc. by destruct ls.
Qed.

Lemma untrackedBody_proper cleanFile lines :
  properLine cleanFile -> Forall properLine lines ->
  Forall properLine (untrackedBody cleanFile lines).
Proof.
  intros Hf Hls. unfold untrackedBody. apply Forall_app. split.
  - do 3 (apply Forall_cons_2; [by repeat constructor|]).
    apply Forall_cons_2.
    { unfold properLine. apply Forall_app. split; [by repeat constructor|done]. }
    apply Forall_cons_2; [|constructor].
    unfold properLine. rewrite !Forall_app. split_and!.
    + by repeat constructor.
    + apply numberToString_proper.
    + by repeat constructor.
  - apply Forall_fmap. eapply Forall_impl; [exact Hls|].
    intros l Hl. by constructor.
Qed.

Lemma scanLine_plus ls : forall st,
  fold_left DiffViewer.scanLine (map (fun line => lit "+" ++ line) ls) st
  = DiffViewer.mkScan (DiffViewer.oldLines st) (DiffViewer.newLines st ++ ls)
      (DiffViewer.s_additions st + Z.of_nat (length ls)) (DiffViewer.s_deletions st).
Proof.
  induction ls as [|l ls IH]; intros st.
  - cbn [map fold_left length]. rewrite app_nil_r, Z.add_0_r. by destruct st.
  - cbn [map fold_left]. rewrite IH.
    change (DiffViewer.scanLine st (lit "+" ++ l))
      with (DiffViewer.mkScan (DiffViewer.oldLines st) (DiffViewer.newLines st ++ [l])
              (DiffViewer.s_additions st + 1) (DiffViewer.s_deletions st)).
    cbn [DiffViewer.oldLines DiffViewer.newLines DiffViewer.s_additions
         DiffViewer.s_deletions length].
    rewrite <- app_assoc. f_equal. lia.
Qed.

Lemma countLines_plus (ls : list jstring) :
  countLines (startsWith (lit "+")) (map (fun line => lit "+" ++ line) ls)
  = Z.of_nat (length ls).
Proof.
  unfold countLines. f_equal. induction ls as [|l ls IH]; [done|].
  cbn [map]. rewrite filter_cons_True by done. cbn [length]. by rewrite IH.
Qed.

Lemma countLines_minus (ls : list jstring) :
  countLines (startsWith (lit "-")) (map (fun line => lit "+" ++ line) ls) = 0.
Proof.
  unfold countLines. induction ls as [|l ls IH]; [done|].
  cbn [map]. by rewrite filter_cons_False.
Qed.

Lemma lineCount_lines content :
  match content with [] => 1 | _ => lineCount content end
  = Z.of_nat (length (split reNewline content)).
Proof. by destruct content. Qed.

(** The section of an untracked file under the loop body of the viewer. *)
Lemma untrackedSection_parseSection (cleanFile content : jstring) (maxBytes : Z) :
  properLine cleanFile ->
  includes (lit " b/") cleanFile = false ->
  let lines := split reNewline content in
  Forall properLine lines ->
  let sec := untrackedSection cleanFile content in
  includes sectionMark (drop 1 sec) = false ->
  includes (lit "Binary files") sec || includes (lit "GIT binary patch") sec = false ->
  let tooLarge := maxBytes <? Z.of_nat (length sec) in
  sectionText sec
  /\ (DiffViewer.parseSection maxBytes sec).1
     = Some (DiffViewer.mkFileDiff cleanFile cleanFile []
               (if tooLarge then [] else unlines lines) added false
               (Z.of_nat (length lines)) 0 tooLarge (Z.of_nat (length sec))).
Proof.
  intros Hf Hsep lines Hlines sec Hinner Hbin tooLarge.
  pose proof (untrackedSection_lines cleanFile content) as Hform. fold lines sec in Hform.
  pose proof (untrackedBody_proper cleanFile lines Hf Hlines) as Hbody.
  assert (Hsec : sectionText sec).
  { split; [|done]. rewrite Hform. unfold unlines, headerLine. cbn [map concat].
    rewrite <- !app_assoc. apply (startsWith_app sectionMark). }
  assert (Hform2 : sec = headerLine cleanFile cleanFile
                         ++ LF :: unlines (untrackedBody cleanFile lines)).
  { rewrite Hform. unfold unlines. cbn [map concat]. by rewrite <- app_assoc. }
  assert (Hsplit : splitChar LF sec
                   = (headerLine cleanFile cleanFile :: untrackedBody cleanFile lines) ++ [[]]).
  { rewrite Hform. apply splitChar_unlines. constructor.
    - apply properLine_oneLine, headerLine_proper; done.
    - eapply Forall_impl; [exact Hbody|]. apply properLine_oneLine. }
  destruct (fileNameMatch_header cleanFile cleanFile
              (LF :: unlines (untrackedBody cleanFile lines)) Hf Hf Hsep)
    as (fnm & Hfm & H1 & H2); [right; by eexists|].
  rewrite <- Hform2 in Hfm.
  assert (Hkind : classify sec = added).
  { unfold classify. replace (includes (lit "new file mode") sec) with true; [done|].
    symmetry. rewrite Hform2.
    change (LF :: unlines (untrackedBody cleanFile lines))
      with ([LF] ++ unlines (untrackedBody cleanFile lines)).
    rewrite app_assoc. apply includes_skip. apply includes_startsWith. reflexivity. }
  split; [done|]. unfold DiffViewer.parseSection.
  rewrite Hfm, H1, H2, Hbin, Hsplit, Hkind. cbn [default]. fold tooLarge.
  change (DiffViewer.findHunk
            ((headerLine cleanFile cleanFile :: untrackedBody cleanFile lines) ++ [[]]))
    with (Some 5%nat).
  cbv beta iota.
  change (drop 5 ((headerLine cleanFile cleanFile :: untrackedBody cleanFile lines) ++ [[]]))
    with ((lit "@@ -0,0 +1," ++ numberToString (Z.of_nat (length lines)) ++ lit " @@")
          :: map (fun line => lit "+" ++ line) lines ++ [[]]).
  destruct tooLarge.
  - rewrite countLine_counts, !countLines_cons, !countLines_snoc_empty by done.
    rewrite countLines_plus, countLines_minus.
    change (startsWith (lit "+") (lit "@@ -0,0 +1," ++ ?x)) with false.
    change (startsWith (lit "-") (lit "@@ -0,0 +1," ++ ?x)) with false.
    rewrite !Z.add_0_l. reflexivity.
  - set (hunk := lit "@@ -0,0 +1," ++ numberToString (Z.of_nat (length lines)) ++ lit " @@").
    cbn [fold_left].
    change (DiffViewer.scanLine (DiffViewer.mkScan [] [] 0 0) hunk)
      with (DiffViewer.mkScan [] [] 0 0).
    rewrite fold_left_app, scanLine_plus. cbn [fold_left].
    cbn [DiffViewer.oldLines DiffViewer.newLines DiffViewer.s_additions
         DiffViewer.s_deletions app].
    change (DiffViewer.scanLine (DiffViewer.mkScan [] lines (0 + Z.of_nat (length lines)) 0) [])
      with (DiffViewer.mkScan [[]] (lines ++ [[]]) (0 + Z.of_nat (length lines)) 0).
    cbn [DiffViewer.oldLines DiffViewer.newLines DiffViewer.s_additions
         DiffViewer.s_deletions].
    rewrite join_snoc_empty, Z.add_0_l. reflexivity.
Qed.

(** The section that the engine writes for an untracked file, read by the
    viewer.  The file name is on one line and does not hold [ b/], no line
    of the content holds a carriage return, and the section holds the
    marker [diff --git] at its start only and no binary mark.  Then the
    viewer shows one added file under that name, without old text; its new
    text is the lines of the content, each closed by a line feed; its
    additions are the line count that [getDiffStats] adds for the file (and
    1 for an empty file, for which [getDiffStats] adds 0); it has no
    deletions.  Over the size limit the new text is left out and the counts
    are the same. *)
Theorem untracked_section_in_viewer (cleanFile content : jstring) (maxBytes : Z) :
  properLine cleanFile ->
  includes (lit " b/") cleanFile = false ->
  let lines := split reNewline content in
  Forall properLine lines ->
  let sec := untrackedSection cleanFile content in
  includes sectionMark (drop 1 sec) = false ->
  includes (lit "Binary files") sec || includes (lit "GIT binary patch") sec = false ->
  let tooLarge := maxBytes <? Z.of_nat (length sec) in
  DiffViewer.parseUnifiedDiff sec maxBytes
  = [DiffViewer.mkFileDiff cleanFile cleanFile []
       (if tooLarge then [] else unlines lines) added false
       (match content with [] => 1 | _ => lineCount content end) 0
       tooLarge (Z.of_nat (length sec))].
Proof.
  intros Hf Hsep lines Hlines sec Hinner Hbin tooLarge.
  destruct (untrackedSection_parseSection cleanFile content maxBytes Hf Hsep Hlines
              Hinner Hbin) as [Hsec Hp].
  subst tooLarge sec lines.
  rewrite (parseUnifiedDiff_one _ maxBytes Hsec), Hp, lineCount_lines. reflexivity.
Qed.

Lemma untracked_section_in_viewer_witness :
  DiffViewer.parseUnifiedDiff (untrackedSection (lit "new.txt") twoLines) 1000
  = [DiffViewer.mkFileDiff (lit "new.txt") (lit "new.txt") []
       (unlines [lit "one"; lit "+two"]) added false 2 0 false 130].
Proof.
  apply (untracked_section_in_viewer (lit "new.txt") twoLines 1000).
  - repeat constructor.
  - reflexivity.
  - vm_compute. repeat constructor.
  - vm_compute. reflexivity.
  - vm_compute. reflexivity.
Defined.

Lemma untracked_kind cleanFile lines :
  classify (unlines (headerLine cleanFile cleanFile :: untrackedBody cleanFile lines))
  = added.
Proof.
  unfold classify.
  replace (includes (lit "new file mode") _) with true; [done|]. symmetry.
  change (unlines (headerLine cleanFile cleanFile :: untrackedBody cleanFile lines))
    with ((headerLine cleanFile cleanFile ++ [LF])
          ++ lit "new file mode" ++ lit " 100644" ++ [LF]
          ++ unlines (tail (untrackedBody cleanFile lines))).
  apply includes_skip, includes_startsWith, startsWith_app.
Qed.

Lemma countLines_app (test : jstring -> bool) (a b : list jstring) :
  countLines test (a ++ b) = countLines test a + countLines test b.
Proof. unfold countLines. rewrite filter_app, length_app. lia. Qed.

Lemma countLines_plain (ls : list jstring) :
  countLines (signedLine "+") (map (fun line => lit "+" ++ line) ls)
  = countLines plainLine ls.
Proof.
  induction ls as [|l ls IH]; [done|].
  cbn [map]. rewrite !countLines_cons, IH. f_equal.
  unfold plainLine. destruct l as [|c l]; [done|].
  cbn [app lit String.list_ascii_of_string signedLine startsWith].
  by rewrite andb_true_r.
Qed.

Lemma countLines_no_minus (ls : list jstring) :
  countLines (signedLine "-") (map (fun line => lit "+" ++ line) ls) = 0.
Proof.
  induction ls as [|l ls IH]; [done|]. cbn [map]. by rewrite countLines_cons, IH.
Qed.

(** The section that the engine writes for an untracked file, read by the
    parser of the file list.  The file name is not empty, on one line and
    does not hold [ b/], no line of the content holds a carriage return,
    and the section holds the marker [diff --git] at its start only and no
    binary mark.  Then the file list has one added file under the
    normalised name, without deletions; its additions are the lines of the
    content that do not themselves start with a plus sign. *)
Theorem untracked_section_in_file_list (cleanFile content : jstring) :
  fileName cleanFile ->
  includes (lit " b/") cleanFile = false ->
  let lines := split reNewline content in
  Forall properLine lines ->
  let sec := untrackedSection cleanFile content in
  includes sectionMark (drop 1 sec) = false ->
  binaryMark sec = false ->
  let path := DiffParser.normalizeFilePath cleanFile in
  DiffParser.parseFilesFromDiff sec
  = if truthy path
    then [DiffParser.mkParsedFile path path added (countLines plainLine lines) 0 false]
    else [].
Proof.
  intros Hf Hsep lines Hlines sec Hinner Hbin path.
  pose proof (untrackedSection_lines cleanFile content) as Hform. fold lines sec in Hform.
  pose proof (untrackedBody_proper cleanFile lines (proj2 Hf) Hlines) as Hbody.
  pose proof (parseFilesFromDiff_section cleanFile cleanFile
                (untrackedBody cleanFile lines) Hf Hf Hsep Hbody) as Hp.
  cbv zeta in Hp. rewrite <- Hform in Hp. specialize (Hp Hinner). fold path in Hp.
  rewrite Hp, Hbin.
  assert (Hkind : classify sec = added) by (rewrite Hform; apply untracked_kind).
  rewrite Hkind. unfold untrackedBody.
  rewrite !countLines_app, countLines_plain, countLines_no_minus.
  rewrite !countLines_cons.
  change (signedLine "+" (lit "+++ b/" ++ cleanFile)) with false.
  change (signedLine "+" (lit "@@ -0,0 +1," ++ ?x)) with false.
  change (signedLine "-" (lit "+++ b/" ++ cleanFile)) with false.
  change (signedLine "-" (lit "@@ -0,0 +1," ++ ?x)) with false.
  change (signedLine "+" (lit "new file mode 100644")) with false.
  change (signedLine "+" (lit "index 0000000..0000000")) with false.
  change (signedLine "+" (lit "--- /dev/null")) with false.
  change (signedLine "-" (lit "new file mode 100644")) with false.
  change (signedLine "-" (lit "index 0000000..0000000")) with false.
  change (signedLine "-" (lit "--- /dev/null")) with false.
  change (countLines (signedLine "+") []) with 0.
  change (countLines (signedLine "-") []) with 0.
  cbv beta iota. rewrite !Z.add_0_l.
  clear Hp. clearbody path. by destruct (truthy path) eqn:E; rewrite E.
Qed.

Lemma untracked_section_in_file_list_witness :
  DiffParser.parseFilesFromDiff (untrackedSection (lit "new.txt") twoLines)
  = [DiffParser.mkParsedFile (lit "new.txt") (lit "new.txt") added 1 0 false].
Proof.
  rewrite (untracked_section_in_file_list (lit "new.txt") twoLines).
  - vm_compute. reflexivity.
  - split; [discriminate|repeat constructor].
  - reflexivity.
  - vm_compute. repeat constructor.
  - vm_compute. reflexivity.
  - vm_compute. reflexivity.
Defined.

Lemma createDiff_from env worktreePath files : forall acc,
  fold_left
    (fun diffOutput file =>
       if negb (truthy file) || (length (trim file) =? 0)%nat then diffOutput
       else
         match readFileSync env (path_join env worktreePath (trim file)) with
         | Ok fileContent => diffOutput ++ untrackedSection (trim file) fileContent
         | Throw _ => diffOutput
         end)
    files acc
  = acc ++ concat (map (fun e => untrackedSection e.1 e.2)
                     (untrackedEntries env worktreePath files)).
Proof.
  induction files as [|file files IH]; intros acc.
  - cbn [fold_left]. unfold untrackedEntries. csimpl. by rewrite app_nil_r.
  - cbn [fold_left]. rewrite IH. unfold untrackedEntries. csimpl.
    destruct (negb (truthy file) || (length (trim file) =? 0)%nat); [done|].
    destruct (readFileSync env (path_join env worktreePath (trim file))); [|done].
    csimpl. by rewrite <- app_assoc.
Qed.

(** The diff written for the untracked files, read by the viewer: one
    added file for each file that has a name and can be read, in the order
    of the list; the files without name and those that cannot be read are
    left out.  Every file written is on the conditions of the section of
    one file. *)
Theorem untracked_files_in_viewer (env : Env) (worktreePath : jstring)
    (untrackedFiles : list jstring) (maxBytes : Z) :
  Forall plainUntracked (untrackedEntries env worktreePath untrackedFiles) ->
  DiffViewer.parseUnifiedDiff
    (createDiffForUntrackedFiles env worktreePath untrackedFiles) maxBytes
  = map (shownUntracked maxBytes) (untrackedEntries env worktreePath untrackedFiles).
Proof.
  intros Hall. unfold createDiffForUntrackedFiles. rewrite createDiff_from. cbn [app].
  assert (Hsecs : Forall (fun e =>
             sectionText (untrackedSection e.1 e.2)
             /\ (DiffViewer.parseSection maxBytes (untrackedSection e.1 e.2)).1
                = Some (shownUntracked maxBytes e))
            (untrackedEntries env worktreePath untrackedFiles)).
  { eapply Forall_impl; [exact Hall|]. intros [name content] (H1 & H2 & H3 & H4 & H5).
    apply (untrackedSection_parseSection name content maxBytes H1 H2 H3 H4 H5). }
  rewrite parseUnifiedDiff_concat.
  - clear Hall. induction Hsecs as [|e es [_ He] _ IH]; [done|]. csimpl. by rewrite He, IH.
  - apply Forall_fmap. eapply Forall_impl; [exact Hsecs|]. by intros e [? _].
Qed.

Lemma untracked_files_in_viewer_witness :
  DiffViewer.parseUnifiedDiff
    (createDiffForUntrackedFiles (oneUntracked twoLines) (lit "/repo")
       [lit "new.txt"; lit "gone.txt"]) 1000
  = [shownUntracked 1000 (lit "new.txt", twoLines)].
Proof.
  rewrite (untracked_files_in_viewer (oneUntracked twoLines) (lit "/repo")
             [lit "new.txt"; lit "gone.txt"] 1000).
  - vm_compute. reflexivity.
  - vm_compute. repeat constructor.
Defined.

End UntrackedSections.

(** ** Reading the lines of [git log --numstat]: [parseNumstatOutput] *)
Section Numstat.
Import Js Regex GitDiffManager.
Local Open Scope Z_scope.

(** *** Numbers written and read back *)

Lemma digitsValue_acc d : forall acc,
  digitsValue (Z.pos acc) (lit (DecimalString.NilEmpty.string_of_uint d))
  = Z.pos (Pos.of_uint_acc d acc).
Proof.
  induction d; intros acc; [done|..]; cbn [DecimalString.NilEmpty.string_of_uint lit
    String.list_ascii_of_string digitsValue Pos.of_uint_acc];
    match goal with
    | |- context [isDigit ?c] => change (isDigit c) with true; cbv iota
    end;
    match goal with
    | |- context [digitValue ?c] =>
        let v := eval vm_compute in (digitValue c) in change (digitValue c) with v
    end;
    rewrite <- IHd; f_equal; lia.
Qed.

Lemma digitsValue_zero d :
  digitsValue 0 (lit (DecimalString.NilEmpty.string_of_uint d)) = Z.of_N (Pos.of_uint d).
Proof.
  induction d; [done|..]; cbn [DecimalString.NilEmpty.string_of_uint lit
    String.list_ascii_of_string digitsValue Pos.of_uint];
    match goal with
    | |- context [isDigit ?c] => change (isDigit c) with true; cbv iota
    end;
    match goal with
    | |- context [digitValue ?c] =>
        let v := eval vm_compute in (digitValue c) in change (digitValue c) with v
    end;
    [exact IHd|..]; apply (digitsValue_acc d).
Qed.

Lemma digit_not_space c : isDigit c = true -> isWhitespace c = false.
Proof.
  unfold isDigit, isWhitespace. intros H. apply andb_true_iff in H as [H1 H2].
  apply N.leb_le in H1. apply N.leb_le in H2.
  rewrite !orb_false_iff, andb_false_iff. split_and!.
  - right. apply N.leb_gt. lia.
  - apply N.eqb_neq. lia.
  - apply N.eqb_neq. lia.
Qed.

Lemma digit_not_sign c s : (code s < 48)%N -> isDigit c = true -> ascii_eqb c s = false.
Proof.
  unfold isDigit, ascii_eqb. intros Hs H. apply andb_true_iff in H as [H1 H2].
  apply N.leb_le in H1. apply N.eqb_neq. lia.
Qed.

Lemma parseInt_digit_value c rest :
  isDigit c = true -> parseInt (c :: rest) = Some (digitsValue 0 (c :: rest)).
Proof.
  intros Hc. unfold parseInt, trimStart. cbn [dropWhile].
  rewrite (digit_not_space c Hc).
  rewrite (digit_not_sign c "-"), (digit_not_sign c "+") by done.
  by rewrite Hc.
Qed.

(** A number that is not negative is written with digits only, and starts
    with one. *)
Lemma numberToString_digits z :
  0 <= z ->
  exists c rest, numberToString z = c :: rest /\ isDigit c = true
                 /\ digitsValue 0 (c :: rest) = z.
Proof.
  intros Hz. destruct z as [|p|p]; [by exists "0"%char, []| |lia].
  unfold numberToString. cbn [Z.to_int DecimalString.NilZero.string_of_int].
  pose proof (DecimalPos.Unsigned.of_to p) as Hp.
  pose proof (digitsValue_zero (Pos.to_uint p)) as Hd. rewrite Hp in Hd.
  destruct (Pos.to_uint p) eqn:E; [done|..];
    cbn [DecimalString.NilZero.string_of_uint DecimalString.NilEmpty.string_of_uint lit
         String.list_ascii_of_string] in *;
    by eexists _, _.
Qed.

Lemma numstatField_count n :
  (forall z, n = Some z -> 0 <= z) ->
  numstatField (numstatCount n) = Some (default 0 n).
Proof.
  intros Hn. destruct n as [z|]; [|done].
  destruct (numberToString_digits z (Hn z eq_refl)) as (c & rest & E & Hc & Hv).
  unfold numstatField. cbn [numstatCount default]. rewrite E.
  rewrite bool_decide_eq_false_2.
  - by rewrite parseInt_digit_value, Hv.
  - intros [= -> _]. done.
Qed.

(** *** Splitting a line at the runs of white space *)

(** A greedy star of a class takes the whole run of the class. *)
Lemma starLoop_greedy_run p run : forall n bef rest cs,
  Forall (fun c => p c = true) run ->
  match rest with [] => True | c :: _ => p c = false end ->
  (length run <= n)%nat ->
  starLoop (m (Chr p)) true Some n (mkPos bef (run ++ rest) cs)
  = Some (mkPos (rev run ++ bef) rest cs).
Proof.
  induction run as [|w run IH]; intros n bef rest cs Hrun Hrest Hn.
  - destruct n as [|n]; [done|]. cbn [starLoop m after app].
    destruct rest as [|c rest]; [done|]. by rewrite Hrest.
  - destruct n as [|n]; [simpl in Hn; lia|].
    apply Forall_cons in Hrun as [Hw Hrun].
    cbn [starLoop m after before caps app]. rewrite Hw.
    replace (length (run ++ rest) <? length (w :: run ++ rest))%nat with true
      by (symmetry; apply Nat.ltb_lt; simpl; lia).
    rewrite IH by (simpl in Hn; done || lia).
    cbn [rev]. by rewrite <- app_assoc.
Qed.

Lemma matchAt_spaces bef ws rest :
  ws <> [] -> Forall (fun c => isWhitespace c = true) ws ->
  match rest with [] => True | c :: _ => isWhitespace c = false end ->
  matchAt reSpaces bef (ws ++ rest)
  = Some (mkFound (mkPos bef (ws ++ rest) []) (mkPos (rev ws ++ bef) rest [])).
Proof.
  intros Hne Hws Hrest. destruct ws as [|w ws]; [done|].
  apply Forall_cons in Hws as [Hw Hws].
  unfold matchAt, reSpaces, Plus, Space. rewrite m_Cat.
  cbn [m after before caps app]. rewrite Hw.
  assert (Hlen : (length ws <= length (ws ++ rest))%nat) by (rewrite length_app; lia).
  pose proof (starLoop_greedy_run isWhitespace ws _ (w :: bef) rest [] Hws Hrest Hlen) as E.
  cbn [m] in E. rewrite E. cbn [rev]. by rewrite <- app_assoc.
Qed.

Lemma matchAt_no_space bef c rest :
  isWhitespace c = false -> matchAt reSpaces bef (c :: rest) = None.
Proof.
  intros Hc. unfold matchAt, reSpaces, Plus, Space. rewrite m_Cat.
  cbn [m after]. by rewrite Hc.
Qed.

(** A word is passed over character by character. *)
Lemma splitGo_word word : forall cur bef fuel tail,
  Forall (fun c => isWhitespace c = false) word ->
  (length word <= fuel)%nat ->
  splitGo reSpaces cur bef (word ++ tail) fuel
  = splitGo reSpaces (rev word ++ cur) (rev word ++ bef) tail (fuel - length word).
Proof.
  induction word as [|c word IH]; intros cur bef fuel tail Hword Hfuel.
  - cbn [app rev length]. by rewrite Nat.sub_0_r.
  - apply Forall_cons in Hword as [Hc Hword].
    destruct fuel as [|fuel]; [simpl in Hfuel; lia|].
    cbn [app splitGo]. rewrite (matchAt_no_space _ _ _ Hc).
    rewrite IH; [|done|simpl in Hfuel; lia].
    cbn [rev length Nat.sub]. by rewrite <- !app_assoc.
Qed.

(** A run of white space cuts the text. *)
Lemma splitGo_spaces cur bef ws rest fuel :
  ws <> [] -> Forall (fun c => isWhitespace c = true) ws ->
  match rest with [] => True | c :: _ => isWhitespace c = false end ->
  splitGo reSpaces cur bef (ws ++ rest) (S fuel)
  = rev cur :: splitGo reSpaces [] (rev ws ++ bef) rest fuel.
Proof.
  intros Hne Hws Hrest. cbn [splitGo].
  rewrite (matchAt_spaces bef ws rest Hne Hws Hrest).
  destruct ws as [|w ws]; [done|]. cbn [app].
  change (w :: ws ++ rest) with ((w :: ws) ++ rest). rewrite matched_found.
  reflexivity.
Qed.

Lemma splitGo_nonempty r fuel : forall cur bef aft, splitGo r cur bef aft fuel <> [].
Proof.
  induction fuel as [|fuel IH]; intros cur bef aft; [done|].
  cbn [splitGo]. destruct aft as [|c aft]; [done|].
  destruct (matchAt r bef (c :: aft)) as [f|]; [|apply IH].
  destruct (matched f), cur; try done; apply IH.
Qed.

Lemma digits_no_space d :
  Forall (fun c => isWhitespace c = false)
    (lit (DecimalString.NilEmpty.string_of_uint d)).
Proof. induction d; simpl; by constructor. Qed.

(** A count is a word: not empty, without white space. *)
Lemma numstatCount_word n :
  (forall z, n = Some z -> 0 <= z) ->
  exists c w, numstatCount n = c :: w
              /\ Forall (fun c => isWhitespace c = false) (c :: w).
Proof.
  intros Hn. destruct n as [z|]; [|exists "-"%char, []; by repeat constructor].
  specialize (Hn z eq_refl). cbn [numstatCount].
  destruct z as [|p|p]; [exists "0"%char, []; by repeat constructor| |lia].
  unfold numberToString. cbn [Z.to_int DecimalString.NilZero.string_of_int].
  pose proof (DecimalPos.Unsigned.of_to p) as Hp.
  pose proof (digits_no_space (Pos.to_uint p)) as Hd.
  destruct (Pos.to_uint p) eqn:E; [done|..];
    cbn [DecimalString.NilZero.string_of_uint DecimalString.NilEmpty.string_of_uint lit
         String.list_ascii_of_string] in *;
    by eexists _, _.
Qed.

Lemma trim_tidy s : tidy s -> trim s = s.
Proof.
  intros [Hs He]. unfold trim, trimStart, trimEnd.
  destruct s as [|c s]; [done|]. cbn [dropWhile]. rewrite Hs.
  destruct (rev (c :: s)) as [|l r] eqn:E; [done|]. cbn [dropWhile]. rewrite He.
  by rewrite <- E, rev_involutive.
Qed.

Lemma tidy_app c x path :
  isWhitespace c = false -> tidy path -> tidy ((c :: x) ++ path).
Proof.
  intros Hc [Hs He]. split; [done|]. rewrite rev_app_distr.
  destruct (rev path) as [|l r]; [done|]. done.
Qed.

(** The fields of a line of numstat output. *)
Lemma split_numstat_line (A D path : jstring) :
  A <> [] -> Forall (fun c => isWhitespace c = false) A ->
  D <> [] -> Forall (fun c => isWhitespace c = false) D ->
  tidy path ->
  exists x xs, split reSpaces (A ++ [TAB] ++ D ++ [TAB] ++ path) = A :: D :: x :: xs.
Proof.
  intros HA HAw HD HDw Hpath.
  destruct A as [|a A]; [done|]. destruct D as [|d D]; [done|].
  destruct path as [|p path]; [by destruct Hpath|].
  unfold split. cbn [app].
  change (a :: A ++ TAB :: d :: D ++ TAB :: p :: path)
    with ((a :: A) ++ [TAB] ++ (d :: D) ++ [TAB] ++ p :: path).
  set (F := S (2 * length ((a :: A) ++ [TAB] ++ (d :: D) ++ [TAB] ++ p :: path))).
  assert (HF : F = S (2 * (length (a :: A) + 1 + length (d :: D) + 1
                           + length (p :: path)))).
  { unfold F. rewrite !length_app. cbn [length]. lia. }
  clearbody F.
  rewrite splitGo_word by (done || lia).
  set (f0 := (F - length (a :: A))%nat).
  replace f0 with (S (f0 - 1)) by (unfold f0; lia).
  rewrite splitGo_spaces; [|done|by repeat constructor|by apply Forall_cons in HDw as [? _]].
  rewrite splitGo_word by (done || unfold f0; lia).
  set (f1 := (f0 - 1 - length (d :: D))%nat).
  replace f1 with (S (f1 - 1)) by (unfold f1, f0; lia).
  rewrite splitGo_spaces; [|done|by repeat constructor|by destruct Hpath].
  rewrite !app_nil_r, !rev_involutive.
  pose proof (splitGo_nonempty reSpaces (f1 - 1) []
                (rev [TAB] ++ rev (d :: D) ++ rev [TAB] ++ rev (a :: A)) (p :: path)) as Hne.
  destruct (splitGo _ _ _ _ (f1 - 1)) as [|x xs]; [done|]. by exists x, xs.
Qed.

Lemma parseNumstatOutput_cons line lines :
  parseNumstatOutput (line :: lines)
  = addStats (parseNumstatOutput [line]) (parseNumstatOutput lines).
Proof. apply (parseNumstatOutput_app [line] lines). Qed.

(** One line of numstat output counts for its two numbers and one file. *)
Lemma parseNumstatOutput_line e :
  numstatEntry e ->
  parseNumstatOutput [numstatLine e] = mkStats (default 0 e.1.1) (default 0 e.1.2) 1.
Proof.
  destruct e as [[a d] path]. intros (Ha & Hd & Hpath). cbn [fst snd] in *.
  destruct (numstatCount_word a Ha) as (ca & wa & Ea & Hwa).
  destruct (numstatCount_word d Hd) as (cd & wd & Ed & Hwd).
  unfold parseNumstatOutput, numstatLine. cbn [fold_left fst snd].
  assert (Htidy : tidy (numstatCount a ++ [TAB] ++ numstatCount d ++ [TAB] ++ path)).
  { rewrite Ea.
    replace ((ca :: wa) ++ [TAB] ++ numstatCount d ++ [TAB] ++ path)
      with ((ca :: wa ++ [TAB] ++ numstatCount d ++ [TAB]) ++ path)
      by (repeat first [rewrite <- app_assoc | progress cbn [app]]; reflexivity).
    apply tidy_app; [by apply Forall_cons in Hwa as [? _]|done]. }
  rewrite (trim_tidy _ Htidy).
  destruct (split_numstat_line (numstatCount a) (numstatCount d) path)
    as (x & xs & Hs); [by rewrite Ea|by rewrite Ea|by rewrite Ed|by rewrite Ed|done|].
  rewrite Hs, !numstatField_count by done. reflexivity.
Qed.

(** The lines of numstat output, read back: the additions and deletions
    are the sums of the counts written, a dash counting for zero, and every
    line counts for one file.  The counts are not negative and the paths
    have no white space at their ends. *)
Theorem parseNumstatOutput_reads_numstat
    (entries : list (option Z * option Z * jstring)) :
  Forall numstatEntry entries ->
  parseNumstatOutput (map numstatLine entries)
  = mkStats (sumZ (map (fun e => default 0 e.1.1) entries))
      (sumZ (map (fun e => default 0 e.1.2) entries))
      (Z.of_nat (length entries)).
Proof.
  induction 1 as [|e entries He _ IH]; [done|].
  cbn [map]. rewrite parseNumstatOutput_cons, IH, (parseNumstatOutput_line e He).
  unfold addStats. cbn [additions deletions filesChanged sumZ foldr length]. f_equal. lia.
Qed.

Lemma parseNumstatOutput_reads_numstat_witness :
  parseNumstatOutput
    [lit "12" ++ [TAB] ++ lit "3" ++ [TAB] ++ lit "src/a.ts";
     lit "-" ++ [TAB] ++ lit "-" ++ [TAB] ++ lit "img/logo.png"]
  = mkStats 12 3 2.
Proof.
  apply (parseNumstatOutput_reads_numstat
           [(Some 12, Some 3, lit "src/a.ts"); (None, None, lit "img/logo.png")]).
  apply Forall_cons_2; [|apply Forall_cons_2; [|apply Forall_nil_2]].
  - split_and!; [intros z [= <-]; lia|intros z [= <-]; lia|by split].
  - split_and!; [intros z [=]|intros z [=]|by split].
Defined.

End Numstat.

(** ** The lists of file names read from git *)
Section FileNames.
Import Js GitDiffManager.

Lemma unlines_join names : names <> [] -> unlines names = join [LF] names ++ [LF].
Proof.
  induction names as [|n ns IH]; [done|]. intros _.
  change (unlines (n :: ns)) with ((n ++ [LF]) ++ unlines ns).
  destruct ns as [|m r]; [by rewrite app_nil_r|].
  rewrite IH by done. cbn [join]. by rewrite <- !app_assoc.
Qed.

Lemma splitChar_join names :
  names <> [] -> Forall oneLine names -> splitChar LF (join [LF] names) = names.
Proof.
  induction names as [|n ns IH]; [done|]. intros _ Hall.
  apply Forall_cons in Hall as [Hn Hns].
  destruct ns as [|m r]; [by apply splitChar_oneLine|].
  change (join [LF] (n :: m :: r)) with (n ++ LF :: join [LF] (m :: r)).
  rewrite splitChar_app, IH, (splitChar_oneLine n Hn) by done. done.
Qed.

Lemma tidy_join names : names <> [] -> Forall tidy names -> tidy (join [LF] names).
Proof.
  induction names as [|n ns IH]; [done|]. intros _ Hall.
  apply Forall_cons in Hall as [Hn Hns].
  destruct ns as [|m r]; [done|].
  change (join [LF] (n :: m :: r)) with (n ++ [LF] ++ join [LF] (m :: r)).
  destruct (IH ltac:(done) Hns) as [_ He].
  destruct n as [|c x]; [by destruct Hn|]. split; [by destruct Hn|].
  rewrite !rev_app_distr. by destruct (rev (join [LF] (m :: r))).
Qed.

Lemma trim_unlines names :
  names <> [] -> Forall tidy names -> trim (unlines names) = join [LF] names.
Proof.
  intros Hne Hall. rewrite unlines_join by done.
  pose proof (tidy_join names Hne Hall) as Ht.
  pose proof (trim_tidy _ Ht) as Hid. unfold trim, trimStart in *.
  destruct (join [LF] names) as [|c J]; [by destruct Ht|].
  destruct Ht as [Hc _]. cbn [app dropWhile] in *. rewrite Hc in *.
  change (c :: J ++ [LF]) with ((c :: J) ++ [LF]).
  rewrite trimEnd_blank_app; [done|by repeat constructor].
Qed.

(** The lines of the output of git, as the code cuts them. *)
Lemma names_of_output names :
  Forall printedName names ->
  splitChar LF (trim (unlines names)) = match names with [] => [[]] | _ => names end.
Proof.
  intros Hall. destruct names as [|n ns]; [done|].
  rewrite trim_unlines, splitChar_join; try done.
  - eapply Forall_impl; [exact Hall|]. by intros ? [_ ?].
  - eapply Forall_impl; [exact Hall|]. by intros ? [? _].
Qed.

Lemma filter_all (P : jstring -> bool) (l : list jstring) :
  Forall (fun x => P x = true) l -> filter P l = l.
Proof.
  induction 1 as [|x l Hx _ IH]; [done|].
  rewrite filter_cons_True by by rewrite Hx. by rewrite IH.
Qed.

Lemma printedName_nonblank name : printedName name -> truthy name && nonEmpty (trim name) = true.
Proof.
  intros [Ht _]. rewrite (trim_tidy name Ht). destruct name; [by destruct Ht|done].
Qed.

(** The names that git prints, one on each line, are read back as they
    are: the untracked files, the files changed between two commits, the
    files changed by a commit, and the changed files of the working tree,
    tracked ones first.  Each name is on one line and has no white space at
    its ends; an empty output gives the empty list. *)
Theorem file_names_read_back (env : Env) (worktreePath fromCommit toCommit commitHash : jstring)
    (tracked names : list jstring) :
  Forall printedName tracked -> Forall printedName names ->
  (execSync env (lit "git ls-files --others --exclude-standard") worktreePath
   = Ok (unlines names) ->
   getUntrackedFiles env worktreePath = names
   /\ (execSync env (lit "git diff --name-only HEAD") worktreePath = Ok (unlines tracked) ->
       getChangedFiles env worktreePath = tracked ++ names))
  /\ (execSync env (lit "git diff --name-only " ++ fromCommit ++ lit ".." ++ toCommit)
        worktreePath = Ok (unlines names) ->
      getChangedFilesBetweenCommits env worktreePath fromCommit toCommit = names)
  /\ (execSync env (lit "git show --name-only --format= " ++ commitHash) worktreePath
      = Ok (unlines names) ->
      getCommitChangedFiles env worktreePath commitHash = names).
Proof.
  intros Htracked Hnames.
  assert (Hne : forall l, Forall printedName l ->
                          filter nonEmpty (splitChar LF (trim (unlines l))) = l).
  { intros l Hl. rewrite names_of_output by done. destruct l as [|n ns]; [done|].
    apply filter_all. eapply Forall_impl; [exact Hl|].
    intros name [[Ht _] _]. by destruct name. }
  split_and!.
  - intros Hout.
    assert (Hu : getUntrackedFiles env worktreePath = names).
    { unfold getUntrackedFiles. rewrite Hout.
      destruct names as [|n ns]; [done|].
      assert (Htidy : Forall tidy (n :: ns)).
      { eapply Forall_impl; [exact Hnames|]. by intros ? [? _]. }
      assert (Hone : Forall oneLine (n :: ns)).
      { eapply Forall_impl; [exact Hnames|]. by intros ? [_ ?]. }
      rewrite trim_unlines, splitChar_join by done.
      pose proof (tidy_join (n :: ns) ltac:(done) Htidy) as [Hj _].
      destruct n as [|c n]; [by apply Forall_cons in Htidy as [[? _] _]|].
      destruct (join [LF] ((c :: n) :: ns)) as [|j J]; [done|].
      change (negb (truthy (unlines ((c :: n) :: ns))) || (length (j :: J) =? 0)%nat)
        with false. cbv iota.
      apply filter_all. eapply Forall_impl; [exact Hnames|]. apply printedName_nonblank. }
    split; [done|]. intros Ht. unfold getChangedFiles. rewrite Ht, Hu. cbv zeta.
    by rewrite Hne.
  - intros Hout. unfold getChangedFilesBetweenCommits. rewrite Hout. by apply Hne.
  - intros Hout. unfold getCommitChangedFiles. rewrite Hout.
    rewrite names_of_output by done. destruct names as [|n ns]; [done|].
    apply filter_all. eapply Forall_impl; [exact Hnames|].
    intros name [[Ht _] _]. by destruct name.
Qed.

Lemma file_names_read_back_witness :
  getUntrackedFiles (oneUntracked twoLines) (lit "/repo") = [lit "new.txt"].
Proof.
  destruct (file_names_read_back (oneUntracked twoLines) (lit "/repo") [] [] [] []
              [lit "new.txt"]) as [Hu _].
  - constructor.
  - constructor; [|constructor]. split; [by split|].
    repeat (apply Forall_cons_2; [by vm_compute|]). constructor.
  - by destruct (Hu eq_refl).
Defined.

End FileNames.
